(** * mtg-hash: chunked incremental hashing with worker dispatch

    A shallow embedding of [src/index.ts] (createChunks, singleThreadHash,
    multiThreadHash, calculateHash, calculateAllHashes) together with the
    properties the specification states about them.

    Conventions of the embedding:
    - a [File] is its name and its bytes; [size] is the number of bytes;
    - byte offsets and sizes are [Z] (JavaScript numbers holding integers);
      counters and array indices are [nat];
    - an asynchronous function is modelled by the state it reaches under an
      explicit environment: which reads succeed, and in which order worker
      messages arrive;
    - a callback is modelled by the log of the calls it receives, and is
      taken to return normally ([singleThreadHash_onProgress] follows one
      that throws);
    - [SparkMD5.ArrayBuffer], the accumulator imported from the npm package
      spark-md5, is the list of bytes appended so far, finished by MD5
      (RFC 1321) printed in lower-case hexadecimal. *)

From Stdlib Require Import ZArith Strings.Byte String Ascii SpecFloat DecimalString Lia.
From stdpp Require Import list strings gmap.

Local Open Scope Z_scope.

(** ** MD5 (RFC 1321), the digest behind [SparkMD5.ArrayBuffer] *)

Module MD5.

Definition mask32 (x : Z) : Z := Z.land x 0xFFFFFFFF.
Definition add32 (x y : Z) : Z := mask32 (x + y).
Definition not32 (x : Z) : Z := Z.lxor x 0xFFFFFFFF.
Definition rotl32 (x c : Z) : Z :=
  mask32 (Z.lor (Z.shiftl x c) (Z.shiftr x (32 - c))).

Definition K : list Z :=
  [ 0xd76aa478; 0xe8c7b756; 0x242070db; 0xc1bdceee;
    0xf57c0faf; 0x4787c62a; 0xa8304613; 0xfd469501;
    0x698098d8; 0x8b44f7af; 0xffff5bb1; 0x895cd7be;
    0x6b901122; 0xfd987193; 0xa679438e; 0x49b40821;
    0xf61e2562; 0xc040b340; 0x265e5a51; 0xe9b6c7aa;
    0xd62f105d; 0x02441453; 0xd8a1e681; 0xe7d3fbc8;
    0x21e1cde6; 0xc33707d6; 0xf4d50d87; 0x455a14ed;
    0xa9e3e905; 0xfcefa3f8; 0x676f02d9; 0x8d2a4c8a;
    0xfffa3942; 0x8771f681; 0x6d9d6122; 0xfde5380c;
    0xa4beea44; 0x4bdecfa9; 0xf6bb4b60; 0xbebfbc70;
    0x289b7ec6; 0xeaa127fa; 0xd4ef3085; 0x04881d05;
    0xd9d4d039; 0xe6db99e5; 0x1fa27cf8; 0xc4ac5665;
    0xf4292244; 0x432aff97; 0xab9423a7; 0xfc93a039;
    0x655b59c3; 0x8f0ccc92; 0xffeff47d; 0x85845dd1;
    0x6fa87e4f; 0xfe2ce6e0; 0xa3014314; 0x4e0811a1;
    0xf7537e82; 0xbd3af235; 0x2ad7d2bb; 0xeb86d391 ].

Definition shifts : list Z :=
  [ 7; 12; 17; 22; 7; 12; 17; 22; 7; 12; 17; 22; 7; 12; 17; 22;
    5;  9; 14; 20; 5;  9; 14; 20; 5;  9; 14; 20; 5;  9; 14; 20;
    4; 11; 16; 23; 4; 11; 16; 23; 4; 11; 16; 23; 4; 11; 16; 23;
    6; 10; 15; 21; 6; 10; 15; 21; 6; 10; 15; 21; 6; 10; 15; 21 ].

Record regs := Regs { rA : Z; rB : Z; rC : Z; rD : Z }.

Definition init : regs :=
  Regs 0x67452301 0xefcdab89 0x98badcfe 0x10325476.

(** One of the 64 operations of a block; [M] holds its 16 words. *)
Definition operation (M : list Z) (r : regs) (i : nat) : regs :=
  let '(Regs A B C D) := r in
  let '(F, g) :=
    if (i <? 16)%nat then
      (Z.lor (Z.land B C) (Z.land (not32 B) D), i)
    else if (i <? 32)%nat then
      (Z.lor (Z.land D B) (Z.land (not32 D) C), (5 * i + 1) mod 16)%nat
    else if (i <? 48)%nat then
      (Z.lxor B (Z.lxor C D), (3 * i + 5) mod 16)%nat
    else
      (Z.lxor C (Z.lor B (not32 D)), (7 * i) mod 16)%nat in
  let F' := add32 (add32 (add32 F A) (nth i K 0)) (nth g M 0) in
  Regs D (add32 B (rotl32 F' (nth i shifts 0))) B C.

Definition block (r : regs) (M : list Z) : regs :=
  let '(Regs A B C D) := foldl (operation M) r (seq 0 64) in
  Regs (add32 (rA r) A) (add32 (rB r) B) (add32 (rC r) C) (add32 (rD r) D).

(** Little-endian words. *)
Definition word_of (b0 b1 b2 b3 : Z) : Z :=
  b0 + 256 * b1 + 65536 * b2 + 16777216 * b3.

Fixpoint words (bs : list Z) : list Z :=
  match bs with
  | b0 :: b1 :: b2 :: b3 :: rest => word_of b0 b1 b2 b3 :: words rest
  | _ => []
  end.

Definition le_bytes (n : nat) (x : Z) : list Z :=
  map (fun k => Z.land (Z.shiftr x (8 * Z.of_nat k)) 255) (seq 0 n).

(** Padding: 0x80, zeros up to 56 modulo 64, then the bit length on 64
    bits. *)
Definition pad (bs : list Z) : list Z :=
  let len := Z.of_nat (length bs) in
  let zeros := Z.to_nat ((55 - len) mod 64) in
  bs ++ [128] ++ replicate zeros 0 ++ le_bytes 8 ((8 * len) mod 2 ^ 64).

Fixpoint blocks (fuel : nat) (ws : list Z) (r : regs) : regs :=
  match fuel, ws with
  | S fuel', _ :: _ => blocks fuel' (drop 16 ws) (block r (take 16 ws))
  | _, _ => r
  end.

Definition digest_bytes (input : list byte) : list Z :=
  let ws := words (pad (map (fun b => Z.of_N (Byte.to_N b)) input)) in
  let '(Regs A B C D) := blocks (length ws) ws init in
  le_bytes 4 A ++ le_bytes 4 B ++ le_bytes 4 C ++ le_bytes 4 D.

Definition hex_digit (d : Z) : ascii :=
  nth (Z.to_nat d)
      (list_ascii_of_string "0123456789abcdef") "0"%char.

Fixpoint hex_string (bs : list Z) : string :=
  match bs with
  | [] => EmptyString
  | b :: rest =>
      String (hex_digit (b / 16)) (String (hex_digit (b mod 16)) (hex_string rest))
  end.

Definition hex (input : list byte) : string :=
  hex_string (digest_bytes input).

End MD5.

(** The bytes of an ASCII text. *)
Definition bytes_of (s : string) : list byte := list_byte_of_string s.

(** ** JavaScript numbers: IEEE 754 binary64 and [toFixed(1)] *)

Module Number.

Definition prec : Z := 53.
Definition emax : Z := 1024.

(** The double nearest to a counter or an array length. *)
Definition of_nat (n : nat) : spec_float :=
  binary_normalize prec emax (Z.of_nat n) 0 false.

Definition div : spec_float -> spec_float -> spec_float := SFdiv prec emax.
Definition mul : spec_float -> spec_float -> spec_float := SFmul prec emax.

Definition decimal (n : Z) : string :=
  NilZero.string_of_uint (N.to_uint (Z.to_N n)).

(** [x.toFixed(1)]: the integer [n] with [n / 10] nearest to [|x|], the
    larger one on a tie, printed with one fractional digit. A magnitude of
    10^21 or more would be printed by [Number::toString], which is outside
    this model: [None]. *)
Definition toFixed1 (x : spec_float) : option string :=
  match x with
  | S754_nan => Some "NaN"%string
  | S754_infinity s => Some (if s then "-Infinity" else "Infinity")%string
  | S754_zero _ => Some "0.0"%string
  | S754_finite s m e =>
      let num := Z.pos m * 2 ^ Z.max e 0 in
      let den := 2 ^ Z.max (- e) 0 in
      if 10 ^ 21 * den <=? num then None
      else
        let n := (20 * num + den) / (2 * den) in
        Some ((if s then "-" else "") +:+ decimal (n / 10) +:+ "." +:+ decimal (n mod 10))
  end.

End Number.

(** ** Data model *)

Record File := { name : string; content : list byte }.

Definition size (file : File) : Z := Z.of_nat (length (content file)).

(** [Blob.slice(start, end)] of the File API: a negative offset counts from
    the end, and both offsets are clamped to the blob. *)
Definition slice (bytes : list byte) (start end_ : Z) : list byte :=
  let sz := Z.of_nat (length bytes) in
  let relativeStart := if start <? 0 then Z.max (sz + start) 0 else Z.min start sz in
  let relativeEnd := if end_ <? 0 then Z.max (sz + end_) 0 else Z.min end_ sz in
  let span := Z.max (relativeEnd - relativeStart) 0 in
  take (Z.to_nat span) (drop (Z.to_nat relativeStart) bytes).

(** [interface Chunk extends Blob { fileId: string }]. *)
Record Chunk := { data : list byte; fileId : string }.

Record ProgressData := {
  progress_name : option string;
  current : nat;
  total : nat;
  percent : option string
}.

Inductive Error :=
| JsError (message : string)
| TypeError (message : string).

Inductive Promise (A : Type) :=
| Pending
| Fulfilled (value : A)
| Rejected (reason : Error).
Arguments Pending {A}.
Arguments Fulfilled {A} value.
Arguments Rejected {A} reason.

(** [resolve] and [reject] settle a promise once; later calls are ignored. *)
Definition settle {A} (p q : Promise A) : Promise A :=
  match p with
  | Pending => q
  | _ => p
  end.

(** [x || d] on an optional count: [undefined] and [0] are falsy. *)
Definition or_default (x : option nat) (d : nat) : nat :=
  match x with
  | Some (S n) => S n
  | _ => d
  end.

(** [new SparkMD5.ArrayBuffer()], [append] and [end]. *)
Definition SparkMD5_new : list byte := [].
Definition SparkMD5_append (spark buffer : list byte) : list byte := spark ++ buffer.
Definition SparkMD5_end (spark : list byte) : string := MD5.hex spark.

(** [(current / total * 100).toFixed(1)]. *)
Definition percentOf (current total : nat) : option string :=
  Number.toFixed1
    (Number.mul (Number.div (Number.of_nat current) (Number.of_nat total))
                (Number.of_nat 100)).

Definition progressData (fileName : string) (current total : nat) : ProgressData :=
  {| progress_name := Some fileName;
     current := current;
     total := total;
     percent := percentOf current total |}.

(** ** createChunks *)

(** The [for] loop of createChunks, [i] being the loop variable. [None]:
    the loop is still running when the fuel is spent. *)
Fixpoint createChunks_loop (fuel : nat) (file : File) (chunkSize i : Z)
    (chunks : list Chunk) : option (list Chunk) :=
  match fuel with
  | O => None
  | S fuel' =>
      if i <? size file then
        let end_ := Z.min (i + chunkSize) (size file) in
        let chunk := {| data := slice (content file) i end_; fileId := name file |} in
        createChunks_loop fuel' file chunkSize (i + chunkSize) (chunks ++ [chunk])
      else Some chunks
  end.

Definition createChunks_fuel (fuel : nat) (file : File) (chunkSize : Z)
    : option (list Chunk) :=
  createChunks_loop fuel file chunkSize 0 [].

(** One more iteration than the file has bytes: enough whenever the loop
    terminates at all ([createChunks_fuel_enough], [createChunks_diverges]). *)
Definition createChunks (file : File) (chunkSize : Z) : option (list Chunk) :=
  createChunks_fuel (S (length (content file))) file chunkSize.

(** ** What a caller observes of one hashing run *)

Record Observed := {
  accumulated : list byte;            (* bytes appended to the accumulator *)
  onProgressCalls : list ProgressData; (* calls of onProgress, oldest first *)
  settled : Promise string            (* the returned promise *)
}.

(** ** singleThreadHash *)

(** The loop over [chunks[i]]; [rest] are the chunks from index [i] on.
    [reads i] tells whether the FileReader of chunk [i] fires [onload]: the
    source installs no other handler, so a failed read leaves the [await]
    suspended for ever. *)
Fixpoint singleThreadHash_loop (reads : nat -> bool) (fileName : string)
    (length_ : nat) (rest : list Chunk) (i : nat) (st : Observed) : Observed :=
  match rest with
  | [] =>
      {| accumulated := accumulated st;
         onProgressCalls := onProgressCalls st;
         settled := Fulfilled (SparkMD5_end (accumulated st)) |}
  | chunk :: rest' =>
      if reads i then
        let buffer := data chunk in
        singleThreadHash_loop reads fileName length_ rest' (S i)
          {| accumulated := SparkMD5_append (accumulated st) buffer;
             onProgressCalls :=
               onProgressCalls st ++ [progressData fileName (i + 1) length_];
             settled := Pending |}
      else st
  end.

Definition singleThreadHash (reads : nat -> bool) (chunks : list Chunk)
    (fileName : string) : Observed :=
  singleThreadHash_loop reads fileName (length chunks) chunks 0
    {| accumulated := SparkMD5_new; onProgressCalls := []; settled := Pending |}.

(** ** singleThreadHash with an onProgress that may throw *)

(** The loop of singleThreadHash when a call of [onProgress] may throw:
    [onProgress progress] is [None] when the call returns and [Some thrown]
    when it throws (an absent callback always returns). The loop runs in
    the body of an async function, so a throw rejects the returned promise
    with the value thrown, after the chunk was appended, and ends the
    loop. *)
Fixpoint singleThreadHash_onProgress_loop (reads : nat -> bool)
    (onProgress : ProgressData -> option Error) (fileName : string)
    (length_ : nat) (rest : list Chunk) (i : nat) (st : Observed) : Observed :=
  match rest with
  | [] =>
      {| accumulated := accumulated st;
         onProgressCalls := onProgressCalls st;
         settled := Fulfilled (SparkMD5_end (accumulated st)) |}
  | chunk :: rest' =>
      if reads i then
        let buffer := data chunk in
        let progress := progressData fileName (i + 1) length_ in
        match onProgress progress with
        | None =>
            singleThreadHash_onProgress_loop reads onProgress fileName length_ rest' (S i)
              {| accumulated := SparkMD5_append (accumulated st) buffer;
                 onProgressCalls := onProgressCalls st ++ [progress];
                 settled := Pending |}
        | Some thrown =>
            {| accumulated := SparkMD5_append (accumulated st) buffer;
               onProgressCalls := onProgressCalls st ++ [progress];
               settled := Rejected thrown |}
        end
      else st
  end.

Definition singleThreadHash_onProgress (reads : nat -> bool)
    (onProgress : ProgressData -> option Error) (chunks : list Chunk)
    (fileName : string) : Observed :=
  singleThreadHash_onProgress_loop reads onProgress fileName (length chunks) chunks 0
    {| accumulated := SparkMD5_new; onProgressCalls := []; settled := Pending |}.

(** ** multiThreadHash *)

(** [{ index, url }], [url] being an object URL of the chunk. *)
Record WorkerTask := { task_index : nat; task_chunk : Chunk }.

Inductive Worker :=
| Idle
| Busy (task : WorkerTask)
| Terminated.

(** [MessageEvent<{ index; buffer?; error? }>]. *)
Record WorkerResult := {
  index : nat;
  buffer : option (list byte);
  error : option string
}.

(** What [fetch(url)] does inside a worker. *)
Inductive Fetch :=
| FetchOk
| FetchFails (message : string).

(** The worker script: post the bytes, or the message of what was caught. *)
Definition workerCode (task : WorkerTask) (f : Fetch) : WorkerResult :=
  match f with
  | FetchOk =>
      {| index := task_index task;
         buffer := Some (data (task_chunk task));
         error := None |}
  | FetchFails message =>
      {| index := task_index task; buffer := None; error := Some message |}
  end.

Record Runner := {
  workers : list Worker;
  currentIndex : nat;
  processedChunks : nat;
  spark : list byte;
  calls : list ProgressData;
  promise : Promise string
}.

Definition observe (st : Runner) : Observed :=
  {| accumulated := spark st; onProgressCalls := calls st; settled := promise st |}.

(** [workers.forEach(w => w.terminate())]. *)
Definition terminateAll (st : Runner) : Runner :=
  {| workers := (fun _ => Terminated) <$> workers st;
     currentIndex := currentIndex st;
     processedChunks := processedChunks st;
     spark := spark st;
     calls := calls st;
     promise := promise st |}.

Definition settleWith (st : Runner) (p : Promise string) : Runner :=
  {| workers := workers st;
     currentIndex := currentIndex st;
     processedChunks := processedChunks st;
     spark := spark st;
     calls := calls st;
     promise := settle (promise st) p |}.

(** [if (error)] on an optional string: [undefined] and the empty string are
    falsy. *)
Definition truthy (s : option string) : bool :=
  match s with
  | Some (String _ _) => true
  | _ => false
  end.

Definition template (s : option string) : string := default "undefined"%string s.

Definition handleMessage (chunks : list Chunk) (fileName : string) (worker : nat)
    (e : WorkerResult) (st : Runner) : Runner :=
  if truthy (error e) then
    settleWith (terminateAll st)
      (Rejected (JsError ("分块处理错误: " +:+ template (error e))))
  else
    match buffer e with
    | None =>
        settleWith (terminateAll st)
          (Rejected (JsError ("分块数据为空: " +:+ Number.decimal (Z.of_nat (index e)))))
    | Some buffer =>
        let spark' := SparkMD5_append (spark st) buffer in
        let processedChunks' := S (processedChunks st) in
        let calls' :=
          calls st ++ [progressData fileName processedChunks' (length chunks)] in
        let '(workers', currentIndex') :=
          match chunks !! currentIndex st with (* currentIndex < chunks.length *)
          | Some chunk =>
              (<[worker := Busy {| task_index := currentIndex st; task_chunk := chunk |}]>
                 (workers st),
               S (currentIndex st))
          | None => (<[worker := Terminated]> (workers st), currentIndex st)
          end in
        let st' :=
          {| workers := workers';
             currentIndex := currentIndex';
             processedChunks := processedChunks';
             spark := spark';
             calls := calls';
             promise := promise st |} in
        if Nat.eqb processedChunks' (length chunks) then
          settleWith (terminateAll st') (Fulfilled (SparkMD5_end spark'))
        else st'
    end.

(** [worker.onerror]. *)
Definition handleError (message : string) (st : Runner) : Runner :=
  settleWith (terminateAll st) (Rejected (JsError ("Worker错误: " +:+ message))).

Definition workerCount (hardwareConcurrency : option nat) (chunks : list Chunk) : nat :=
  Nat.min (or_default hardwareConcurrency 4) (length chunks).

(** One iteration of the loop that creates the workers. *)
Definition spawn (chunks : list Chunk) (st : Runner) : Runner :=
  let '(worker, currentIndex') :=
    match chunks !! currentIndex st with (* currentIndex < chunks.length *)
    | Some chunk =>
        (Busy {| task_index := currentIndex st; task_chunk := chunk |},
         S (currentIndex st))
    | None => (Idle, currentIndex st)
    end in
  {| workers := workers st ++ [worker];
     currentIndex := currentIndex';
     processedChunks := processedChunks st;
     spark := spark st;
     calls := calls st;
     promise := promise st |}.

(** The state when the executor of [new Promise] returns. *)
Definition start (hardwareConcurrency : option nat) (chunks : list Chunk) : Runner :=
  Nat.iter (workerCount hardwareConcurrency chunks) (spawn chunks)
    {| workers := [];
       currentIndex := 0;
       processedChunks := 0;
       spark := SparkMD5_new;
       calls := [];
       promise := Pending |}.

(** What the environment does next: worker [w] finishes its fetch and its
    message arrives, or worker [w] raises an [error] event. *)
Inductive Event :=
| Arrival (w : nat) (f : Fetch)
| Fault (w : nat) (message : string).

(** Only a worker with a task in flight posts a message, and a terminated
    worker delivers nothing more ([terminate] also drops what it had
    posted): any other event does not happen. *)
Definition deliver (chunks : list Chunk) (fileName : string) (st : Runner)
    (ev : Event) : Runner :=
  match ev with
  | Arrival w f =>
      match workers st !! w with
      | Some (Busy task) => handleMessage chunks fileName w (workerCode task f) st
      | _ => st
      end
  | Fault w message =>
      match workers st !! w with
      | Some Idle | Some (Busy _) => handleError message st
      | _ => st
      end
  end.

(** The runner after the events [arrivals], in that order. *)
Definition multiThreadHash (hardwareConcurrency : option nat) (chunks : list Chunk)
    (fileName : string) (arrivals : list Event) : Runner :=
  foldl (deliver chunks fileName) (start hardwareConcurrency chunks) arrivals.

(** ** calculateHash *)

Record HashOptions := {
  chunkSize : option Z;
  useWorkerThreshold : option Z
}.

(** The environment of one file's hashing. *)
Record Environment := {
  reads : nat -> bool;
  arrivals : list Event
}.

Definition progressHandler (fileName : string) (progress : ProgressData) : ProgressData :=
  {| progress_name := Some fileName;
     current := current progress;
     total := total progress;
     percent := percent progress |}.

Definition withProgress (handler : ProgressData -> ProgressData) (o : Observed)
    : Observed :=
  {| accumulated := accumulated o;
     onProgressCalls := handler <$> onProgressCalls o;
     settled := settled o |}.

(** [None]: createChunks does not return. *)
Definition calculateHash (hardwareConcurrency : option nat) (file : File)
    (options : HashOptions) (env : Environment) : option Observed :=
  let chunkSize := default (10 * 1024 * 1024) (chunkSize options) in
  let useWorkerThreshold := default (10 * 1024 * 1024) (useWorkerThreshold options) in
  match createChunks file chunkSize with
  | None => None
  | Some chunks =>
      let fileName := name file in
      Some (withProgress (progressHandler fileName)
              (if useWorkerThreshold <=? size file
               then observe (multiThreadHash hardwareConcurrency chunks fileName (arrivals env))
               else singleThreadHash (reads env) chunks fileName))
  end.

(** ** calculateAllHashes *)

Inductive JsValue :=
| JsFile (file : File)   (* [f instanceof File] *)
| JsOther.               (* any other value *)

Inductive JsInput :=
| JsNotArray
| JsArray (elements : list JsValue).

(** [maxConcurrency] is a count: the limiter of p-limit is defined for
    positive integers only ([calculateAllHashes_anyNumber] takes any number
    and applies the argument check of pLimit). *)
Record AllHashOptions := {
  hashOptions : HashOptions;
  maxConcurrency : option nat
}.

Record HashResult := {
  result_name : string;
  hash : option string;
  result_error : option Error
}.

(** [{ success: true, hash }] or [{ success: false, error }]. *)
Inductive TaskResult :=
| Success (hash : string)
| Failure (error : Error).

Definition isFile (v : JsValue) : bool :=
  match v with
  | JsFile _ => true
  | JsOther => false
  end.

Definition asFile (v : JsValue) : option File :=
  match v with
  | JsFile file => Some file
  | JsOther => None
  end.

(** The limiter of [pLimit(maxConcurrency)] and the array of task promises:
    tasks waiting in submission order, tasks running, every task ever
    started, and the settled value of each task promise. *)
Record Batch := {
  queue : list nat;
  active : list nat;
  dispatched : list nat;
  results : list (option TaskResult)
}.

(** [limiter(task)]: run the task at once if a slot is free, queue it
    otherwise. *)
Definition limiter (concurrency : nat) (b : Batch) (task : nat) : Batch :=
  if (length (active b) <? concurrency)%nat then
    {| queue := queue b;
       active := active b ++ [task];
       dispatched := dispatched b ++ [task];
       results := results b ++ [None] |}
  else
    {| queue := queue b ++ [task];
       active := active b;
       dispatched := dispatched b;
       results := results b ++ [None] |}.

(** The body of a task: the [try]/[catch] around [processFile]. [None]: the
    hashing of the file never settles. *)
Definition taskBody (run : option Observed) : option TaskResult :=
  match run with
  | Some o =>
      match settled o with
      | Fulfilled hash => Some (Success hash)
      | Rejected error => Some (Failure error)
      | Pending => None
      end
  | None => None
  end.

(** A running task returns: its promise settles, its slot is freed and the
    first waiting task starts. *)
Definition finish (b : Batch) (task : nat) (r : TaskResult) : Batch :=
  let active' := filter (fun j => j ≠ task) (active b) in
  match queue b with
  | next :: queue' =>
      {| queue := queue';
         active := active' ++ [next];
         dispatched := dispatched b ++ [next];
         results := <[task := Some r]> (results b) |}
  | [] =>
      {| queue := [];
         active := active';
         dispatched := dispatched b;
         results := <[task := Some r]> (results b) |}
  end.

(** Task [task] is the next one to return, if it is running and its hashing
    settles. *)
Definition complete (runs : nat -> option Observed) (b : Batch) (task : nat) : Batch :=
  if decide (task ∈ active b) then
    match taskBody (runs task) with
    | Some r => finish b task r
    | None => b
    end
  else b.

Definition toHashResult (file : File) (result : TaskResult) : HashResult :=
  match result with
  | Success hash =>
      {| result_name := name file; hash := Some hash; result_error := None |}
  | Failure error =>
      {| result_name := name file; hash := None; result_error := Some error |}
  end.

(** The environment of a batch: the hardware concurrency of the navigator,
    the environment of each file's hashing (by position in the array), and
    the order in which the tasks return. *)
Record BatchEnvironment := {
  hardwareConcurrency : option nat;
  fileEnvironment : nat -> Environment;
  completions : list nat
}.

Record BatchOutcome := {
  started : list nat;                      (* files whose hashing was started *)
  running : list nat;                      (* tasks that have not returned yet *)
  returned : Promise (list HashResult)     (* the promise of the async function *)
}.

(** [processFile] for the file at position [i]. Its onProgress wrapper only
    feeds onFileProgress and onTotalProgress from a map of counters; no
    result depends on it and it is left out. *)
Definition processFile (env : BatchEnvironment) (options : AllHashOptions)
    (files : list File) (i : nat) : option Observed :=
  match files !! i with
  | Some file =>
      calculateHash (hardwareConcurrency env) file (hashOptions options)
        (fileEnvironment env i)
  | None => None
  end.

Definition calculateAllHashes (files : JsInput) (options : AllHashOptions)
    (env : BatchEnvironment) : BatchOutcome :=
  match files with
  | JsNotArray =>
      {| started := [];
         running := [];
         returned := Rejected (TypeError "必须传入文件数组") |}
  | JsArray elements =>
      if existsb (fun f => negb (isFile f)) elements then
        {| started := [];
           running := [];
           returned := Rejected (TypeError "文件数组中包含非File对象") |}
      else
        let files := omap asFile elements in
        let maxConcurrency :=
          Nat.min (or_default (maxConcurrency options) 4)
                  (or_default (hardwareConcurrency env) 4) in
        let tasks :=
          foldl (limiter maxConcurrency)
            {| queue := []; active := []; dispatched := []; results := [] |}
            (seq 0 (length files)) in
        let b := foldl (complete (processFile env options files)) tasks (completions env) in
        {| started := dispatched b;
           running := active b;
           returned :=
             match mapM id (results b) with (* Promise.all *)
             | Some results => Fulfilled (zip_with toHashResult files results)
             | None => Pending
             end |}
  end.

(** ** calculateAllHashes for any number given as maxConcurrency *)

(** [x || d] on a number: [undefined], [0], [-0] and [NaN] are falsy. *)
Definition number_or (x : option spec_float) (d : spec_float) : spec_float :=
  match x with
  | Some (S754_finite s m e) => S754_finite s m e
  | Some (S754_infinity s) => S754_infinity s
  | Some (S754_zero _) | Some S754_nan | None => d
  end.

(** [Math.min(x, y)]: NaN when one of them is, and [-0] is below [0]. *)
Definition Math_min (x y : spec_float) : spec_float :=
  match SFcompare x y with
  | None => S754_nan
  | Some Gt => y
  | Some Lt => x
  | Some Eq =>
      match x, y with
      | S754_zero false, S754_zero true => y
      | _, _ => x
      end
  end.

(** [Number.isInteger(x)]. *)
Definition Number_isInteger (x : spec_float) : bool :=
  match x with
  | S754_zero _ => true
  | S754_finite _ m e => (0 <=? e) || (Z.pos m mod 2 ^ (- e) =? 0)
  | S754_infinity _ | S754_nan => false
  end.

(** The integer that a finite number holds, fractional digits dropped. *)
Definition Number_toZ (x : spec_float) : Z :=
  match x with
  | S754_finite s m e =>
      let magnitude := if 0 <=? e then Z.pos m * 2 ^ e else Z.pos m / 2 ^ (- e) in
      if s then - magnitude else magnitude
  | _ => 0
  end.

(** The argument check of [pLimit] (package p-limit):
    [(Number.isInteger(concurrency) || concurrency === Infinity) && concurrency > 0];
    when it fails [pLimit] throws a TypeError. *)
Definition validateConcurrency (concurrency : spec_float) : bool :=
  (Number_isInteger concurrency || SFeqb concurrency (S754_infinity false))
  && SFltb (S754_zero false) concurrency.

(** The slots of the limiter [pLimit(concurrency)] for [tasks] tasks. A
    limiter made with [Infinity] never makes a task wait, like one with
    more slots than there are tasks. *)
Definition slots (concurrency : spec_float) (tasks : nat) : nat :=
  match concurrency with
  | S754_infinity _ => S tasks
  | _ => Z.to_nat (Number_toZ concurrency)
  end.

(** [Math.min(options.maxConcurrency || 4, navigator.hardwareConcurrency || 4)]. *)
Definition concurrencyOf (maxConcurrencyNumber : option spec_float)
    (env : BatchEnvironment) : spec_float :=
  Math_min (number_or maxConcurrencyNumber (Number.of_nat 4))
           (Number.of_nat (or_default (hardwareConcurrency env) 4)).

(** calculateAllHashes when [options.maxConcurrency] is any number:
    [options] are the other options. After the check of the files the
    concurrency goes to [pLimit], whose TypeError is the rejection of the
    async function; when [pLimit] accepts it the batch runs as in
    [calculateAllHashes]. *)
Definition calculateAllHashes_anyNumber (files : JsInput) (options : HashOptions)
    (maxConcurrencyNumber : option spec_float) (env : BatchEnvironment)
    : BatchOutcome :=
  match files with
  | JsNotArray =>
      {| started := [];
         running := [];
         returned := Rejected (TypeError "必须传入文件数组") |}
  | JsArray elements =>
      if existsb (fun f => negb (isFile f)) elements then
        {| started := [];
           running := [];
           returned := Rejected (TypeError "文件数组中包含非File对象") |}
      else
        let files := omap asFile elements in
        let concurrency := concurrencyOf maxConcurrencyNumber env in
        if validateConcurrency concurrency then
          let runs :=
            processFile env {| hashOptions := options; maxConcurrency := None |} files in
          let tasks :=
            foldl (limiter (slots concurrency (length files)))
              {| queue := []; active := []; dispatched := []; results := [] |}
              (seq 0 (length files)) in
          let b := foldl (complete runs) tasks (completions env) in
          {| started := dispatched b;
             running := active b;
             returned :=
               match mapM id (results b) with (* Promise.all *)
               | Some results => Fulfilled (zip_with toHashResult files results)
               | None => Pending
               end |}
        else
          {| started := [];
             running := [];
             returned :=
               Rejected (TypeError "Expected `concurrency` to be a number from 1 and up") |}
  end.

(** ** Notions the specification is stated with *)

(** The bytes at offsets [lo] (included) to [hi] (excluded). *)
Definition byteRange (bytes : list byte) (lo hi : Z) : list byte :=
  take (Z.to_nat (hi - lo)) (drop (Z.to_nat lo) bytes).

(** [ceil(size / chunkSize)] on integers, for a positive [chunkSize]. *)
Definition ceilDiv (size chunkSize : Z) : Z := (size + chunkSize - 1) / chunkSize.

(** The number of chunks the specification describes. *)
Definition chunkCount (file : File) (chunkSize : Z) : nat :=
  Z.to_nat (ceilDiv (size file) chunkSize).

(** The [i]-th chunk the specification describes. *)
Definition chunkAt (file : File) (chunkSize : Z) (i : nat) : Chunk :=
  {| data :=
       byteRange (content file) (Z.of_nat i * chunkSize)
         (Z.min ((Z.of_nat i + 1) * chunkSize) (size file));
     fileId := name file |}.

(** The calls of onProgress of a complete run over [n] chunks. *)
Definition progressCalls (fileName : string) (n : nat) : list ProgressData :=
  (fun k => progressData fileName k n) <$> seq 1 n.

(** Every read succeeds. *)
Definition readable : nat -> bool := fun _ => true.

(** An array all of whose elements are files. *)
Definition validFiles (files : JsInput) : bool :=
  match files with
  | JsNotArray => false
  | JsArray elements => forallb isFile elements
  end.

(** A worker result that multiThreadHash treats as a failure: a non-empty
    error text, or no buffer. *)
Definition failedResult (e : WorkerResult) : bool :=
  truthy (error e) || negb (bool_decide (is_Some (buffer e))).

(** Every worker of the pool has been terminated. *)
Definition allTerminated (st : Runner) : Prop :=
  Forall (fun w => w = Terminated) (workers st).

(** The number of workers with a task in flight. *)
Fixpoint inFlight (ws : list Worker) : nat :=
  match ws with
  | [] => 0
  | Busy _ :: ws' => S (inFlight ws')
  | _ :: ws' => inFlight ws'
  end.

(** What holds of the runner of multiThreadHash after any events: one call
    of onProgress per folded buffer, counted from 1; every folded buffer and
    every task in flight was dispatched, and no more chunks are dispatched
    than there are; a settled promise means a terminated pool; a digest is
    resolved only when every chunk has been folded, and it is the digest of
    what was folded. *)
Record runnerInvariant (chunks : list Chunk) (fileName : string) (st : Runner)
    : Prop := {
  inv_calls :
    calls st
    = (fun k => progressData fileName k (length chunks)) <$> seq 1 (processedChunks st);
  inv_count :
    (processedChunks st + inFlight (workers st) <= currentIndex st
     /\ currentIndex st <= length chunks)%nat;
  inv_settled : promise st <> Pending -> allTerminated st;
  inv_fulfilled :
    forall digest, promise st = Fulfilled digest ->
      processedChunks st = length chunks /\ digest = SparkMD5_end (spark st)
}.

(** What holds of the runner when the pool has a single worker: while the
    promise is pending the worker holds the chunk after the ones folded, and
    what is folded is the chunks so far, in index order. *)
Definition soloInvariant (chunks : list Chunk) (st : Runner) : Prop :=
  (promise st = Pending ->
     exists chunk,
       chunks !! processedChunks st = Some chunk
       /\ workers st
          = [Busy {| task_index := processedChunks st; task_chunk := chunk |}]
       /\ currentIndex st = S (processedChunks st)
       /\ spark st = concat (data <$> take (processedChunks st) chunks))
  /\ (forall digest, promise st = Fulfilled digest ->
        spark st = concat (data <$> chunks)
        /\ digest = MD5.hex (concat (data <$> chunks))).

(** What holds of the task promises of a batch at any time: there is one
    per file, and a settled one holds what the body of that very task
    returned. *)
Definition batchInvariant (runs : nat -> option Observed) (n : nat) (b : Batch)
    : Prop :=
  length (results b) = n
  /\ forall i r, results b !! i = Some (Some r) -> taskBody (runs i) = Some r.

(** Every task is waiting, running or settled, and tasks wait only while
    others run. *)
Definition batchProgress (n : nat) (b : Batch) : Prop :=
  (forall i, (i < n)%nat ->
     i ∈ queue b \/ i ∈ active b \/ exists r, results b !! i = Some (Some r))
  /\ (queue b <> [] -> active b <> []).

(** The entry of the resolved list that the specification describes for a
    file whose hashing went as [run]: the digest and no error when it
    resolved, hash null and the error when it rejected. *)
Definition entryOf (file : File) (run : option Observed)
    (entry : option HashResult) : Prop :=
  match run with
  | Some o =>
      match settled o with
      | Fulfilled digest =>
          entry = Some {| result_name := name file;
                          hash := Some digest;
                          result_error := None |}
      | Rejected reason =>
          entry = Some {| result_name := name file;
                          hash := None;
                          result_error := Some reason |}
      | Pending => False
      end
  | None => False
  end.

(** ** Sample inputs *)

Definition file_ab : File := {| name := "f"; content := bytes_of "ab" |}.

Definition chunk_a : Chunk := {| data := bytes_of "a"; fileId := "f" |}.
Definition chunk_b : Chunk := {| data := bytes_of "b"; fileId := "f" |}.
Definition chunk_empty : Chunk := {| data := []; fileId := "f" |}.

(** Both workers succeed; the second one answers first. *)
Definition second_first : list Event := [Arrival 1 FetchOk; Arrival 0 FetchOk].

(** A batch of three files of which the second is hashed by workers and one
    of its fetches fails; the tasks return in the order 2, 0, 1. *)
Definition batch_files : JsInput :=
  JsArray [ JsFile {| name := "one"; content := bytes_of "ab" |};
            JsFile {| name := "two"; content := bytes_of "abcd" |};
            JsFile {| name := "three"; content := bytes_of "a" |} ].

Definition batch_options : AllHashOptions :=
  {| hashOptions := {| chunkSize := Some 2; useWorkerThreshold := Some 3 |};
     maxConcurrency := None |}.

Definition batch_environment : BatchEnvironment :=
  {| hardwareConcurrency := None;
     fileEnvironment := fun _ =>
       {| reads := readable; arrivals := [Arrival 0 (FetchFails "boom")] |};
     completions := [2; 0; 1]%nat |}.

(** ** Further notions about the runners *)

(** The chunk indices of the tasks in flight. *)
Fixpoint inFlightIndices (ws : list Worker) : list nat :=
  match ws with
  | [] => []
  | Busy task :: ws' => task_index task :: inFlightIndices ws'
  | _ :: ws' => inFlightIndices ws'
  end.

(** The chunk at an index, the empty chunk outside the list. *)
Definition chunkOf (chunks : list Chunk) (i : nat) : Chunk :=
  default {| data := []; fileId := "" |} (chunks !! i).

(** A task in flight carries the chunk of its index. *)
Definition tasksConsistent (chunks : list Chunk) (st : Runner) : Prop :=
  forall w task, workers st !! w = Some (Busy task) ->
    chunks !! task_index task = Some (task_chunk task).

(** While multiThreadHash has not rejected, the chunks dispatched so far are
    the ones folded (in the order [order]) and the ones in flight, each
    once. *)
Definition dispatchInvariant (chunks : list Chunk) (st : Runner) : Prop :=
  tasksConsistent chunks st
  /\ ((forall reason, promise st <> Rejected reason) ->
      exists order : list nat,
        order ++ inFlightIndices (workers st) ≡ₚ seq 0 (currentIndex st)
        /\ spark st = concat (data <$> (chunkOf chunks <$> order))
        /\ length order = processedChunks st).

(** While the promise is pending every dispatched chunk is folded or in
    flight; with chunks to hash, some task is in flight and not every chunk
    is folded; and a rejected run has not folded every chunk. *)
Definition liveInvariant (chunks : list Chunk) (st : Runner) : Prop :=
  (promise st = Pending ->
     (processedChunks st + inFlight (workers st) = currentIndex st)%nat
     /\ (chunks <> [] ->
         (0 < inFlight (workers st))%nat
         /\ (processedChunks st < length chunks)%nat))
  /\ (forall reason, promise st = Rejected reason -> chunks <> [] ->
        (processedChunks st < length chunks)%nat).

(** The event of a fetch that succeeds. *)
Definition isSuccess (ev : Event) : bool :=
  match ev with
  | Arrival _ FetchOk => true
  | _ => false
  end.

(** ** Further notions about the batch scheduler *)

(** While the tasks are being submitted to the limiter: the tasks started
    are the ones running, started and waiting tasks are the submitted ones
    in submission order, and a task waits only when every slot is taken. *)
Definition submissionInvariant (concurrency m : nat) (b : Batch) : Prop :=
  active b = dispatched b
  /\ dispatched b ++ queue b = seq 0 m
  /\ (length (active b) <= concurrency)%nat
  /\ (queue b <> [] -> (concurrency <= length (active b))%nat).

(** While the tasks run: started and waiting tasks are all tasks in
    submission order, no more tasks run than there are slots, the first
    slots were filled at once, and a running task was started. *)
Definition admissionInvariant (concurrency n : nat) (b : Batch) : Prop :=
  dispatched b ++ queue b = seq 0 n
  /\ (length (active b) <= concurrency)%nat
  /\ (Nat.min concurrency n <= length (dispatched b))%nat
  /\ (forall i, i ∈ active b -> i ∈ dispatched b).

(** The environment [env] with the returns [more] added at the end. *)
Definition thenReturn (env : BatchEnvironment) (more : list nat) : BatchEnvironment :=
  {| hardwareConcurrency := hardwareConcurrency env;
     fileEnvironment := fileEnvironment env;
     completions := completions env ++ more |}.

(** ** calculateAllHashes: the progress callbacks *)

(** The double nearest to an integer. *)
Definition numberOfZ (z : Z) : spec_float :=
  binary_normalize Number.prec Number.emax z 0 false.

(** [Math.ceil(a / b)] on integers, for [b] other than zero (exact for
    operands below 2^53). *)
Definition Math_ceil_div (a b : Z) : Z := - ((- a) / b).

(** [options.chunkSize || 10 * 1024 * 1024]: [undefined] and [0] are
    falsy. *)
Definition chunkSizeOrDefault (options : AllHashOptions) : Z :=
  match chunkSize (hashOptions options) with
  | None | Some 0 => 10 * 1024 * 1024
  | Some chunkSize => chunkSize
  end.

(** [totalChunks], the [reduce] over the files. *)
Definition totalChunks (files : list File) (options : AllHashOptions) : Z :=
  foldl (fun sum file => sum + Math_ceil_div (size file) (chunkSizeOrDefault options))
    0 files.

(** The argument of onTotalProgress. *)
Record TotalProgress := {
  total_current : Z;
  total_total : Z;
  total_percent : option string
}.

(** The variables of calculateAllHashes that follow the progress, and the
    calls of onFileProgress (with the [file] field) and onTotalProgress,
    oldest first. *)
Record Aggregate := {
  progressMap : gmap string nat;
  totalProcessedChunks : Z;
  onFileProgressCalls : list (ProgressData * string);
  onTotalProgressCalls : list TotalProgress
}.

(** The onProgress callback that [processFile] passes to calculateHash. *)
Definition processFile_onProgress (totalChunks : Z) (file : File)
    (progress : ProgressData) (st : Aggregate) : Aggregate :=
  let prev := default 0%nat (progressMap st !! name file) in
  let progressMap' := <[name file := current progress]> (progressMap st) in
  let totalProcessedChunks' :=
    totalProcessedChunks st + (Z.of_nat (current progress) - Z.of_nat prev) in
  {| progressMap := progressMap';
     totalProcessedChunks := totalProcessedChunks';
     onFileProgressCalls := onFileProgressCalls st ++ [(progress, name file)];
     onTotalProgressCalls :=
       onTotalProgressCalls st
       ++ [ {| total_current := totalProcessedChunks';
               total_total := totalChunks;
               total_percent :=
                 Number.toFixed1
                   (Number.mul
                      (Number.div (numberOfZ totalProcessedChunks')
                                  (numberOfZ totalChunks))
                      (Number.of_nat 100)) |} ] |}.

(** The progress of a batch: the variables and calls above, and for each
    file (by position) how many of its reports have been made. *)
Record Reporting := {
  aggregate : Aggregate;
  reported : gmap nat nat
}.

(** The hashing of file [i] makes its next call of onProgress, if it has
    one left. *)
Definition report (files : list File) (runs : nat -> option Observed)
    (totalChunks : Z) (st : Reporting) (i : nat) : Reporting :=
  match files !! i, runs i with
  | Some file, Some o =>
      let k := default 0%nat (reported st !! i) in
      match onProgressCalls o !! k with
      | Some progress =>
          {| aggregate := processFile_onProgress totalChunks file progress (aggregate st);
             reported := <[i := S k]> (reported st) |}
      | None => st
      end
  | _, _ => st
  end.

(** The progress of calculateAllHashes on [files] when the reports of the
    files are made in the order [order] (a list of file positions). *)
Definition batchReports (files : list File) (options : AllHashOptions)
    (env : BatchEnvironment) (order : list nat) : Reporting :=
  foldl (report files (processFile env options files) (totalChunks files options))
    {| aggregate :=
         {| progressMap := ∅;
            totalProcessedChunks := 0;
            onFileProgressCalls := [];
            onTotalProgressCalls := [] |};
       reported := ∅ |}
    order.

(** The sum of the counts in the progress map. *)
Definition progressSum (m : gmap string nat) : Z :=
  map_fold (fun _ count sum => Z.of_nat count + sum) 0 m.

(** What holds of the progress of a batch whose files have different names:
    the entry of a file in the map is the number of its reports made, the
    global count is the number of all reports made, and the calls of
    onTotalProgress are numbered from 1. *)
Definition reportingInvariant (files : list File) (total : Z) (st : Reporting)
    : Prop :=
  (forall i file, files !! i = Some file ->
     default 0%nat (progressMap (aggregate st) !! name file)
     = default 0%nat (reported st !! i))
  /\ totalProcessedChunks (aggregate st)
     = Z.of_nat (length (onTotalProgressCalls (aggregate st)))
  /\ total_current <$> onTotalProgressCalls (aggregate st)
     = Z.of_nat <$> seq 1 (length (onTotalProgressCalls (aggregate st)))
  /\ Forall (fun c => total_total c = total) (onTotalProgressCalls (aggregate st))
  /\ length (onFileProgressCalls (aggregate st))
     = length (onTotalProgressCalls (aggregate st))
  /\ Forall (fun c => progress_name (fst c) = Some (snd c))
       (onFileProgressCalls (aggregate st)).

(** The progress map that the calls of onFileProgress made so far leave
    behind: under each file name the count of the latest call. *)
Definition replay (fileCalls : list (ProgressData * string)) : gmap string nat :=
  foldl (fun m c => <[snd c := current (fst c)]> m) ∅ fileCalls.

(** The percent field of a call of onTotalProgress. *)
Definition totalPercent (c : TotalProgress) : option string :=
  Number.toFixed1
    (Number.mul (Number.div (numberOfZ (total_current c)) (numberOfZ (total_total c)))
                (Number.of_nat 100)).

(** What holds of the progress of any batch: the global count is the sum of
    the map, the map is what the calls of onFileProgress leave behind, and
    every call of onTotalProgress has its percent computed from its
    count and the precomputed total. *)
Definition aggregateInvariant (total : Z) (agg : Aggregate) : Prop :=
  totalProcessedChunks agg = progressSum (progressMap agg)
  /\ progressMap agg = replay (onFileProgressCalls agg)
  /\ Forall (fun c => total_total c = total /\ total_percent c = totalPercent c)
       (onTotalProgressCalls agg)
  /\ (forall c, last (onTotalProgressCalls agg) = Some c ->
        total_current c = totalProcessedChunks agg).

(** The number of reports made by the files at the positions below [n]. *)
Definition reportedSum (m : gmap nat nat) (n : nat) : nat :=
  sum_list ((fun i => default 0%nat (m !! i)) <$> seq 0 n).

(** The number of chunks of the file at position [i]. *)
Definition chunkCountAt (files : list File) (chunkSize : Z) (i : nat) : nat :=
  match files !! i with
  | Some file => chunkCount file chunkSize
  | None => 0
  end.

(** The number of reports that the hashing of the file at position [i]
    makes in all. *)
Definition reportLimit (files : list File) (runs : nat -> option Observed)
    (i : nat) : nat :=
  match files !! i, runs i with
  | Some _, Some o => length (onProgressCalls o)
  | _, _ => 0
  end.

(** The reports made are counted file by file, and no file has made more
    reports than its hashing makes. *)
Definition countingInvariant (files : list File) (runs : nat -> option Observed)
    (st : Reporting) : Prop :=
  length (onTotalProgressCalls (aggregate st))
  = reportedSum (reported st) (length files)
  /\ forall i, (default 0%nat (reported st !! i) <= reportLimit files runs i)%nat.

(** ** Further sample inputs *)

(** A file of no bytes. *)
Definition file_empty : File := {| name := "e"; content := [] |}.

(** Only the read of the first chunk succeeds. *)
Definition first_only : nat -> bool := fun i => Nat.eqb i 0.

(** Chunks of one byte, hashed by workers past one byte. *)
Definition options_workers : HashOptions :=
  {| chunkSize := Some 1; useWorkerThreshold := Some 2 |}.

(** Chunks of one byte, hashed sequentially up to two bytes. *)
Definition options_sequential : HashOptions :=
  {| chunkSize := Some 1; useWorkerThreshold := Some 3 |}.

(** The files of [batch_files]. *)
Definition batch_elements : list JsValue :=
  [ JsFile {| name := "one"; content := bytes_of "ab" |};
    JsFile {| name := "two"; content := bytes_of "abcd" |};
    JsFile {| name := "three"; content := bytes_of "a" |} ].

Definition three_files : list File :=
  [ {| name := "one"; content := bytes_of "ab" |};
    {| name := "two"; content := bytes_of "abcd" |};
    {| name := "three"; content := bytes_of "a" |} ].

(** The files report in turn, the third one first. *)
Definition report_order : list nat := [2; 0; 1; 1; 0]%nat.

(** The numbers -1 and 1.5. *)
Definition minus_one : spec_float := SFopp (Number.of_nat 1).
Definition one_and_a_half : spec_float :=
  Number.div (Number.of_nat 3) (Number.of_nat 2).

(** The call of onProgress for the second chunk throws. *)
Definition throws_at_second (progress : ProgressData) : option Error :=
  if Nat.eqb (current progress) 2 then Some (JsError "cb boom") else None.

(** A batch whose second file is read sequentially and cannot be read. *)
Definition unreadable_second : BatchEnvironment :=
  {| hardwareConcurrency := None;
     fileEnvironment := fun i =>
       {| reads := fun _ => negb (Nat.eqb i 1); arrivals := [] |};
     completions := [0; 1; 2]%nat |}.

(** The batch of [batch_environment] before any task has returned. *)
Definition batch_begun : BatchEnvironment :=
  {| hardwareConcurrency := None;
     fileEnvironment := fun _ =>
       {| reads := readable; arrivals := [Arrival 0 (FetchFails "boom")] |};
     completions := [] |}.

(** * Properties *)

(** ** MD5: the RFC 1321 test suite *)

Example md5_empty : MD5.hex [] = "d41d8cd98f00b204e9800998ecf8427e"%string.
Proof. vm_compute. reflexivity. Qed.

Example md5_a : MD5.hex (bytes_of "a") = "0cc175b9c0f1b6a831c399e269772661"%string.
Proof. vm_compute. reflexivity. Qed.

Example md5_abc : MD5.hex (bytes_of "abc") = "900150983cd24fb0d6963f7d28e17f72"%string.
Proof. vm_compute. reflexivity. Qed.

Example md5_message_digest :
  MD5.hex (bytes_of "message digest") = "f96b697d7cb7938d525a2f31aaf161d0"%string.
Proof. vm_compute. reflexivity. Qed.

Example md5_alphabet :
  MD5.hex (bytes_of "abcdefghijklmnopqrstuvwxyz")
  = "c3fcd3d76192e4007dfb496cca67e13b"%string.
Proof. vm_compute. reflexivity. Qed.

Example md5_two_blocks :
  MD5.hex (bytes_of
    "12345678901234567890123456789012345678901234567890123456789012345678901234567890")
  = "57edf4a22be3c955ac49da2e2107b67a"%string.
Proof. vm_compute. reflexivity. Qed.

(** ** Floating point: [n / n * 100] prints as 100.0 *)

Section Binary64.

Lemma digits2_pos_iter (p k : positive) :
  digits2_pos (Pos.iter xO p k) = (digits2_pos p + k)%positive.
Proof.
  induction k as [|k IH] using Pos.peano_ind.
  - simpl. lia.
  - rewrite Pos.iter_succ. simpl. rewrite IH. lia.
Qed.

Lemma digits2_pos_lower (p : positive) :
  2 ^ (Z.pos (digits2_pos p) - 1) <= Z.pos p.
Proof.
  induction p as [p IH|p IH|]; cbn [digits2_pos]; rewrite ?Pos2Z.inj_succ.
  - replace (Z.succ (Z.pos (digits2_pos p)) - 1)
      with (Z.succ (Z.pos (digits2_pos p) - 1)) by lia.
    rewrite Z.pow_succ_r by lia. lia.
  - replace (Z.succ (Z.pos (digits2_pos p)) - 1)
      with (Z.succ (Z.pos (digits2_pos p) - 1)) by lia.
    rewrite Z.pow_succ_r by lia. lia.
  - simpl. lia.
Qed.

(** A mantissa of 53 bits with an exponent in range is already rounded. *)
Lemma binary_round_aux_canonical (mz : positive) (ez : Z) :
  digits2_pos mz = 53%positive -> -1074 <= ez <= 971 ->
  binary_round_aux 53 1024 false (Z.pos mz) ez loc_Exact = S754_finite false mz ez.
Proof.
  intros Hd He.
  assert (Hs : shr_fexp 53 1024 (Z.pos mz) ez loc_Exact
               = ({| shr_m := Z.pos mz; shr_r := false; shr_s := false |}, ez)).
  { unfold shr_fexp, Zdigits2. rewrite Hd. unfold fexp, emin.
    replace (Z.max (53 + ez - 53) (3 - 1024 - 53) - ez) with 0 by lia.
    reflexivity. }
  unfold binary_round_aux. rewrite Hs.
  cbn [shr_m loc_of_shr_record round_nearest_even].
  rewrite Hs. cbn [shr_m].
  destruct (Z.leb_spec ez (1024 - 53)); [reflexivity | lia].
Qed.

(** A positive integer below 2^53 is a finite positive double. *)
Lemma of_nat_finite (n : nat) :
  (0 < n)%nat -> Z.of_nat n < 2 ^ 53 ->
  exists m e, Number.of_nat n = S754_finite false m e.
Proof.
  intros Hn Hlt. unfold Number.of_nat, Number.prec, Number.emax.
  destruct (Z.of_nat n) as [|p|p] eqn:Hp; try lia.
  assert (Hd : Z.pos (digits2_pos p) <= 53).
  { pose proof (digits2_pos_lower p) as Hl.
    destruct (Z_le_gt_dec (Z.pos (digits2_pos p)) 53) as [|Hgt]; [assumption|].
    assert (2 ^ 53 <= 2 ^ (Z.pos (digits2_pos p) - 1))
      by (apply Z.pow_le_mono_r; lia).
    lia. }
  unfold binary_normalize, binary_round, shl_align, fexp, emin.
  replace (Z.max (Z.pos (digits2_pos p) + 0 - 53) (3 - 1024 - 53) - 0)
    with (Z.pos (digits2_pos p) - 53) by lia.
  replace (Z.max (Z.pos (digits2_pos p) + 0 - 53) (3 - 1024 - 53))
    with (Z.pos (digits2_pos p) - 53) by lia.
  destruct (Z.pos (digits2_pos p) - 53) as [|k|k] eqn:Hk; try lia.
  - eexists _, _. apply binary_round_aux_canonical; lia.
  - eexists _, _. apply binary_round_aux_canonical; [|lia].
    rewrite digits2_pos_iter. lia.
Qed.

(** Division is correctly rounded: a finite double divided by itself is
    exactly 1. *)
Lemma div_self (s : bool) (m : positive) (e : Z) :
  Number.div (S754_finite s m e) (S754_finite s m e)
  = S754_finite false 4503599627370496 (-52).
Proof.
  unfold Number.div, Number.prec, Number.emax, SFdiv, SFdiv_core_binary.
  replace (Zdigits2 (Z.pos m) + e - (Zdigits2 (Z.pos m) + e)) with 0 by lia.
  replace (e - e) with 0 by lia.
  change (Z.min (fexp 53 1024 0) 0) with (-53).
  change (0 - -53) with 53.
  cbv iota beta.
  rewrite Z.shiftl_mul_pow2 by lia.
  assert (H : Z.div_eucl (Z.pos m * 2 ^ 53) (Z.pos m) = (2 ^ 53, 0)).
  { pose proof (Z.div_mul (2 ^ 53) (Z.pos m) ltac:(lia)) as H1.
    pose proof (Z.mod_mul (2 ^ 53) (Z.pos m) ltac:(lia)) as H2.
    rewrite (Z.mul_comm (Z.pos m)).
    unfold Z.div, Z.modulo in H1, H2.
    destruct (Z.div_eucl (2 ^ 53 * Z.pos m) (Z.pos m)) as [q r].
    congruence. }
  rewrite H.
  assert (Hl : new_location (Z.pos m) 0 = loc_Exact).
  { unfold new_location. destruct (Z.even (Z.pos m)); reflexivity. }
  rewrite Hl. destruct s; vm_compute; reflexivity.
Qed.

Lemma percentOf_complete (n : nat) :
  (0 < n)%nat -> Z.of_nat n < 2 ^ 53 -> percentOf n n = Some "100.0"%string.
Proof.
  intros Hn Hlt. unfold percentOf.
  destruct (of_nat_finite n Hn Hlt) as (m & e & ->).
  rewrite div_self. vm_compute. reflexivity.
Qed.

End Binary64.

Example percentOf_third : percentOf 1 3 = Some "33.3"%string.
Proof. vm_compute. reflexivity. Qed.

Example percentOf_two_thirds : percentOf 2 3 = Some "66.7"%string.
Proof. vm_compute. reflexivity. Qed.

(** ** createChunks *)

Section CreateChunks.

Variable file : File.
Variable chunkSize : Z.
Hypothesis chunkSize_pos : 0 < chunkSize.

Local Abbreviation n := (chunkCount file chunkSize).

Lemma size_nonneg : 0 <= size file.
Proof. unfold size. lia. Qed.

(** [ceilDiv] is the least number of chunks that cover the file. *)
Lemma ceilDiv_bounds :
  0 <= ceilDiv (size file) chunkSize
  /\ size file <= ceilDiv (size file) chunkSize * chunkSize
  /\ (ceilDiv (size file) chunkSize - 1) * chunkSize < size file.
Proof.
  pose proof size_nonneg as Hs. unfold ceilDiv.
  pose proof (Z.div_mod (size file + chunkSize - 1) chunkSize ltac:(lia)) as Hdm.
  pose proof (Z.mod_pos_bound (size file + chunkSize - 1) chunkSize ltac:(lia)) as Hm.
  nia.
Qed.

Lemma ceilDiv_to_nat : Z.of_nat n = ceilDiv (size file) chunkSize.
Proof.
  unfold chunkCount. destruct ceilDiv_bounds as (H & _). lia.
Qed.

Lemma ceilDiv_covers : size file <= Z.of_nat n * chunkSize.
Proof.
  rewrite ceilDiv_to_nat. apply ceilDiv_bounds.
Qed.

Lemma ceilDiv_least (j : nat) : (j < n)%nat -> Z.of_nat j * chunkSize < size file.
Proof.
  intros Hj. pose proof ceilDiv_to_nat as Hn.
  destruct ceilDiv_bounds as (_ & _ & H). nia.
Qed.

(** Inside the blob, [slice] is the plain byte range. *)
Lemma slice_byteRange (bytes : list byte) (lo hi : Z) :
  0 <= lo <= hi -> hi <= Z.of_nat (length bytes) ->
  slice bytes lo hi = byteRange bytes lo hi.
Proof.
  intros Hlo Hhi. unfold slice, byteRange.
  destruct (Z.ltb_spec lo 0); [lia|].
  destruct (Z.ltb_spec hi 0); [lia|].
  rewrite (Z.min_l lo), (Z.min_l hi), Z.max_l by lia. reflexivity.
Qed.

(** The loop entered at iteration [j] with enough fuel appends the chunks
    [j], ..., [n - 1] and returns. *)
Lemma createChunks_loop_spec (d : nat) :
  forall (j fuel : nat) (acc : list Chunk),
    (j + d = n)%nat -> (d < fuel)%nat ->
    createChunks_loop fuel file chunkSize (Z.of_nat j * chunkSize) acc
    = Some (acc ++ (chunkAt file chunkSize <$> seq j d)).
Proof.
  induction d as [|d IH]; intros j fuel acc Hj Hfuel.
  - destruct fuel as [|fuel]; [lia|]. simpl.
    pose proof ceilDiv_covers as Hc.
    destruct (Z.ltb_spec (Z.of_nat j * chunkSize) (size file)) as [Hlt|_].
    + replace j with n in Hlt by lia. lia.
    + rewrite app_nil_r. reflexivity.
  - destruct fuel as [|fuel]; [lia|]. cbn [createChunks_loop].
    pose proof (ceilDiv_least j ltac:(lia)) as Hlt.
    destruct (Z.ltb_spec (Z.of_nat j * chunkSize) (size file)) as [_|Hge]; [|lia].
    replace (Z.of_nat j * chunkSize + chunkSize)
      with (Z.of_nat (S j) * chunkSize) by lia.
    rewrite (IH (S j) fuel) by lia.
    rewrite <- app_assoc. cbn [seq fmap list_fmap app]. do 3 f_equal.
    unfold chunkAt. f_equal.
    replace ((Z.of_nat j + 1) * chunkSize) with (Z.of_nat (S j) * chunkSize) by lia.
    apply slice_byteRange; fold (size file); lia.
Qed.

Lemma createChunks_fuel_enough (fuel : nat) :
  (n < fuel)%nat ->
  createChunks_fuel fuel file chunkSize = Some (chunkAt file chunkSize <$> seq 0 n).
Proof.
  intros Hfuel. unfold createChunks_fuel.
  apply (createChunks_loop_spec n 0 fuel []); lia.
Qed.

Lemma chunk_count_le_size : (n <= length (content file))%nat.
Proof.
  pose proof ceilDiv_to_nat as Hn.
  destruct ceilDiv_bounds as (_ & _ & H). rewrite <- Hn in H.
  unfold size in H. nia.
Qed.

(** The first [m] chunks put end to end are a prefix of the file. *)
Lemma concat_chunkAt (m : nat) :
  concat (data <$> (chunkAt file chunkSize <$> seq 0 m))
  = take (Z.to_nat (Z.min (Z.of_nat m * chunkSize) (size file))) (content file).
Proof.
  induction m as [|m IH].
  - rewrite Z.mul_0_l. pose proof size_nonneg. rewrite Z.min_l by lia. reflexivity.
  - rewrite seq_S, !fmap_app, concat_app, IH. cbn [fmap list_fmap concat Nat.add].
    rewrite app_nil_r. unfold chunkAt, byteRange. cbn [data].
    replace ((Z.of_nat m + 1) * chunkSize) with (Z.of_nat (S m) * chunkSize) by lia.
    pose proof size_nonneg as Hs.
    destruct (Z_lt_le_dec (Z.of_nat m * chunkSize) (size file)) as [Hlt|Hge].
    + rewrite (Z.min_l (Z.of_nat m * chunkSize)) by lia.
      rewrite take_take_drop. f_equal. lia.
    + rewrite !Z.min_r by lia.
      replace (Z.to_nat (size file - Z.of_nat m * chunkSize)) with 0%nat by lia.
      rewrite take_0, app_nil_r. reflexivity.
Qed.

Lemma concat_chunks :
  concat (data <$> (chunkAt file chunkSize <$> seq 0 n)) = content file.
Proof.
  rewrite concat_chunkAt. pose proof ceilDiv_covers as Hc.
  rewrite Z.min_r by lia. unfold size. rewrite Nat2Z.id.
  apply firstn_all.
Qed.

End CreateChunks.

(** With a chunk size that is not positive the loop variable never reaches
    the size of a non-empty file: the loop does not end. *)
Lemma createChunks_diverges (file : File) (chunkSize : Z) (fuel : nat) :
  chunkSize <= 0 -> 0 < size file ->
  createChunks_fuel fuel file chunkSize = None.
Proof.
  intros Hc Hs. unfold createChunks_fuel.
  assert (H : forall i acc, i <= 0 ->
            createChunks_loop fuel file chunkSize i acc = None).
  { induction fuel as [|fuel IH]; intros i acc Hi; [reflexivity|].
    cbn [createChunks_loop].
    destruct (Z.ltb_spec i (size file)); [|lia].
    apply IH. lia. }
  apply H. lia.
Qed.

(** C3. For a positive chunk size, createChunks returns (with any fuel above
    the file size, hence always) exactly ceil(size / chunkSize) chunks, none
    for an empty file; the chunks put end to end are the bytes of the file;
    and chunk [i] holds the bytes from [i * chunkSize] to
    [min ((i + 1) * chunkSize, size)], tagged with the file's name. *)
Theorem createChunks_correct (file : File) (chunkSize : Z) :
  0 < chunkSize ->
  exists chunks : list Chunk,
    createChunks file chunkSize = Some chunks
    /\ (forall fuel, (length (content file) < fuel)%nat ->
          createChunks_fuel fuel file chunkSize = Some chunks)
    /\ Z.of_nat (length chunks) = ceilDiv (size file) chunkSize
    /\ (size file <= Z.of_nat (length chunks) * chunkSize
          < size file + chunkSize)
    /\ (size file = 0 -> chunks = [])
    /\ concat (data <$> chunks) = content file
    /\ (forall i : nat, (i < length chunks)%nat ->
          chunks !! i
          = Some {| data :=
                      byteRange (content file) (Z.of_nat i * chunkSize)
                        (Z.min ((Z.of_nat i + 1) * chunkSize) (size file));
                    fileId := name file |}).
Proof.
  intros Hpos.
  pose proof (chunk_count_le_size file chunkSize Hpos) as Hle.
  pose proof (ceilDiv_to_nat file chunkSize Hpos) as Hn.
  set (n := chunkCount file chunkSize) in *.
  exists (chunkAt file chunkSize <$> seq 0 n).
  assert (Hlen : length (chunkAt file chunkSize <$> seq 0 n) = n)
    by (rewrite length_fmap, length_seq; reflexivity).
  repeat split.
  - apply createChunks_fuel_enough; [assumption | lia].
  - intros fuel Hfuel. apply createChunks_fuel_enough; [assumption | lia].
  - rewrite Hlen. exact Hn.
  - rewrite Hlen. apply ceilDiv_covers; assumption.
  - rewrite Hlen, Hn.
    destruct (ceilDiv_bounds file chunkSize Hpos) as (_ & _ & H). lia.
  - intros H0. assert (n = 0%nat) as ->; [|reflexivity].
    destruct (ceilDiv_bounds file chunkSize Hpos) as (_ & _ & H).
    rewrite <- Hn in H. nia.
  - apply concat_chunks; assumption.
  - intros i Hi. rewrite Hlen in Hi.
    rewrite list_lookup_fmap, lookup_seq_lt by assumption. reflexivity.
Qed.

(** ** multiThreadHash: the runner under any order of events *)

Section Runner.

Variable chunks : list Chunk.
Variable fileName : string.

Lemma foldl_invariant {A B} (P : A -> Prop) (f : A -> B -> A) (l : list B) :
  (forall a b, P a -> P (f a b)) -> forall a, P a -> P (foldl f a l).
Proof.
  intros Hstep. induction l as [|b l IH]; intros a Ha; simpl; auto.
Qed.

Lemma terminateAll_allTerminated (st : Runner) : allTerminated (terminateAll st).
Proof.
  unfold allTerminated, terminateAll. cbn [workers].
  apply Forall_fmap, Forall_true. reflexivity.
Qed.

Lemma inFlight_terminated (ws : list Worker) :
  inFlight ((fun _ => Terminated) <$> ws) = 0%nat.
Proof. induction ws as [|w ws IH]; [reflexivity | exact IH]. Qed.

Lemma inFlight_snoc (ws : list Worker) (w : Worker) :
  inFlight (ws ++ [w]) = (inFlight ws + inFlight [w])%nat.
Proof.
  induction ws as [|[|t|] ws IH]; cbn [app inFlight]; rewrite ?IH;
    destruct w; cbn [inFlight]; lia.
Qed.

(** Replacing a worker that has a task in flight. *)
Lemma inFlight_insert (ws : list Worker) (i : nat) (task : WorkerTask) (w : Worker) :
  ws !! i = Some (Busy task) ->
  (inFlight (<[i := w]> ws) + 1 = inFlight ws + inFlight [w])%nat.
Proof.
  revert i. induction ws as [|x ws IH]; intros [|i] Hi; try discriminate.
  - cbn in Hi. injection Hi as ->. simpl.
    destruct w; simpl; lia.
  - cbn in Hi. specialize (IH i Hi). simpl.
    destruct x, w; simpl in *; lia.
Qed.

(** A terminated pool receives nothing. *)
Lemma deliver_terminated (st : Runner) (ev : Event) :
  allTerminated st -> deliver chunks fileName st ev = st.
Proof.
  unfold allTerminated. intros Hall.
  destruct ev as [w f|w message]; cbn [deliver];
    destruct (workers st !! w) as [x|] eqn:Hw; try reflexivity;
    rewrite (proj1 (Forall_lookup _ _) Hall w x Hw); reflexivity.
Qed.

Lemma run_terminated (st : Runner) (later : list Event) :
  allTerminated st -> foldl (deliver chunks fileName) st later = st.
Proof.
  intros Hall. induction later as [|ev later IH]; simpl; [reflexivity|].
  rewrite deliver_terminated; assumption.
Qed.

(** Rejecting from a pending runner. *)
Lemma reject_invariant (st : Runner) (reason : Error) :
  runnerInvariant chunks fileName st -> promise st = Pending ->
  runnerInvariant chunks fileName (settleWith (terminateAll st) (Rejected reason)).
Proof.
  intros [Hc [Hn Hi] _ _] Hp. split; cbn [settleWith terminateAll calls processedChunks
    promise workers spark currentIndex].
  - exact Hc.
  - rewrite inFlight_terminated. lia.
  - intros _. apply (terminateAll_allTerminated st).
  - rewrite Hp. cbn [settle]. discriminate.
Qed.

Lemma handleMessage_invariant (worker : nat) (task : WorkerTask) (e : WorkerResult)
    (st : Runner) :
  runnerInvariant chunks fileName st -> promise st = Pending ->
  workers st !! worker = Some (Busy task) ->
  runnerInvariant chunks fileName (handleMessage chunks fileName worker e st).
Proof.
  intros Hinv Hp Hbusy. unfold handleMessage.
  destruct (truthy (error e)); [apply reject_invariant; assumption|].
  destruct (buffer e) as [buf|]; [|apply reject_invariant; assumption].
  destruct Hinv as [Hc [Hn Hi] _ _].
  assert (Hcalls :
    calls st ++ [progressData fileName (S (processedChunks st)) (length chunks)]
    = (fun k => progressData fileName k (length chunks))
        <$> seq 1 (S (processedChunks st))).
  { rewrite seq_S, fmap_app, <- Hc. reflexivity. }
  assert (Hcount : forall workers' currentIndex',
    match chunks !! currentIndex st with
    | Some chunk =>
        (<[worker := Busy {| task_index := currentIndex st; task_chunk := chunk |}]>
           (workers st),
         S (currentIndex st))
    | None => (<[worker := Terminated]> (workers st), currentIndex st)
    end = (workers', currentIndex') ->
    (S (processedChunks st) + inFlight workers' <= currentIndex'
     /\ currentIndex' <= length chunks)%nat).
  { intros workers' currentIndex' Hw.
    destruct (chunks !! currentIndex st) as [chunk|] eqn:Hl;
      injection Hw as <- <-.
    - pose proof (inFlight_insert _ _ _
        (Busy {| task_index := currentIndex st; task_chunk := chunk |}) Hbusy) as H.
      cbn [inFlight] in H. apply lookup_lt_Some in Hl. lia.
    - pose proof (inFlight_insert _ _ _ Terminated Hbusy) as H.
      cbn [inFlight] in H. lia. }
  destruct (match chunks !! currentIndex st with
            | Some chunk => _
            | None => _
            end) as [workers' currentIndex'].
  specialize (Hcount workers' currentIndex' eq_refl).
  destruct (Nat.eqb_spec (S (processedChunks st)) (length chunks)) as [Heq|Hne];
    split; cbn [settleWith terminateAll calls processedChunks promise workers spark
                currentIndex];
    rewrite ?Hp; cbn [settle].
  - exact Hcalls.
  - rewrite inFlight_terminated. lia.
  - intros _. unfold allTerminated. cbn [workers].
    apply Forall_fmap, Forall_true. reflexivity.
  - intros digest [= <-]. split; [assumption | reflexivity].
  - exact Hcalls.
  - exact Hcount.
  - congruence.
  - discriminate.
Qed.

Lemma deliver_invariant (st : Runner) (ev : Event) :
  runnerInvariant chunks fileName st ->
  runnerInvariant chunks fileName (deliver chunks fileName st ev).
Proof.
  intros Hinv.
  destruct (promise st) as [|digest|reason] eqn:Hp.
  - destruct ev as [w f|w message]; cbn [deliver];
      destruct (workers st !! w) as [[|task|]|] eqn:Hw; try assumption.
    + eapply handleMessage_invariant; eassumption.
    + apply reject_invariant; assumption.
    + apply reject_invariant; assumption.
  - rewrite deliver_terminated; [assumption|].
    apply (inv_settled _ _ _ Hinv). congruence.
  - rewrite deliver_terminated; [assumption|].
    apply (inv_settled _ _ _ Hinv). congruence.
Qed.

(** An iteration of the loop that creates the workers gives the new worker
    a chunk of its own and touches nothing else. *)
Lemma spawn_fresh (st : Runner) :
  processedChunks st = 0%nat /\ spark st = [] /\ calls st = []
  /\ promise st = Pending
  /\ inFlight (workers st) = currentIndex st
  /\ (currentIndex st <= length chunks)%nat ->
  processedChunks (spawn chunks st) = 0%nat /\ spark (spawn chunks st) = []
  /\ calls (spawn chunks st) = []
  /\ promise (spawn chunks st) = Pending
  /\ inFlight (workers (spawn chunks st)) = currentIndex (spawn chunks st)
  /\ (currentIndex (spawn chunks st) <= length chunks)%nat.
Proof.
  intros (H1 & H2 & H3 & H4 & H5 & H6). unfold spawn.
  destruct (chunks !! currentIndex st) as [chunk|] eqn:Hl;
    cbn [processedChunks spark calls promise workers currentIndex];
    rewrite inFlight_snoc; cbn [inFlight]; repeat split; try assumption; try lia.
  apply lookup_lt_Some in Hl. lia.
Qed.

Lemma spawn_iter (k : nat) :
  let st := Nat.iter k (spawn chunks)
              {| workers := []; currentIndex := 0; processedChunks := 0;
                 spark := SparkMD5_new; calls := []; promise := Pending |} in
  processedChunks st = 0%nat /\ spark st = [] /\ calls st = []
  /\ promise st = Pending
  /\ inFlight (workers st) = currentIndex st
  /\ (currentIndex st <= length chunks)%nat.
Proof.
  induction k as [|k IH]; cbn [Nat.iter nat_rect].
  - cbn. repeat split. lia.
  - apply spawn_fresh. exact IH.
Qed.

Lemma start_invariant (hc : option nat) :
  runnerInvariant chunks fileName (start hc chunks).
Proof.
  unfold start.
  destruct (spawn_iter (workerCount hc chunks)) as (H1 & H2 & H3 & H4 & H5 & H6).
  split.
  - rewrite H3, H1. reflexivity.
  - rewrite H1, H5. lia.
  - rewrite H4. congruence.
  - rewrite H4. discriminate.
Qed.

Lemma multiThreadHash_invariant (hc : option nat) (events : list Event) :
  runnerInvariant chunks fileName (multiThreadHash hc chunks fileName events).
Proof.
  unfold multiThreadHash. apply foldl_invariant.
  - intros st ev. apply deliver_invariant.
  - apply start_invariant.
Qed.

(** A worker with a task in flight exists only while the promise is
    pending. *)
Lemma busy_pending (st : Runner) (w : nat) (task : WorkerTask) :
  runnerInvariant chunks fileName st ->
  workers st !! w = Some (Busy task) -> promise st = Pending.
Proof.
  intros Hinv Hw.
  destruct (promise st) eqn:Hp; [reflexivity| |];
    (assert (Hall : allTerminated st)
       by (apply (inv_settled _ _ _ Hinv); congruence);
     pose proof (proj1 (Forall_lookup _ _) Hall w _ Hw); discriminate).
Qed.

End Runner.

(** ** singleThreadHash *)

Section Sequential.

Variable reads : nat -> bool.
Variable fileName : string.
Variable length_ : nat.

(** Once the loop has resolved, every remaining chunk was read, folded and
    reported, in index order. *)
Lemma singleThreadHash_loop_fulfilled (rest : list Chunk) :
  forall (i : nat) (st : Observed) (digest : string),
    settled st = Pending ->
    settled (singleThreadHash_loop reads fileName length_ rest i st)
      = Fulfilled digest ->
    let o := singleThreadHash_loop reads fileName length_ rest i st in
    accumulated o = accumulated st ++ concat (data <$> rest)
    /\ onProgressCalls o
       = onProgressCalls st
         ++ ((fun k => progressData fileName k length_) <$> seq (S i) (length rest))
    /\ digest = SparkMD5_end (accumulated o).
Proof.
  induction rest as [|chunk rest IH]; intros i st digest Hp Hf;
    cbn [singleThreadHash_loop] in *.
  - cbn [accumulated onProgressCalls settled] in *.
    rewrite !app_nil_r. repeat split. congruence.
  - destruct (reads i); [|congruence].
    destruct (IH (S i) _ digest (eq_refl : settled (Build_Observed _ _ Pending) = Pending) Hf)
      as (Ha & Hc & Hd).
    cbn [accumulated onProgressCalls] in Ha, Hc. rewrite Ha, Hc.
    unfold SparkMD5_append. cbn [fmap list_fmap concat length seq].
    rewrite <- !app_assoc. replace (i + 1)%nat with (S i) by lia.
    repeat split. rewrite Hd, Ha. unfold SparkMD5_append.
    rewrite <- app_assoc. reflexivity.
Qed.

(** When every read succeeds the loop resolves. *)
Lemma singleThreadHash_loop_readable (rest : list Chunk) :
  (forall i, reads i = true) ->
  forall (i : nat) (st : Observed),
    exists digest,
      settled (singleThreadHash_loop reads fileName length_ rest i st)
      = Fulfilled digest.
Proof.
  intros Hr. induction rest as [|chunk rest IH]; intros i st;
    cbn [singleThreadHash_loop].
  - eexists. reflexivity.
  - rewrite Hr. apply IH.
Qed.

(** Whatever the reads do, the loop reports the next indices in order. *)
Lemma singleThreadHash_loop_prefix (rest : list Chunk) :
  forall (i : nat) (st : Observed),
    onProgressCalls st = (fun k => progressData fileName k length_) <$> seq 1 i ->
    exists k, (i <= k <= i + length rest)%nat
      /\ onProgressCalls (singleThreadHash_loop reads fileName length_ rest i st)
         = (fun k => progressData fileName k length_) <$> seq 1 k.
Proof.
  induction rest as [|chunk rest IH]; intros i st Hc; cbn [singleThreadHash_loop].
  - exists i. cbn [onProgressCalls length]. split; [lia | exact Hc].
  - destruct (reads i).
    + destruct (IH (S i)
                  {| accumulated := SparkMD5_append (accumulated st) (data chunk);
                     onProgressCalls :=
                       onProgressCalls st ++ [progressData fileName (i + 1) length_];
                     settled := Pending |}) as (k & Hk & Hk').
      { cbn [onProgressCalls]. rewrite Hc, seq_S, fmap_app.
        replace (i + 1)%nat with (1 + i)%nat by lia. reflexivity. }
      exists k. cbn [length]. split; [lia | exact Hk'].
    + exists i. cbn [length]. split; [lia | exact Hc].
Qed.

End Sequential.

Lemma singleThreadHash_fulfilled (reads : nat -> bool) (chunks : list Chunk)
    (fileName digest : string) :
  settled (singleThreadHash reads chunks fileName) = Fulfilled digest ->
  accumulated (singleThreadHash reads chunks fileName) = concat (data <$> chunks)
  /\ onProgressCalls (singleThreadHash reads chunks fileName)
     = progressCalls fileName (length chunks)
  /\ digest = MD5.hex (concat (data <$> chunks)).
Proof.
  intros Hf. unfold singleThreadHash in *.
  destruct (singleThreadHash_loop_fulfilled reads fileName (length chunks) chunks
              0 (Build_Observed SparkMD5_new [] Pending) digest eq_refl Hf)
    as (Ha & Hc & Hd).
  cbn [accumulated onProgressCalls SparkMD5_new app] in *.
  rewrite Ha in Hd. auto.
Qed.

Lemma singleThreadHash_readable (chunks : list Chunk) (fileName : string) :
  singleThreadHash readable chunks fileName
  = {| accumulated := concat (data <$> chunks);
       onProgressCalls := progressCalls fileName (length chunks);
       settled := Fulfilled (MD5.hex (concat (data <$> chunks))) |}.
Proof.
  destruct (singleThreadHash_loop_readable readable fileName (length chunks) chunks
              (fun _ => eq_refl) 0
              {| accumulated := SparkMD5_new; onProgressCalls := []; settled := Pending |})
    as (digest & Hf).
  fold (singleThreadHash readable chunks fileName) in Hf.
  destruct (singleThreadHash_fulfilled _ _ _ _ Hf) as (Ha & Hc & Hd).
  destruct (singleThreadHash readable chunks fileName) as [a c s].
  cbn [accumulated onProgressCalls settled] in *. congruence.
Qed.

(** ** The sequence of progress reports *)




(** C9. For the empty chunk list singleThreadHash resolves at once with the
    MD5 digest of the empty input, has folded nothing and has never called
    onProgress, whatever the reads would do. *)
Theorem singleThreadHash_empty (reads : nat -> bool) (fileName : string) :
  singleThreadHash reads [] fileName
  = {| accumulated := [];
       onProgressCalls := [];
       settled := Fulfilled "d41d8cd98f00b204e9800998ecf8427e"%string |}.
Proof.
  unfold singleThreadHash. cbn [singleThreadHash_loop accumulated onProgressCalls].
  unfold SparkMD5_end, SparkMD5_new. rewrite md5_empty. reflexivity.
Qed.

(** C10. For the empty chunk list multiThreadHash computes a worker count
    of zero, creates no worker and posts no task, and whatever the
    environment does afterwards the promise stays pending: nothing is
    folded, reported, resolved or rejected. *)
Theorem multiThreadHash_empty_never_settles (hc : option nat) (fileName : string)
    (events : list Event) :
  workerCount hc [] = 0%nat
  /\ multiThreadHash hc [] fileName events
     = {| workers := [];
          currentIndex := 0;
          processedChunks := 0;
          spark := [];
          calls := [];
          promise := Pending |}.
Proof.
  assert (Hw : workerCount hc [] = 0%nat).
  { unfold workerCount. cbn [length]. apply Nat.min_0_r. }
  split; [exact Hw|].
  unfold multiThreadHash, start. rewrite Hw. cbn [Nat.iter nat_rect].
  apply run_terminated. unfold allTerminated. cbn [workers]. constructor.
Qed.

(** ** The order in which multiThreadHash folds *)

(** C1. A file of the two bytes a and b, cut into chunks of one byte and
    hashed by two workers of which the second answers first: multiThreadHash
    folds b before a. The accumulator receives the buffers in the order of
    arrival, not in the order of the chunk indices, and nothing is held
    back. *)
Theorem multiThreadHash_folds_in_arrival_order :
  createChunks file_ab 1 = Some [chunk_a; chunk_b]
  /\ workers (start None [chunk_a; chunk_b])
     = [Busy {| task_index := 0; task_chunk := chunk_a |};
        Busy {| task_index := 1; task_chunk := chunk_b |}]
  /\ spark (multiThreadHash None [chunk_a; chunk_b] "f" [Arrival 1 FetchOk])
     = bytes_of "b"
  /\ spark (multiThreadHash None [chunk_a; chunk_b] "f" second_first)
     = bytes_of "ba"
  /\ concat (data <$> [chunk_a; chunk_b]) = bytes_of "ab"
  /\ spark (multiThreadHash None [chunk_a; chunk_b] "f" second_first)
     <> concat (data <$> [chunk_a; chunk_b]).
Proof.
  repeat split; try (vm_compute; reflexivity).
  vm_compute. discriminate.
Qed.

(** C2. On the same two chunks, with the second worker answering first,
    multiThreadHash resolves with the MD5 of ba while singleThreadHash
    resolves with the MD5 of ab: the two digests differ. *)
Theorem multiThreadHash_differs_from_singleThreadHash :
  promise (multiThreadHash None [chunk_a; chunk_b] "f" second_first)
  = Fulfilled "07159c47ee1b19ae4fb9c40d480856c4"%string
  /\ settled (singleThreadHash readable [chunk_a; chunk_b] "f")
     = Fulfilled "187ef4436122d1cc2f40dc2b92f0eba0"%string
  /\ promise (multiThreadHash None [chunk_a; chunk_b] "f" second_first)
     <> settled (singleThreadHash readable [chunk_a; chunk_b] "f").
Proof.
  repeat split; try (vm_compute; reflexivity).
  vm_compute. discriminate.
Qed.

(** When the workers answer in index order the two runners agree. *)
Example multiThreadHash_in_order :
  promise (multiThreadHash None [chunk_a; chunk_b] "f"
             [Arrival 0 FetchOk; Arrival 1 FetchOk])
  = settled (singleThreadHash readable [chunk_a; chunk_b] "f").
Proof. vm_compute. reflexivity. Qed.

(** *** A pool of one worker *)

Section SingleWorker.

Variable chunks : list Chunk.
Variable fileName : string.

Lemma solo_deliver (st : Runner) (ev : Event) :
  runnerInvariant chunks fileName st /\ soloInvariant chunks st ->
  runnerInvariant chunks fileName (deliver chunks fileName st ev)
  /\ soloInvariant chunks (deliver chunks fileName st ev).
Proof.
  intros [Hinv Hsolo]. split; [apply deliver_invariant; exact Hinv|].
  destruct (promise st) as [|digest|reason] eqn:Hp.
  - destruct Hsolo as [Hpend Hdone].
    destruct (Hpend Hp) as (chunk & Hchunk & Hw & Hci & Hs).
    assert (Hrej : forall reason,
              soloInvariant chunks (settleWith (terminateAll st) (Rejected reason))).
    { intros reason. split; cbn [settleWith terminateAll promise]; rewrite Hp;
        cbn [settle]; [discriminate|]. intros digest. discriminate. }
    assert (Hsame : soloInvariant chunks st) by (split; assumption).
    destruct ev as [w f|w message]; cbn [deliver]; rewrite Hw;
      (destruct w as [|w]; cbn [lookup list_lookup]; [|destruct w; exact Hsame]).
    + destruct f as [|message]; unfold handleMessage, workerCode;
        cbn [error buffer index truthy task_chunk task_index].
      * assert (Hs' : SparkMD5_append (spark st) (data chunk)
                      = concat (data <$> take (S (processedChunks st)) chunks)).
        { rewrite (take_S_r _ _ _ Hchunk), fmap_app, concat_app, <- Hs.
          cbn. rewrite app_nil_r. reflexivity. }
        rewrite Hci, Hw.
        destruct (chunks !! S (processedChunks st)) as [next|] eqn:Hnext.
        -- apply lookup_lt_Some in Hnext as Hlt.
           destruct (Nat.eqb_spec (S (processedChunks st)) (length chunks)); [lia|].
           split; cbn [promise processedChunks workers currentIndex spark];
             rewrite Hp; [|discriminate].
           intros _. exists next. cbn. auto.
        -- apply lookup_ge_None in Hnext. apply lookup_lt_Some in Hchunk as Hlt.
           destruct (Nat.eqb_spec (S (processedChunks st)) (length chunks)) as [Heq|]; [|lia].
           split; cbn [settleWith terminateAll promise spark]; rewrite Hp;
             cbn [settle]; [discriminate|].
           intros digest [= <-]. rewrite Hs', Heq, firstn_all. auto.
      * destruct message; apply Hrej.
    + apply Hrej.
  - rewrite deliver_terminated; [exact Hsolo|].
    apply (inv_settled _ _ _ Hinv). congruence.
  - rewrite deliver_terminated; [exact Hsolo|].
    apply (inv_settled _ _ _ Hinv). congruence.
Qed.

Lemma solo_start (hc : option nat) :
  workerCount hc chunks = 1%nat -> soloInvariant chunks (start hc chunks).
Proof.
  intros Hone. unfold start. rewrite Hone. cbn [Nat.iter nat_rect].
  assert (Hlen : (0 < length chunks)%nat) by (unfold workerCount in Hone; lia).
  unfold spawn. cbn [currentIndex].
  destruct (chunks !! 0%nat) as [chunk|] eqn:Hc.
  - split; cbn [promise processedChunks workers currentIndex spark]; [|discriminate].
    intros _. exists chunk. rewrite Hc. auto.
  - apply lookup_ge_None in Hc. lia.
Qed.

(** With a pool of one worker the results can only arrive in index order:
    a digest that multiThreadHash resolves is the MD5 of the chunks put end
    to end, the one singleThreadHash resolves. *)
Lemma multiThreadHash_single_worker (hc : option nat) (events : list Event)
    (digest : string) :
  workerCount hc chunks = 1%nat ->
  promise (multiThreadHash hc chunks fileName events) = Fulfilled digest ->
  spark (multiThreadHash hc chunks fileName events) = concat (data <$> chunks)
  /\ Fulfilled digest = settled (singleThreadHash readable chunks fileName).
Proof.
  intros Hone Hf.
  assert (H : runnerInvariant chunks fileName (multiThreadHash hc chunks fileName events)
              /\ soloInvariant chunks (multiThreadHash hc chunks fileName events)).
  { unfold multiThreadHash.
    apply (foldl_invariant
             (fun st => runnerInvariant chunks fileName st /\ soloInvariant chunks st)).
    - intros st ev. apply solo_deliver.
    - split; [apply start_invariant | apply solo_start; exact Hone]. }
  destruct H as [_ [_ Hdone]]. destruct (Hdone digest Hf) as [Hs ->].
  rewrite singleThreadHash_readable. auto.
Qed.

End SingleWorker.

(** ** Failing worker results *)

(** C4, as stated, fails. A worker result whose buffer is present but has
    no bytes is folded like any other: the run over one empty chunk
    resolves with a digest. And the rejection for a reported error is the
    same whichever chunk failed, so it does not tell the index. *)
Lemma empty_buffer_is_not_rejected :
  buffer (workerCode {| task_index := 0; task_chunk := chunk_empty |} FetchOk)
  = Some []
  /\ promise (multiThreadHash None [chunk_empty] "f" [Arrival 0 FetchOk])
     = Fulfilled "d41d8cd98f00b204e9800998ecf8427e"%string
  /\ promise (multiThreadHash None [chunk_a; chunk_b] "f"
                [Arrival 0 (FetchFails "boom")])
     = Rejected (JsError "分块处理错误: boom")
  /\ promise (multiThreadHash None [chunk_a; chunk_b] "f"
                [Arrival 1 (FetchFails "boom")])
     = Rejected (JsError "分块处理错误: boom").
Proof.
  repeat split; vm_compute; reflexivity.
Qed.

(** C4, amended. Whenever multiThreadHash, after any events, receives a
    result from a worker with a task in flight: if the result carries a
    non-empty error text, or has no buffer, every worker is terminated and
    the operation is rejected, with the worker's error text behind a fixed
    prefix when there is one, and otherwise with the index of the failing
    chunk behind a fixed prefix; nothing is folded or reported for that
    result, and no later event changes the runner, so no digest is ever
    resolved. Any other result, a buffer of no bytes included, is folded and
    does not reject. *)
Theorem handleMessage_rejects (hc : option nat) (chunks : list Chunk)
    (fileName : string) (events : list Event)
    (worker : nat) (task : WorkerTask) (e : WorkerResult) :
  workers (multiThreadHash hc chunks fileName events) !! worker = Some (Busy task) ->
  let st := multiThreadHash hc chunks fileName events in
  let st' := handleMessage chunks fileName worker e st in
  if failedResult e then
    allTerminated st'
    /\ promise st'
       = Rejected (JsError
           (if truthy (error e)
            then "分块处理错误: " +:+ template (error e)
            else "分块数据为空: " +:+ Number.decimal (Z.of_nat (index e))))
    /\ spark st' = spark st
    /\ calls st' = calls st
    /\ (forall later : list Event, foldl (deliver chunks fileName) st' later = st')
  else
    exists bytes,
      buffer e = Some bytes
      /\ spark st' = spark st ++ bytes
      /\ forall reason, promise st' <> Rejected reason.
Proof.
  intros Hbusy st st'. fold st in Hbusy.
  pose proof (multiThreadHash_invariant chunks fileName hc events) as Hinv.
  pose proof (busy_pending chunks fileName st worker task Hinv Hbusy) as Hp.
  unfold failedResult.
  destruct (truthy (error e)) eqn:Ht; [|destruct (buffer e) as [bytes|] eqn:Hb];
    cbn [orb negb].
  - assert (Hst' : st' = settleWith (terminateAll st)
                           (Rejected (JsError ("分块处理错误: " +:+ template (error e))))).
    { unfold st', handleMessage. rewrite Ht. reflexivity. }
    rewrite Hst'. repeat split.
    + apply (terminateAll_allTerminated st).
    + cbn [settleWith promise terminateAll]. rewrite Hp. reflexivity.
    + intros later. apply run_terminated. apply (terminateAll_allTerminated st).
  - exists bytes. split; [reflexivity|].
    unfold st', handleMessage. rewrite Ht, Hb.
    destruct (chunks !! currentIndex st);
      destruct (S (processedChunks st) =? length chunks)%nat;
      cbn [settleWith terminateAll spark promise]; rewrite ?Hp;
      (split; [reflexivity | intros reason; cbn [settle]; discriminate]).
  - assert (Hst' : st' = settleWith (terminateAll st)
                           (Rejected (JsError
                              ("分块数据为空: " +:+ Number.decimal (Z.of_nat (index e)))))).
    { unfold st', handleMessage. rewrite Ht, Hb. reflexivity. }
    rewrite Hst'. repeat split.
    + apply (terminateAll_allTerminated st).
    + cbn [settleWith promise terminateAll]. rewrite Hp. reflexivity.
    + intros later. apply run_terminated. apply (terminateAll_allTerminated st).
Qed.

(** ** calculateHash *)

(** C7. calculateHash hands the chunks to multiThreadHash when the size of
    the file is at least useWorkerThreshold and to singleThreadHash when it
    is smaller, the threshold being 10 MiB unless the options give one. A
    file of exactly the threshold goes to the workers; a file one byte
    smaller is hashed sequentially. *)
Theorem calculateHash_routing (hc : option nat) (file : File)
    (options : HashOptions) (env : Environment) :
  let threshold := default 10485760 (useWorkerThreshold options) in
  let parallel :=
    chunks ← createChunks file (default 10485760 (chunkSize options));
    Some (withProgress (progressHandler (name file))
            (observe (multiThreadHash hc chunks (name file) (arrivals env)))) in
  let sequential :=
    chunks ← createChunks file (default 10485760 (chunkSize options));
    Some (withProgress (progressHandler (name file))
            (singleThreadHash (reads env) chunks (name file))) in
  10485760 = 10 * 1024 * 1024
  /\ (threshold <= size file -> calculateHash hc file options env = parallel)
  /\ (size file < threshold -> calculateHash hc file options env = sequential)
  /\ (size file = threshold -> calculateHash hc file options env = parallel)
  /\ (size file = threshold - 1 -> calculateHash hc file options env = sequential).
Proof.
  intros threshold parallel sequential.
  assert (Hpar : threshold <= size file -> calculateHash hc file options env = parallel).
  { intros H. unfold calculateHash, parallel.
    change (10 * 1024 * 1024) with 10485760.
    unfold threshold in H. rewrite (proj2 (Z.leb_le _ _) H).
    destruct (createChunks file _); reflexivity. }
  assert (Hseq : size file < threshold -> calculateHash hc file options env = sequential).
  { intros H. unfold calculateHash, sequential.
    change (10 * 1024 * 1024) with 10485760.
    unfold threshold in H. rewrite (proj2 (Z.leb_gt _ _) H).
    destruct (createChunks file _); reflexivity. }
  repeat split; auto.
  - intros H. apply Hpar. lia.
  - intros H. apply Hseq. lia.
Qed.

(** ** calculateAllHashes *)

Section BatchScheduler.

Variable runs : nat -> option Observed.

Lemma limiter_results (concurrency : nat) (l : list nat) :
  forall b, results (foldl (limiter concurrency) b l)
            = results b ++ replicate (length l) None.
Proof.
  induction l as [|i l IH]; intros b; cbn [foldl length replicate].
  - rewrite app_nil_r. reflexivity.
  - rewrite IH. unfold limiter.
    destruct (length (active b) <? concurrency)%nat; cbn [results];
      rewrite <- app_assoc; reflexivity.
Qed.

Lemma tasks_invariant (concurrency n : nat) :
  batchInvariant runs n
    (foldl (limiter concurrency)
       {| queue := []; active := []; dispatched := []; results := [] |}
       (seq 0 n)).
Proof.
  unfold batchInvariant. rewrite limiter_results, length_seq. cbn [results app].
  split.
  - apply length_replicate.
  - intros i r Hi. apply lookup_replicate in Hi as [Hi _]. discriminate.
Qed.

Lemma finish_invariant (n task : nat) (b : Batch) (r : TaskResult) :
  batchInvariant runs n b -> taskBody (runs task) = Some r ->
  batchInvariant runs n (finish b task r).
Proof.
  intros [Hlen Hres] Hr.
  assert (H : batchInvariant runs n
                {| queue := []; active := []; dispatched := [];
                   results := <[task := Some r]> (results b) |}).
  { split; cbn [results].
    - rewrite length_insert. exact Hlen.
    - intros i r' Hi. destruct (decide (task = i)) as [->|Hne].
      + destruct (decide (i < length (results b))%nat) as [Hlt|Hge].
        * rewrite list_lookup_insert_eq in Hi by assumption. congruence.
        * rewrite list_insert_ge in Hi by lia. apply Hres. exact Hi.
      + rewrite list_lookup_insert_ne in Hi by assumption. apply Hres. exact Hi. }
  unfold finish. destruct (queue b); exact H.
Qed.

Lemma complete_invariant (n : nat) (b : Batch) (task : nat) :
  batchInvariant runs n b -> batchInvariant runs n (complete runs b task).
Proof.
  intros Hinv. unfold complete.
  destruct (decide (task ∈ active b)); [|assumption].
  destruct (taskBody (runs task)) as [r|] eqn:Hr; [|assumption].
  apply finish_invariant; assumption.
Qed.

(** When [Promise.all] resolves, its [i]-th value is what the body of task
    [i] returned. *)
Lemma all_settled (n : nat) (b : Batch) (rs : list TaskResult) :
  batchInvariant runs n b -> mapM id (results b) = Some rs ->
  length rs = n /\ forall i r, rs !! i = Some r -> taskBody (runs i) = Some r.
Proof.
  intros [Hlen Hres] Hall. apply mapM_Some in Hall.
  split.
  - rewrite <- Hlen. symmetry. eapply Forall2_length. exact Hall.
  - intros i r Hi.
    destruct (Forall2_lookup_r _ _ _ _ _ Hall Hi) as (x & Hx & Hid).
    unfold id in Hid. subst x. apply Hres. exact Hx.
Qed.

End BatchScheduler.

Lemma all_files (elements : list JsValue) :
  existsb (fun f => negb (isFile f)) elements = false ->
  elements = JsFile <$> omap asFile elements.
Proof.
  induction elements as [|[file|] elements IH]; cbn; intros H.
  - reflexivity.
  - f_equal. apply IH. exact H.
  - discriminate.
Qed.

Lemma validFiles_some (elements : list JsValue) :
  forallb isFile elements = negb (existsb (fun f => negb (isFile f)) elements).
Proof.
  induction elements as [|v elements IH]; cbn; [reflexivity|].
  rewrite IH. destruct (isFile v); reflexivity.
Qed.


Section BatchProgress.

Variable runs : nat -> option Observed.

Lemma limiter_progress (concurrency m : nat) (b : Batch) :
  (0 < concurrency)%nat ->
  length (results b) = m -> batchProgress m b ->
  batchProgress (S m) (limiter concurrency b m).
Proof.
  intros concurrency_pos Hlen [Hcover Hwait]. unfold limiter.
  destruct (Nat.ltb_spec (length (active b)) concurrency) as [Hfree|Hfull];
    split; cbn [queue active results].
  - intros i Hi. destruct (decide (i = m)) as [->|Hne].
    + right. left. apply elem_of_app. right. apply list_elem_of_singleton. reflexivity.
    + destruct (Hcover i ltac:(lia)) as [H|[H|(r & H)]].
      * left. exact H.
      * right. left. apply elem_of_app. left. exact H.
      * right. right. exists r. rewrite lookup_app_l; [exact H|].
        apply lookup_lt_Some in H. exact H.
  - intros _ H. apply app_eq_nil in H as [_ H]. discriminate.
  - intros i Hi. destruct (decide (i = m)) as [->|Hne].
    + left. apply elem_of_app. right. apply list_elem_of_singleton. reflexivity.
    + destruct (Hcover i ltac:(lia)) as [H|[H|(r & H)]].
      * left. apply elem_of_app. left. exact H.
      * right. left. exact H.
      * right. right. exists r. rewrite lookup_app_l; [exact H|].
        apply lookup_lt_Some in H. exact H.
  - intros _ H. rewrite H in Hfull. cbn in Hfull. lia.
Qed.

Lemma tasks_progress (concurrency n : nat) :
  (0 < concurrency)%nat ->
  batchProgress n
    (foldl (limiter concurrency)
       {| queue := []; active := []; dispatched := []; results := [] |}
       (seq 0 n)).
Proof.
  intros concurrency_pos. induction n as [|n IH].
  - split; cbn; [lia | congruence].
  - rewrite seq_S, foldl_app. cbn [foldl Nat.add].
    apply limiter_progress; [assumption| |exact IH].
    rewrite limiter_results, length_seq. cbn [results app].
    apply length_replicate.
Qed.

Lemma finish_progress (n task : nat) (b : Batch) (r : TaskResult) :
  length (results b) = n -> batchProgress n b ->
  batchProgress n (finish b task r).
Proof.
  intros Hlen [Hcover Hwait].
  assert (Hdone : forall i, (i < n)%nat ->
            (exists r', results b !! i = Some (Some r')) ->
            exists r', <[task := Some r]> (results b) !! i = Some (Some r')).
  { intros i Hi (r' & H). destruct (decide (task = i)) as [->|Hne].
    - exists r. apply list_lookup_insert_eq. lia.
    - exists r'. rewrite list_lookup_insert_ne by assumption. exact H. }
  assert (Hself : (task < n)%nat ->
            exists r', <[task := Some r]> (results b) !! task = Some (Some r')).
  { intros Hi. exists r. apply list_lookup_insert_eq. lia. }
  unfold finish. destruct (queue b) as [|next queue'] eqn:Hq;
    split; cbn [queue active results]; try congruence.
  - intros i Hi. destruct (decide (i = task)) as [->|Hne]; [auto|].
    destruct (Hcover i Hi) as [H|[H|H]].
    + apply elem_of_nil in H. contradiction.
    + right. left. apply list_elem_of_filter. auto.
    + auto.
  - intros i Hi. destruct (decide (i = task)) as [->|Hne]; [auto|].
    destruct (Hcover i Hi) as [H|[H|H]].
    + apply elem_of_cons in H as [->|H].
      * right. left. apply elem_of_app. right.
        apply list_elem_of_singleton. reflexivity.
      * left. exact H.
    + right. left. apply elem_of_app. left. apply list_elem_of_filter. auto.
    + auto.
  - intros _ H. apply app_eq_nil in H as [_ H]. discriminate.
Qed.

Lemma complete_progress (n : nat) (b : Batch) (task : nat) :
  batchInvariant runs n b /\ batchProgress n b ->
  batchInvariant runs n (complete runs b task)
  /\ batchProgress n (complete runs b task).
Proof.
  intros [Hinv Hprog]. split; [apply complete_invariant; exact Hinv|].
  unfold complete.
  destruct (decide (task ∈ active b)); [|assumption].
  destruct (taskBody (runs task)) as [r|]; [|assumption].
  apply finish_progress; [apply Hinv | exact Hprog].
Qed.

(** Once no task is running, every task promise is settled. *)
Lemma idle_all_settled (n : nat) (b : Batch) :
  batchInvariant runs n b -> batchProgress n b -> active b = [] ->
  exists rs, mapM id (results b) = Some rs.
Proof.
  intros [Hlen _] [Hcover Hwait] Hidle.
  assert (Hq : queue b = []).
  { destruct (queue b) eqn:Hq; [reflexivity|].
    exfalso. apply Hwait; [discriminate | exact Hidle]. }
  assert (Hall : Forall (fun x => is_Some (id x)) (results b)).
  { apply Forall_lookup. intros i x Hi.
    destruct (Hcover i) as [H|[H|(r & H)]].
    - rewrite <- Hlen. apply lookup_lt_Some in Hi. exact Hi.
    - rewrite Hq in H. apply elem_of_nil in H. contradiction.
    - rewrite Hidle in H. apply elem_of_nil in H. contradiction.
    - rewrite Hi in H. injection H as ->. eexists. reflexivity. }
  apply mapM_is_Some in Hall. destruct Hall as [rs Hrs]. exists rs. exact Hrs.
Qed.

End BatchProgress.



(** The batch of the specification's isolation test: three results in input
    order although the tasks returned in the order 2, 0, 1; the second
    file's failure is in its own entry and the others carry their digest. *)
Example batch_isolation :
  calculateAllHashes batch_files batch_options batch_environment
  = {| started := [0; 1; 2]%nat;
       running := [];
       returned :=
         Fulfilled
           [ {| result_name := "one";
                hash := Some "187ef4436122d1cc2f40dc2b92f0eba0"%string;
                result_error := None |};
             {| result_name := "two";
                hash := None;
                result_error := Some (JsError "分块处理错误: boom") |};
             {| result_name := "three";
                hash := Some "0cc175b9c0f1b6a831c399e269772661"%string;
                result_error := None |} ] |}.
Proof. vm_compute. reflexivity. Qed.

(** ** The theorems at concrete inputs *)

Lemma createChunks_correct_witness :
  0 < 1
  /\ exists chunks : list Chunk,
       createChunks file_ab 1 = Some chunks
       /\ Z.of_nat (length chunks) = 2
       /\ concat (data <$> chunks) = bytes_of "ab".
Proof.
  split; [lia|].
  destruct (createChunks_correct file_ab 1 ltac:(lia))
    as (chunks & Hc & _ & Hn & _ & _ & Hcat & _).
  exists chunks. split; [exact Hc|]. split; [|exact Hcat].
  rewrite Hn. vm_compute. reflexivity.
Defined.

Lemma handleMessage_rejects_witness :
  promise (handleMessage [chunk_a; chunk_b] "f" 1
             (workerCode {| task_index := 1; task_chunk := chunk_b |} (FetchFails "boom"))
             (multiThreadHash None [chunk_a; chunk_b] "f" []))
  = Rejected (JsError "分块处理错误: boom")
  /\ promise (handleMessage [chunk_a; chunk_b] "f" 1
                {| index := 1; buffer := None; error := None |}
                (multiThreadHash None [chunk_a; chunk_b] "f" []))
     = Rejected (JsError "分块数据为空: 1").
Proof.
  split.
  - apply (handleMessage_rejects None [chunk_a; chunk_b] "f" [] 1
             {| task_index := 1; task_chunk := chunk_b |}
             (workerCode {| task_index := 1; task_chunk := chunk_b |} (FetchFails "boom"))).
    vm_compute. reflexivity.
  - apply (handleMessage_rejects None [chunk_a; chunk_b] "f" [] 1
             {| task_index := 1; task_chunk := chunk_b |}
             {| index := 1; buffer := None; error := None |}).
    vm_compute. reflexivity.
Defined.


Lemma calculateHash_routing_witness :
  settled <$> calculateHash None file_ab
                {| chunkSize := Some 1; useWorkerThreshold := Some 2 |}
                {| reads := readable; arrivals := second_first |}
  = Some (Fulfilled "07159c47ee1b19ae4fb9c40d480856c4"%string)
  /\ settled <$> calculateHash None file_ab
                   {| chunkSize := Some 1; useWorkerThreshold := Some 3 |}
                   {| reads := readable; arrivals := second_first |}
     = Some (Fulfilled "187ef4436122d1cc2f40dc2b92f0eba0"%string).
Proof.
  split.
  - rewrite (proj1 (proj2 (proj2 (proj2
               (calculateHash_routing None file_ab
                  {| chunkSize := Some 1; useWorkerThreshold := Some 2 |}
                  {| reads := readable; arrivals := second_first |})))))
      by (vm_compute; reflexivity).
    vm_compute. reflexivity.
  - rewrite (proj2 (proj2 (proj2 (proj2
               (calculateHash_routing None file_ab
                  {| chunkSize := Some 1; useWorkerThreshold := Some 3 |}
                  {| reads := readable; arrivals := second_first |})))))
      by (vm_compute; reflexivity).
    vm_compute. reflexivity.
Defined.


(** * Further properties of the code *)

(** ** multiThreadHash: the pool and the dispatch cursor *)

Section Pool.

Variable chunks : list Chunk.
Variable fileName : string.

Lemma inFlight_le_length (ws : list Worker) : (inFlight ws <= length ws)%nat.
Proof. induction ws as [|[|t|] ws IH]; cbn [inFlight length]; lia. Qed.

Lemma inFlight_positive (ws : list Worker) :
  (0 < inFlight ws)%nat -> exists w task, ws !! w = Some (Busy task).
Proof.
  induction ws as [|[|t|] ws IH]; cbn [inFlight]; intros H.
  - lia.
  - destruct (IH H) as (w & task & Hw). exists (S w), task. exact Hw.
  - exists 0%nat, t. reflexivity.
  - destruct (IH H) as (w & task & Hw). exists (S w), task. exact Hw.
Qed.

Lemma handleMessage_pool (worker : nat) (e : WorkerResult) (st : Runner) :
  length (workers (handleMessage chunks fileName worker e st)) = length (workers st).
Proof.
  unfold handleMessage.
  destruct (truthy (error e)); [cbn; apply length_fmap|].
  destruct (buffer e); [|cbn; apply length_fmap].
  destruct (chunks !! currentIndex st);
    destruct (Nat.eqb _ _); cbn;
    rewrite ?length_fmap, ?length_insert; reflexivity.
Qed.

Lemma deliver_pool (st : Runner) (ev : Event) :
  length (workers (deliver chunks fileName st ev)) = length (workers st).
Proof.
  destruct ev as [w f|w message]; cbn [deliver];
    destruct (workers st !! w) as [[|task|]|]; try reflexivity.
  - apply handleMessage_pool.
  - cbn. apply length_fmap.
  - cbn. apply length_fmap.
Qed.

Lemma spawn_pool (st : Runner) (k : nat) :
  length (workers st) = k /\ currentIndex st = Nat.min k (length chunks) ->
  length (workers (spawn chunks st)) = S k
  /\ currentIndex (spawn chunks st) = Nat.min (S k) (length chunks).
Proof.
  intros [Hl Hc]. unfold spawn.
  destruct (chunks !! currentIndex st) as [chunk|] eqn:Hk;
    cbn [workers currentIndex]; rewrite length_app, Hl; cbn [length].
  - apply lookup_lt_Some in Hk. lia.
  - apply lookup_ge_None in Hk. lia.
Qed.

(** [k] iterations of the loop that creates the workers. *)
Lemma spawn_iter_pool (k : nat) :
  let st := Nat.iter k (spawn chunks)
              {| workers := []; currentIndex := 0; processedChunks := 0;
                 spark := SparkMD5_new; calls := []; promise := Pending |} in
  length (workers st) = k /\ currentIndex st = Nat.min k (length chunks).
Proof.
  induction k as [|k IH]; cbn [Nat.iter nat_rect]; [split; reflexivity|].
  apply spawn_pool. exact IH.
Qed.

Lemma start_pool (hc : option nat) :
  length (workers (start hc chunks)) = workerCount hc chunks
  /\ currentIndex (start hc chunks) = workerCount hc chunks.
Proof.
  unfold start. destruct (spawn_iter_pool (workerCount hc chunks)) as [Hl Hc].
  split; [exact Hl|]. rewrite Hc. unfold workerCount. lia.
Qed.

Lemma multiThreadHash_pool (hc : option nat) (events : list Event) :
  length (workers (multiThreadHash hc chunks fileName events)) = workerCount hc chunks.
Proof.
  unfold multiThreadHash.
  apply (foldl_invariant (fun st => length (workers st) = workerCount hc chunks)).
  - intros st ev H. rewrite deliver_pool. exact H.
  - apply start_pool.
Qed.

End Pool.

(** X1. The pool of multiThreadHash is created once: after any events it
    has exactly min (hardwareConcurrency || 4, number of chunks) workers,
    at most that many tasks are in flight, and the dispatch cursor never
    passes the end of the chunk list. *)
Theorem multiThreadHash_pool_size (hc : option nat) (chunks : list Chunk)
    (fileName : string) (events : list Event) :
  let st := multiThreadHash hc chunks fileName events in
  length (workers st) = Nat.min (or_default hc 4) (length chunks)
  /\ (inFlight (workers st) <= Nat.min (or_default hc 4) (length chunks))%nat
  /\ (processedChunks st <= currentIndex st <= length chunks)%nat.
Proof.
  intros st.
  pose proof (multiThreadHash_pool chunks fileName hc events) as Hl.
  fold st in Hl. unfold workerCount in Hl.
  destruct (multiThreadHash_invariant chunks fileName hc events) as [_ [Hn Hi] _ _].
  fold st in Hn, Hi.
  split; [exact Hl|]. split.
  - rewrite <- Hl. apply inFlight_le_length.
  - lia.
Qed.

(** ** multiThreadHash: what is dispatched, in flight and folded *)

Section Dispatch.

Variable chunks : list Chunk.
Variable fileName : string.

Lemma inFlightIndices_terminated (ws : list Worker) :
  inFlightIndices ((fun _ => Terminated) <$> ws) = [].
Proof. induction ws as [|w ws IH]; [reflexivity | exact IH]. Qed.

Lemma inFlightIndices_snoc (ws : list Worker) (w : Worker) :
  inFlightIndices (ws ++ [w]) = inFlightIndices ws ++ inFlightIndices [w].
Proof.
  induction ws as [|[|t|] ws IH]; cbn [app inFlightIndices]; rewrite ?IH; reflexivity.
Qed.

Lemma inFlightIndices_length (ws : list Worker) :
  length (inFlightIndices ws) = inFlight ws.
Proof.
  induction ws as [|[|t|] ws IH]; cbn [inFlightIndices inFlight length]; lia.
Qed.

(** Replacing a worker that has a task in flight. *)
Lemma inFlightIndices_insert (ws : list Worker) (i : nat) (task : WorkerTask)
    (w : Worker) :
  ws !! i = Some (Busy task) ->
  task_index task :: inFlightIndices (<[i := w]> ws)
  ≡ₚ inFlightIndices [w] ++ inFlightIndices ws.
Proof.
  revert i. induction ws as [|x ws IH]; intros [|i] Hi; try discriminate.
  - cbn in Hi. injection Hi as ->. simpl.
    destruct w as [|t|]; simpl; [reflexivity | apply Permutation_swap | reflexivity].
  - cbn in Hi. specialize (IH i Hi).
    change (<[S i := w]> (x :: ws)) with (x :: <[i := w]> ws).
    remember (inFlightIndices [w]) as iw.
    destruct x as [|t|]; cbn [inFlightIndices]; try exact IH.
    rewrite Permutation_swap, IH. apply Permutation_middle.
Qed.

Lemma chunkOf_seq : chunkOf chunks <$> seq 0 (length chunks) = chunks.
Proof.
  apply list_eq. intros i. rewrite list_lookup_fmap.
  destruct (chunks !! i) as [c|] eqn:Hc.
  - rewrite lookup_seq_lt by (apply lookup_lt_Some in Hc; exact Hc).
    cbn. unfold chunkOf. rewrite Hc. reflexivity.
  - rewrite lookup_seq_ge by (apply lookup_ge_None in Hc; lia). reflexivity.
Qed.

(** *** Tasks carry the chunk of their index *)

Lemma tasksConsistent_terminated (st : Runner) (p : Promise string) :
  tasksConsistent chunks (settleWith (terminateAll st) p).
Proof.
  intros w task Hw. cbn [settleWith terminateAll workers] in Hw.
  rewrite list_lookup_fmap in Hw.
  destruct (workers st !! w); discriminate.
Qed.

Lemma tasksConsistent_insert (ws : list Worker) (w : nat) (x : Worker) :
  (forall i task, ws !! i = Some (Busy task) ->
     chunks !! task_index task = Some (task_chunk task)) ->
  (forall task, x = Busy task -> chunks !! task_index task = Some (task_chunk task)) ->
  forall i task, <[w := x]> ws !! i = Some (Busy task) ->
    chunks !! task_index task = Some (task_chunk task).
Proof.
  intros Hws Hx i task Hi.
  destruct (decide (w = i)) as [->|Hne].
  - destruct (decide (i < length ws)%nat).
    + rewrite list_lookup_insert_eq in Hi by assumption. injection Hi as ->.
      apply Hx. reflexivity.
    + rewrite list_insert_ge in Hi by lia. eapply Hws. exact Hi.
  - rewrite list_lookup_insert_ne in Hi by assumption. eapply Hws. exact Hi.
Qed.

Lemma handleMessage_consistent (worker : nat) (e : WorkerResult) (st : Runner) :
  tasksConsistent chunks st ->
  tasksConsistent chunks (handleMessage chunks fileName worker e st).
Proof.
  intros Hc. unfold handleMessage.
  destruct (truthy (error e)); [apply tasksConsistent_terminated|].
  destruct (buffer e); [|apply tasksConsistent_terminated].
  destruct (chunks !! currentIndex st) as [chunk|] eqn:Hk;
    destruct (Nat.eqb _ _);
    try apply (tasksConsistent_terminated (Build_Runner _ _ _ _ _ _));
    unfold tasksConsistent; cbn [workers];
    apply tasksConsistent_insert; try exact Hc.
  - intros task [= <-]. exact Hk.
  - intros task H. discriminate.
Qed.

Lemma deliver_consistent (st : Runner) (ev : Event) :
  tasksConsistent chunks st -> tasksConsistent chunks (deliver chunks fileName st ev).
Proof.
  intros Hc. destruct ev as [w f|w message]; cbn [deliver];
    destruct (workers st !! w) as [[|task|]|]; try exact Hc.
  - apply handleMessage_consistent. exact Hc.
  - apply tasksConsistent_terminated.
  - apply tasksConsistent_terminated.
Qed.

(** The loop that creates the workers hands out the first chunks in
    order. *)
Lemma spawn_dispatch (st : Runner) :
  tasksConsistent chunks st
  /\ inFlightIndices (workers st) = seq 0 (currentIndex st) ->
  tasksConsistent chunks (spawn chunks st)
  /\ inFlightIndices (workers (spawn chunks st)) = seq 0 (currentIndex (spawn chunks st)).
Proof.
  intros [Hc Hi]. unfold spawn.
  destruct (chunks !! currentIndex st) as [chunk|] eqn:Hk; cbn [workers currentIndex];
    (split; [|rewrite inFlightIndices_snoc, Hi; cbn [inFlightIndices task_index];
              rewrite ?seq_S, ?app_nil_r; reflexivity]).
  - intros w task Hw. cbn [workers] in Hw.
    apply lookup_app_Some in Hw as [Hw|[_ Hw]]; [eapply Hc; exact Hw|].
    destruct (w - length (workers st))%nat; [|discriminate].
    injection Hw as <-. exact Hk.
  - intros w task Hw. cbn [workers] in Hw.
    apply lookup_app_Some in Hw as [Hw|[_ Hw]]; [eapply Hc; exact Hw|].
    destruct (w - length (workers st))%nat; discriminate.
Qed.

Lemma spawn_iter_dispatch (k : nat) :
  let st := Nat.iter k (spawn chunks)
              {| workers := []; currentIndex := 0; processedChunks := 0;
                 spark := SparkMD5_new; calls := []; promise := Pending |} in
  tasksConsistent chunks st
  /\ inFlightIndices (workers st) = seq 0 (currentIndex st).
Proof.
  induction k as [|k IH]; cbn [Nat.iter nat_rect].
  - split; [|reflexivity]. intros w task Hw. discriminate.
  - apply spawn_dispatch. exact IH.
Qed.

Lemma start_dispatch (hc : option nat) : dispatchInvariant chunks (start hc chunks).
Proof.
  unfold start.
  destruct (spawn_iter_dispatch (workerCount hc chunks)) as [Hc Hi].
  destruct (spawn_iter chunks (workerCount hc chunks)) as (H1 & H2 & _).
  split; [exact Hc|]. intros _. exists []. cbn [app length fmap list_fmap concat].
  rewrite Hi, H1, H2. auto.
Qed.

Lemma reject_dispatch (st : Runner) (reason : Error) :
  promise st = Pending ->
  dispatchInvariant chunks (settleWith (terminateAll st) (Rejected reason)).
Proof.
  intros Hp. split; [apply tasksConsistent_terminated|].
  intros Hno. exfalso. apply (Hno reason).
  cbn [settleWith terminateAll promise]. rewrite Hp. reflexivity.
Qed.

Lemma handleMessage_dispatch (worker : nat) (task : WorkerTask) (f : Fetch)
    (st : Runner) :
  runnerInvariant chunks fileName st ->
  dispatchInvariant chunks st -> promise st = Pending ->
  workers st !! worker = Some (Busy task) ->
  dispatchInvariant chunks
    (handleMessage chunks fileName worker (workerCode task f) st).
Proof.
  intros [_ [_ Hbound] _ _] [Hc Hord] Hp Hbusy.
  split; [apply handleMessage_consistent; exact Hc|].
  intros Hno.
  destruct Hord as (order & Hperm & Hspark & Hlen); [rewrite Hp; discriminate|].
  revert Hno. unfold handleMessage, workerCode.
  destruct f as [|message]; cbn [error buffer index truthy].
  - set (ws := match chunks !! currentIndex st with
               | Some chunk => _
               | None => _
               end).
    assert (Hws : fst ws
                  = <[worker := match chunks !! currentIndex st with
                                | Some chunk =>
                                    Busy {| task_index := currentIndex st;
                                            task_chunk := chunk |}
                                | None => Terminated
                                end]> (workers st)
                  /\ snd ws = match chunks !! currentIndex st with
                              | Some _ => S (currentIndex st)
                              | None => currentIndex st
                              end).
    { unfold ws. destruct (chunks !! currentIndex st); split; reflexivity. }
    destruct ws as [workers' currentIndex']. cbn [fst snd] in Hws.
    destruct Hws as [-> ->].
    assert (Hdata : data (task_chunk task) = data (chunkOf chunks (task_index task))).
    { unfold chunkOf. rewrite (Hc worker task Hbusy). reflexivity. }
    assert (Hnew :
      (order ++ [task_index task])
        ++ inFlightIndices
             (<[worker := match chunks !! currentIndex st with
                          | Some chunk =>
                              Busy {| task_index := currentIndex st;
                                      task_chunk := chunk |}
                          | None => Terminated
                          end]> (workers st))
      ≡ₚ seq 0 (match chunks !! currentIndex st with
                | Some _ => S (currentIndex st)
                | None => currentIndex st
                end)).
    { rewrite <- app_assoc. cbn [app].
      rewrite (inFlightIndices_insert _ _ _ _ Hbusy).
      destruct (chunks !! currentIndex st); cbn [inFlightIndices task_index app].
      - rewrite seq_S. cbn [Nat.add]. rewrite <- Hperm.
        rewrite <- Permutation_middle. apply Permutation_cons_append.
      - exact Hperm. }
    assert (Hspark' :
      SparkMD5_append (spark st) (data (task_chunk task))
      = concat (data <$> (chunkOf chunks <$> (order ++ [task_index task])))).
    { rewrite !fmap_app, concat_app, <- Hspark, Hdata. cbn.
      rewrite app_nil_r. reflexivity. }
    assert (Hlen' : length (order ++ [task_index task]) = S (processedChunks st)).
    { rewrite length_app, Hlen. cbn. lia. }
    assert (Hci : (match chunks !! currentIndex st with
                   | Some _ => S (currentIndex st)
                   | None => currentIndex st
                   end <= length chunks)%nat).
    { destruct (chunks !! currentIndex st) eqn:Hk; [|exact Hbound].
      apply lookup_lt_Some in Hk. lia. }
    destruct (Nat.eqb_spec (S (processedChunks st)) (length chunks)) as [Heq|Hne];
      intros _; exists (order ++ [task_index task]);
      cbn [settleWith terminateAll workers currentIndex spark processedChunks].
    + split; [|split; assumption].
      rewrite inFlightIndices_terminated, app_nil_r.
      apply Permutation_length in Hnew as Hl.
      rewrite length_app, Hlen', length_seq in Hl.
      destruct (inFlightIndices (<[worker := _]> _)) as [|x l];
        [|cbn [length] in Hl; lia].
      rewrite app_nil_r in Hnew. exact Hnew.
    + split; [exact Hnew|]. split; assumption.
  - destruct message as [|a message]; cbn [truthy];
      cbn [settleWith terminateAll promise]; rewrite Hp; cbn [settle];
      intros Hno; exfalso; eapply Hno; reflexivity.
Qed.

Lemma deliver_dispatch (st : Runner) (ev : Event) :
  runnerInvariant chunks fileName st /\ dispatchInvariant chunks st ->
  runnerInvariant chunks fileName (deliver chunks fileName st ev)
  /\ dispatchInvariant chunks (deliver chunks fileName st ev).
Proof.
  intros [Hinv Hd]. split; [apply deliver_invariant; exact Hinv|].
  destruct (promise st) as [|digest|reason] eqn:Hp.
  - destruct ev as [w f|w message]; cbn [deliver];
      destruct (workers st !! w) as [[|task|]|] eqn:Hw; try exact Hd.
    + eapply handleMessage_dispatch; eassumption.
    + apply reject_dispatch. exact Hp.
    + apply reject_dispatch. exact Hp.
  - rewrite deliver_terminated; [exact Hd|].
    apply (inv_settled _ _ _ Hinv). congruence.
  - rewrite deliver_terminated; [exact Hd|].
    apply (inv_settled _ _ _ Hinv). congruence.
Qed.

Lemma multiThreadHash_dispatch (hc : option nat) (events : list Event) :
  dispatchInvariant chunks (multiThreadHash hc chunks fileName events).
Proof.
  unfold multiThreadHash.
  apply (foldl_invariant
           (fun st => runnerInvariant chunks fileName st /\ dispatchInvariant chunks st)).
  - intros st ev. apply deliver_dispatch.
  - split; [apply start_invariant | apply start_dispatch].
Qed.

End Dispatch.

(** X2. When multiThreadHash resolves, every chunk has been folded exactly
    once: the folded bytes are the chunks put end to end in some order (the
    order of arrival), and the digest is the MD5 of those bytes. *)
Theorem multiThreadHash_folds_every_chunk_once (hc : option nat) (chunks : list Chunk)
    (fileName : string) (events : list Event) (digest : string) :
  promise (multiThreadHash hc chunks fileName events) = Fulfilled digest ->
  exists arrived : list Chunk,
    arrived ≡ₚ chunks
    /\ spark (multiThreadHash hc chunks fileName events) = concat (data <$> arrived)
    /\ digest = MD5.hex (concat (data <$> arrived))
    /\ length (spark (multiThreadHash hc chunks fileName events))
       = length (concat (data <$> chunks)).
Proof.
  intros Hf.
  destruct (multiThreadHash_invariant chunks fileName hc events) as [_ [_ Hb] _ Hdone].
  destruct (Hdone digest Hf) as [Hall Hd].
  destruct (multiThreadHash_dispatch chunks fileName hc events) as [_ Hord].
  destruct Hord as (order & Hperm & Hspark & Hlen); [rewrite Hf; discriminate|].
  assert (Horder : order ≡ₚ seq 0 (length chunks)).
  { apply Permutation_length in Hperm as Hl.
    rewrite length_app, Hlen, Hall, length_seq in Hl.
    destruct (inFlightIndices _) as [|x l]; [|cbn in Hl; lia].
    rewrite app_nil_r in Hperm. cbn in Hl.
    replace (length chunks) with (currentIndex (multiThreadHash hc chunks fileName events))
      at 1 by lia.
    exact Hperm. }
  assert (Harr : chunkOf chunks <$> order ≡ₚ chunks).
  { rewrite Horder. rewrite chunkOf_seq. reflexivity. }
  exists (chunkOf chunks <$> order). split; [exact Harr|]. split; [exact Hspark|].
  split; [rewrite Hd, Hspark; reflexivity|].
  rewrite Hspark. rewrite Harr. reflexivity.
Qed.

(** ** multiThreadHash: progress of a run *)

Section Liveness.

Variable chunks : list Chunk.
Variable fileName : string.

Lemma reject_live (st : Runner) (reason : Error) :
  liveInvariant chunks st -> promise st = Pending ->
  liveInvariant chunks (settleWith (terminateAll st) (Rejected reason)).
Proof.
  intros [Hpend _] Hp. destruct (Hpend Hp) as [_ Hne].
  split; cbn [settleWith terminateAll promise processedChunks]; rewrite Hp;
    cbn [settle]; [discriminate|].
  intros _ _ Hchunks. apply Hne. exact Hchunks.
Qed.

Lemma handleMessage_live (worker : nat) (task : WorkerTask) (e : WorkerResult)
    (st : Runner) :
  runnerInvariant chunks fileName st ->
  liveInvariant chunks st -> promise st = Pending ->
  workers st !! worker = Some (Busy task) ->
  liveInvariant chunks (handleMessage chunks fileName worker e st).
Proof.
  intros [_ [_ Hbound] _ _] Hlive Hp Hbusy. unfold handleMessage.
  destruct (truthy (error e)); [apply reject_live; assumption|].
  destruct (buffer e) as [buf|]; [|apply reject_live; assumption].
  destruct Hlive as [Hpend _]. destruct (Hpend Hp) as [Hsum Hpos].
  pose proof (inFlight_insert (workers st) worker task) as Hins.
  destruct (chunks !! currentIndex st) as [chunk|] eqn:Hk.
  - specialize (Hins (Busy {| task_index := currentIndex st; task_chunk := chunk |}) Hbusy).
    cbn [inFlight] in Hins. apply lookup_lt_Some in Hk.
    destruct (Nat.eqb_spec (S (processedChunks st)) (length chunks)) as [Heq|Hne];
      split; cbn [settleWith terminateAll promise processedChunks workers currentIndex];
      rewrite ?Hp; cbn [settle]; try discriminate.
    intros _. split; [lia|]. intros Hc. destruct (Hpos Hc). lia.
  - specialize (Hins Terminated Hbusy). cbn [inFlight] in Hins.
    apply lookup_ge_None in Hk.
    destruct (Nat.eqb_spec (S (processedChunks st)) (length chunks)) as [Heq|Hne];
      split; cbn [settleWith terminateAll promise processedChunks workers currentIndex];
      rewrite ?Hp; cbn [settle]; try discriminate.
    intros _. split; [lia|]. intros Hc. destruct (Hpos Hc). lia.
Qed.

Lemma deliver_live (st : Runner) (ev : Event) :
  runnerInvariant chunks fileName st /\ liveInvariant chunks st ->
  runnerInvariant chunks fileName (deliver chunks fileName st ev)
  /\ liveInvariant chunks (deliver chunks fileName st ev).
Proof.
  intros [Hinv Hlive]. split; [apply deliver_invariant; exact Hinv|].
  destruct (promise st) as [|digest|reason] eqn:Hp.
  - destruct ev as [w f|w message]; cbn [deliver];
      destruct (workers st !! w) as [[|task|]|] eqn:Hw; try exact Hlive.
    + eapply handleMessage_live; eassumption.
    + apply reject_live; assumption.
    + apply reject_live; assumption.
  - rewrite deliver_terminated; [exact Hlive|].
    apply (inv_settled _ _ _ Hinv). congruence.
  - rewrite deliver_terminated; [exact Hlive|].
    apply (inv_settled _ _ _ Hinv). congruence.
Qed.

Lemma start_live (hc : option nat) : liveInvariant chunks (start hc chunks).
Proof.
  destruct (start_pool chunks hc) as [_ Hci].
  unfold start in *.
  destruct (spawn_iter chunks (workerCount hc chunks)) as (H1 & _ & _ & H4 & H5 & _).
  split; rewrite H4; [|discriminate].
  intros _. rewrite H1, H5. split; [reflexivity|].
  intros Hne. rewrite Hci. unfold workerCount.
  assert (0 < length chunks)%nat by (destruct chunks; [congruence | cbn; lia]).
  destruct hc as [[|h]|]; cbn [or_default]; lia.
Qed.

Lemma multiThreadHash_live (hc : option nat) (events : list Event) :
  liveInvariant chunks (multiThreadHash hc chunks fileName events).
Proof.
  unfold multiThreadHash.
  apply (foldl_invariant
           (fun st => runnerInvariant chunks fileName st /\ liveInvariant chunks st)).
  - intros st ev. apply deliver_live.
  - split; [apply start_invariant | apply start_live].
Qed.

(** A successful result of a worker at work folds one more chunk, and
    resolves exactly when it was the last one. *)
Lemma deliver_success (st : Runner) (w : nat) (task : WorkerTask) :
  promise st = Pending -> workers st !! w = Some (Busy task) ->
  let st' := deliver chunks fileName st (Arrival w FetchOk) in
  processedChunks st' = S (processedChunks st)
  /\ spark st' = spark st ++ data (task_chunk task)
  /\ promise st'
     = if Nat.eqb (S (processedChunks st)) (length chunks)
       then Fulfilled (MD5.hex (spark st ++ data (task_chunk task)))
       else Pending.
Proof.
  intros Hp Hw. cbn [deliver]. rewrite Hw.
  unfold handleMessage, workerCode. cbn [error buffer truthy].
  destruct (chunks !! currentIndex st);
    destruct (Nat.eqb (S (processedChunks st)) (length chunks));
    cbn [settleWith terminateAll processedChunks spark promise]; rewrite ?Hp;
    auto.
Qed.

(** From any pending state the run can be completed by successful results
    alone, one per chunk not yet folded. *)
Lemma complete_from (k : nat) :
  forall st,
    runnerInvariant chunks fileName st -> liveInvariant chunks st ->
    chunks <> [] -> promise st = Pending ->
    (length chunks - processedChunks st = k)%nat ->
    exists later,
      length later = k
      /\ forallb isSuccess later = true
      /\ exists digest,
           promise (foldl (deliver chunks fileName) st later) = Fulfilled digest.
Proof.
  induction k as [|k IH]; intros st Hinv Hlive Hne Hp Hk.
  - destruct Hlive as [Hpend _]. destruct (Hpend Hp) as [_ H].
    destruct (H Hne). lia.
  - destruct Hlive as [Hpend Hrej]. destruct (Hpend Hp) as [_ H].
    destruct (H Hne) as [Hbusy Hlt].
    destruct (inFlight_positive _ Hbusy) as (w & task & Hw).
    destruct (deliver_success st w task Hp Hw) as (Hproc & _ & Hprom).
    destruct (deliver_live st (Arrival w FetchOk) (conj Hinv (conj Hpend Hrej)))
      as [Hinv' Hlive'].
    destruct (Nat.eqb_spec (S (processedChunks st)) (length chunks)) as [Heq|Hneq].
    + exists [Arrival w FetchOk]. assert (k = 0%nat) as -> by lia.
      split; [reflexivity|]. split; [reflexivity|]. eexists. exact Hprom.
    + destruct (IH _ Hinv' Hlive' Hne Hprom ltac:(rewrite Hproc; lia))
        as (later & Hlen & Hok & digest & Hd).
      exists (Arrival w FetchOk :: later). cbn [length forallb isSuccess foldl andb].
      split; [lia|]. split; [exact Hok|]. exists digest. exact Hd.
Qed.

End Liveness.

(** X3. With chunks to hash, multiThreadHash is never stuck: while its
    promise is pending some worker has a task in flight and not every chunk
    is folded. The promise is fulfilled exactly when the number of folded
    chunks has reached the number of chunks. *)
Theorem multiThreadHash_never_stuck (hc : option nat) (chunks : list Chunk)
    (fileName : string) (events : list Event) :
  chunks <> [] ->
  let st := multiThreadHash hc chunks fileName events in
  (promise st = Pending ->
     (processedChunks st < length chunks)%nat
     /\ exists w task, workers st !! w = Some (Busy task))
  /\ ((exists digest, promise st = Fulfilled digest)
      <-> processedChunks st = length chunks).
Proof.
  intros Hne st.
  destruct (multiThreadHash_live chunks fileName hc events) as [Hpend Hrej].
  destruct (multiThreadHash_invariant chunks fileName hc events) as [_ _ _ Hdone].
  fold st in Hpend, Hrej, Hdone.
  split.
  - intros Hp. destruct (Hpend Hp) as [_ H]. destruct (H Hne) as [Hbusy Hlt].
    split; [exact Hlt|]. apply inFlight_positive. exact Hbusy.
  - split.
    + intros [digest Hd]. apply (Hdone digest Hd).
    + intros Hall. destruct (promise st) as [|digest|reason] eqn:Hp.
      * destruct (Hpend eq_refl) as [_ H]. destruct (H Hne). lia.
      * eauto.
      * specialize (Hrej reason eq_refl Hne). lia.
Qed.

(** X4. A run of multiThreadHash that is still pending can always be
    completed: successful results alone, one for each chunk not yet folded,
    lead to a fulfilled promise. *)
Theorem multiThreadHash_can_complete (hc : option nat) (chunks : list Chunk)
    (fileName : string) (events : list Event) :
  chunks <> [] ->
  promise (multiThreadHash hc chunks fileName events) = Pending ->
  exists later,
    (length later
     = length chunks - processedChunks (multiThreadHash hc chunks fileName events))%nat
    /\ forallb isSuccess later = true
    /\ exists digest,
         promise (multiThreadHash hc chunks fileName (events ++ later))
         = Fulfilled digest.
Proof.
  intros Hne Hp.
  destruct (complete_from chunks fileName _ _
              (multiThreadHash_invariant chunks fileName hc events)
              (multiThreadHash_live chunks fileName hc events) Hne Hp eq_refl)
    as (later & Hlen & Hok & digest & Hd).
  exists later. split; [exact Hlen|]. split; [exact Hok|]. exists digest.
  unfold multiThreadHash in *. rewrite foldl_app. exact Hd.
Qed.

(** X5. Once the promise of multiThreadHash is settled the run is over: no
    later event changes the accumulator, the progress reports, the pool or
    the promise. *)
Theorem multiThreadHash_settles_once (hc : option nat) (chunks : list Chunk)
    (fileName : string) (events later : list Event) :
  promise (multiThreadHash hc chunks fileName events) <> Pending ->
  multiThreadHash hc chunks fileName (events ++ later)
  = multiThreadHash hc chunks fileName events
  /\ allTerminated (multiThreadHash hc chunks fileName events).
Proof.
  intros Hset.
  pose proof (inv_settled _ _ _ (multiThreadHash_invariant chunks fileName hc events) Hset)
    as Hall.
  split; [|exact Hall].
  unfold multiThreadHash in *. rewrite foldl_app. apply run_terminated. exact Hall.
Qed.

(** X6. An error event of a worker that has not been terminated rejects
    multiThreadHash with the text of the event behind a fixed prefix,
    terminates every worker and folds nothing; the run is then over. *)
Theorem multiThreadHash_worker_error (hc : option nat) (chunks : list Chunk)
    (fileName : string) (events later : list Event) (w : nat) (task : WorkerTask)
    (message : string) :
  workers (multiThreadHash hc chunks fileName events) !! w = Some (Busy task) ->
  let st := multiThreadHash hc chunks fileName events in
  let st' := multiThreadHash hc chunks fileName (events ++ Fault w message :: later) in
  promise st' = Rejected (JsError ("Worker错误: " +:+ message))
  /\ allTerminated st'
  /\ spark st' = spark st
  /\ calls st' = calls st.
Proof.
  intros Hw st st'.
  pose proof (multiThreadHash_invariant chunks fileName hc events) as Hinv.
  pose proof (busy_pending chunks fileName _ w task Hinv Hw) as Hp.
  assert (Hst' : st' = handleError message st).
  { unfold st', multiThreadHash. rewrite foldl_app. cbn [foldl deliver].
    fold (multiThreadHash hc chunks fileName events). rewrite Hw.
    apply run_terminated. apply (terminateAll_allTerminated st). }
  rewrite Hst'. unfold handleError.
  cbn [settleWith terminateAll promise spark calls]. fold st in Hp. rewrite Hp.
  repeat split. apply (terminateAll_allTerminated st).
Qed.

(** ** createChunks: the size of the chunks *)

Lemma byteRange_length (bytes : list byte) (lo hi : Z) :
  0 <= lo <= hi -> hi <= Z.of_nat (length bytes) ->
  Z.of_nat (length (byteRange bytes lo hi)) = hi - lo.
Proof.
  intros Hlo Hhi. unfold byteRange. rewrite length_take, length_drop. lia.
Qed.

(** X7. For a positive chunk size every chunk that createChunks returns is
    tagged with the name of the file, holds at least one byte and at most
    chunkSize bytes, and every chunk but the last holds exactly chunkSize
    bytes. *)
Theorem createChunks_chunk_sizes (file : File) (chunkSize : Z) (chunks : list Chunk) :
  0 < chunkSize ->
  createChunks file chunkSize = Some chunks ->
  forall (i : nat) (chunk : Chunk), chunks !! i = Some chunk ->
    fileId chunk = name file
    /\ 0 < Z.of_nat (length (data chunk)) <= chunkSize
    /\ ((i + 1 < length chunks)%nat -> Z.of_nat (length (data chunk)) = chunkSize).
Proof.
  intros Hpos Hc i chunk Hi.
  pose proof (chunk_count_le_size file chunkSize Hpos) as Hle.
  unfold createChunks in Hc.
  rewrite (createChunks_fuel_enough file chunkSize Hpos) in Hc by lia.
  injection Hc as <-.
  rewrite list_lookup_fmap in Hi.
  destruct (seq 0 (chunkCount file chunkSize) !! i) as [k|] eqn:Hk; [|discriminate].
  apply lookup_seq in Hk as [-> Hlt]. cbn in Hi. injection Hi as <-.
  pose proof (ceilDiv_least file chunkSize Hpos i Hlt) as Hstart.
  unfold chunkAt. cbn [fileId data].
  split; [reflexivity|].
  rewrite byteRange_length by (fold (size file); lia).
  split; [lia|].
  rewrite length_fmap, length_seq. intros Hnext.
  pose proof (ceilDiv_least file chunkSize Hpos (S i) ltac:(lia)) as Hend.
  lia.
Qed.

(** X8. Edge cases of createChunks. For a file of no bytes it returns the
    empty list whatever the chunk size. For a file with bytes and a chunk
    size that is zero or negative its loop never ends, however long it is
    run, and so calculateHash with that chunk size does not return. *)
Theorem createChunks_edge_cases (file : File) (cs : Z) :
  (size file = 0 -> createChunks file cs = Some [])
  /\ (cs <= 0 -> 0 < size file ->
        (forall fuel, createChunks_fuel fuel file cs = None)
        /\ forall hc options env,
             chunkSize options = Some cs ->
             calculateHash hc file options env = None).
Proof.
  split.
  - intros Hs. unfold createChunks, createChunks_fuel. cbn [createChunks_loop].
    rewrite Hs. reflexivity.
  - intros Hcs Hs.
    assert (Hdiv : forall fuel, createChunks_fuel fuel file cs = None)
      by (intros fuel; apply createChunks_diverges; assumption).
    split; [exact Hdiv|].
    intros hc options env Hopt. unfold calculateHash. rewrite Hopt. cbn [default].
    unfold createChunks. rewrite Hdiv. reflexivity.
Qed.

(** ** singleThreadHash: when it resolves and when it stalls *)

Section SequentialReads.

Variable reads : nat -> bool.
Variable fileName : string.
Variable length_ : nat.

(** A loop all of whose reads succeed resolves. *)
Lemma singleThreadHash_loop_resolves (rest : list Chunk) :
  forall (i : nat) (st : Observed),
    (forall m, (m < length rest)%nat -> reads (i + m)%nat = true) ->
    exists digest,
      settled (singleThreadHash_loop reads fileName length_ rest i st)
      = Fulfilled digest.
Proof.
  induction rest as [|chunk rest IH]; intros i st Hr; cbn [singleThreadHash_loop].
  - eexists. reflexivity.
  - assert (Hr0 : reads i = true)
      by (rewrite <- (Nat.add_0_r i); apply Hr; cbn; lia).
    rewrite Hr0. apply IH. intros m Hm.
    replace (S i + m)%nat with (i + S m)%nat by lia. apply Hr. cbn. lia.
Qed.

(** A loop whose [j]-th next read is the first to fail stops there. *)
Lemma singleThreadHash_loop_stalls (rest : list Chunk) :
  forall (i j : nat) (st : Observed),
    (j < length rest)%nat ->
    (forall m, (m < j)%nat -> reads (i + m)%nat = true) ->
    reads (i + j)%nat = false ->
    singleThreadHash_loop reads fileName length_ rest i st
    = {| accumulated := accumulated st ++ concat (data <$> take j rest);
         onProgressCalls :=
           onProgressCalls st
           ++ ((fun k => progressData fileName k length_) <$> seq (S i) j);
         settled :=
           match j with
           | O => settled st
           | S _ => Pending
           end |}.
Proof.
  induction rest as [|chunk rest IH]; intros i j st Hj Hok Hfail;
    cbn [length] in Hj; [lia|].
  cbn [singleThreadHash_loop].
  destruct j as [|j].
  - rewrite Nat.add_0_r in Hfail. rewrite Hfail.
    cbn [take fmap list_fmap concat seq]. rewrite !app_nil_r.
    destruct st; reflexivity.
  - assert (Hr0 : reads i = true)
      by (rewrite <- (Nat.add_0_r i); apply Hok; lia).
    rewrite Hr0.
    rewrite (IH (S i) j) by
      first [ lia
            | intros m Hm; replace (S i + m)%nat with (i + S m)%nat by lia;
              apply Hok; lia
            | replace (S i + j)%nat with (i + S j)%nat by lia; exact Hfail ].
    cbn [accumulated onProgressCalls settled take fmap list_fmap concat seq].
    unfold SparkMD5_append. rewrite <- !app_assoc.
    replace (i + 1)%nat with (S i) by lia.
    f_equal. destruct j; reflexivity.
Qed.

End SequentialReads.

Section ThrowingCallback.

Variable reads : nat -> bool.
Variable onProgress : ProgressData -> option Error.
Variable fileName : string.
Variable length_ : nat.

Local Abbreviation loop :=
  (singleThreadHash_onProgress_loop reads onProgress fileName length_).

(** A loop that rejected did so at a call of the callback that threw, every
    read up to it having succeeded and every earlier call having returned. *)
Lemma onProgress_loop_rejected (rest : list Chunk) :
  forall (i : nat) (st : Observed) (reason : Error),
    settled st = Pending ->
    settled (loop rest i st) = Rejected reason ->
    exists k, (k < length rest)%nat
      /\ (forall j, (j <= k)%nat -> reads (i + j)%nat = true)
      /\ (forall j, (j < k)%nat -> onProgress (progressData fileName (i + j + 1) length_) = None)
      /\ onProgress (progressData fileName (i + k + 1) length_) = Some reason.
Proof.
  induction rest as [|chunk rest IH]; intros i st reason Hp Hr;
    cbn [singleThreadHash_onProgress_loop] in Hr.
  - discriminate Hr.
  - destruct (reads i) eqn:Hread; [|congruence].
    destruct (onProgress (progressData fileName (i + 1) length_)) as [thrown|] eqn:Hcall.
    + cbn [settled] in Hr. injection Hr as ->. exists 0%nat.
      rewrite Nat.add_0_r. cbn [length]. repeat split; [lia| |lia|exact Hcall].
      intros j Hj. replace j with 0%nat by lia. rewrite Nat.add_0_r. exact Hread.
    + apply IH in Hr as (k & Hk & Hreads & Hcalls & Hthrow); [|reflexivity].
      exists (S k). cbn [length]. repeat split.
      * lia.
      * intros [|j] Hj; [rewrite Nat.add_0_r; exact Hread|].
        replace (i + S j)%nat with (S i + j)%nat by lia. apply Hreads. lia.
      * intros [|j] Hj; [rewrite Nat.add_0_r; exact Hcall|].
        replace (i + S j)%nat with (S i + j)%nat by lia. apply Hcalls. lia.
      * replace (i + S k)%nat with (S i + k)%nat by lia. exact Hthrow.
Qed.

(** The state in which the first call that throws leaves the loop. *)
Lemma onProgress_loop_throws (rest : list Chunk) :
  forall (i k : nat) (st : Observed) (reason : Error),
    (k < length rest)%nat ->
    (forall j, (j <= k)%nat -> reads (i + j)%nat = true) ->
    (forall j, (j < k)%nat -> onProgress (progressData fileName (i + j + 1) length_) = None) ->
    onProgress (progressData fileName (i + k + 1) length_) = Some reason ->
    loop rest i st
    = {| accumulated := accumulated st ++ concat (data <$> take (S k) rest);
         onProgressCalls :=
           onProgressCalls st
           ++ ((fun c => progressData fileName c length_) <$> seq (S i) (S k));
         settled := Rejected reason |}.
Proof.
  induction rest as [|chunk rest IH]; intros i k st reason Hk Hreads Hcalls Hthrow;
    cbn [length] in Hk; [lia|].
  cbn [singleThreadHash_onProgress_loop].
  assert (Hread : reads i = true)
    by (rewrite <- (Nat.add_0_r i); apply Hreads; lia).
  rewrite Hread. destruct k as [|k].
  - rewrite Nat.add_0_r in Hthrow. rewrite Hthrow.
    cbn [take fmap list_fmap concat seq]. rewrite !app_nil_r.
    unfold SparkMD5_append. replace (i + 1)%nat with (S i) by lia. reflexivity.
  - assert (Hcall : onProgress (progressData fileName (i + 1) length_) = None)
      by (rewrite <- (Nat.add_0_r i) at 1; apply Hcalls; lia).
    rewrite Hcall.
    rewrite (IH (S i) k _ reason) by
      first [ lia
            | intros j Hj; replace (S i + j)%nat with (i + S j)%nat by lia;
              first [apply Hreads | apply Hcalls]; lia
            | replace (S i + k)%nat with (i + S k)%nat by lia; exact Hthrow ].
    cbn [accumulated onProgressCalls take fmap list_fmap concat seq].
    unfold SparkMD5_append. rewrite <- !app_assoc.
    replace (i + 1)%nat with (S i) by lia. reflexivity.
Qed.

(** A loop that resolved has read every remaining chunk, no call of the
    callback threw, and it has folded the remaining chunks. *)
Lemma onProgress_loop_fulfilled (rest : list Chunk) :
  forall (i : nat) (st : Observed) (digest : string),
    settled st = Pending ->
    settled (loop rest i st) = Fulfilled digest ->
    (forall k, (k < length rest)%nat ->
       reads (i + k)%nat = true /\ onProgress (progressData fileName (i + k + 1) length_) = None)
    /\ accumulated (loop rest i st) = accumulated st ++ concat (data <$> rest)
    /\ digest = MD5.hex (accumulated st ++ concat (data <$> rest)).
Proof.
  induction rest as [|chunk rest IH]; intros i st digest Hp Hf;
    cbn [singleThreadHash_onProgress_loop] in *.
  - cbn [settled accumulated] in *. injection Hf as <-.
    cbn [fmap list_fmap concat length]. rewrite app_nil_r.
    split; [intros k Hk; lia | split; reflexivity].
  - destruct (reads i) eqn:Hread; [|congruence].
    destruct (onProgress (progressData fileName (i + 1) length_)) as [thrown|] eqn:Hcall; [discriminate Hf|].
    apply IH in Hf as (Hall & Hacc & Hdigest); [|reflexivity].
    cbn [accumulated] in Hacc, Hdigest. unfold SparkMD5_append in Hacc, Hdigest.
    rewrite <- app_assoc in Hacc, Hdigest.
    cbn [fmap list_fmap concat length]. split; [|split; assumption].
    intros [|k] Hk.
    + rewrite Nat.add_0_r. split; assumption.
    + replace (i + S k)%nat with (S i + k)%nat by lia. apply Hall. lia.
Qed.

(** While the callback returns the loop is the one of [singleThreadHash]. *)
Lemma onProgress_loop_returns (rest : list Chunk) :
  forall (i : nat) (st : Observed),
    (forall k, (k < length rest)%nat -> onProgress (progressData fileName (i + k + 1) length_) = None) ->
    loop rest i st = singleThreadHash_loop reads fileName length_ rest i st.
Proof.
  induction rest as [|chunk rest IH]; intros i st Hcalls;
    cbn [singleThreadHash_onProgress_loop singleThreadHash_loop]; [reflexivity|].
  destruct (reads i); [|reflexivity].
  assert (Hcall : onProgress (progressData fileName (i + 1) length_) = None)
    by (rewrite <- (Nat.add_0_r i) at 1; apply Hcalls; cbn; lia).
  rewrite Hcall. apply IH. intros k Hk.
  replace (S i + k)%nat with (i + S k)%nat by lia. apply Hcalls. cbn. lia.
Qed.

End ThrowingCallback.

(** X9. singleThreadHash rejects only through its callback, never through a
    read. It rejects exactly when a call of onProgress throws, with the
    value thrown by the first such call, the chunk of that call being
    already folded and reported. It resolves exactly when the read of every
    chunk succeeds and every call returns, and then with the MD5 of the
    chunks put end to end, having folded exactly those bytes. With a
    callback that returns it behaves as [singleThreadHash]. *)
Theorem singleThreadHash_settles_iff (reads : nat -> bool)
    (onProgress : ProgressData -> option Error) (chunks : list Chunk)
    (fileName : string) :
  let run := singleThreadHash_onProgress reads onProgress chunks fileName in
  let report := fun i : nat => progressData fileName (i + 1) (length chunks) in
  let throwsAt := fun (i : nat) (reason : Error) =>
    (i < length chunks)%nat
    /\ (forall j, (j <= i)%nat -> reads j = true)
    /\ (forall j, (j < i)%nat -> onProgress (report j) = None)
    /\ onProgress (report i) = Some reason in
  (forall reason, settled run = Rejected reason -> exists i, throwsAt i reason)
  /\ (forall i reason, throwsAt i reason ->
        run = {| accumulated := concat (data <$> take (S i) chunks);
                 onProgressCalls := take (S i) (progressCalls fileName (length chunks));
                 settled := Rejected reason |})
  /\ ((exists digest, settled run = Fulfilled digest)
      <-> forall i, (i < length chunks)%nat ->
            reads i = true /\ onProgress (report i) = None)
  /\ (forall digest, settled run = Fulfilled digest ->
        digest = MD5.hex (concat (data <$> chunks))
        /\ accumulated run = concat (data <$> chunks))
  /\ ((forall i, (i < length chunks)%nat -> onProgress (report i) = None) ->
        run = singleThreadHash reads chunks fileName).
Proof.
  intros run report throwsAt. unfold run, singleThreadHash_onProgress.
  split; [|split; [|split; [|split]]].
  - intros reason Hr.
    destruct (onProgress_loop_rejected reads onProgress fileName (length chunks)
                chunks 0 (Build_Observed SparkMD5_new [] Pending) reason eq_refl Hr) as (k & Hk & Hreads & Hcalls & Hthrow).
    exists k. repeat split; assumption.
  - intros i reason (Hi & Hreads & Hcalls & Hthrow).
    rewrite (onProgress_loop_throws reads onProgress fileName (length chunks)
               chunks 0 i _ reason Hi Hreads Hcalls Hthrow).
    cbn [accumulated onProgressCalls SparkMD5_new app]. f_equal.
    unfold progressCalls. rewrite <- fmap_take, take_seq. do 2 f_equal. lia.
  - split.
    + intros [digest Hd] i Hi.
      destruct (onProgress_loop_fulfilled reads onProgress fileName (length chunks)
                  chunks 0 (Build_Observed SparkMD5_new [] Pending) digest eq_refl Hd) as (Hall & _).
      apply (Hall i Hi).
    + intros Hall.
      rewrite (onProgress_loop_returns reads onProgress fileName (length chunks)
                 chunks 0 _ (fun k Hk => proj2 (Hall k Hk))).
      apply singleThreadHash_loop_resolves. intros m Hm. apply (proj1 (Hall m Hm)).
  - intros digest Hd.
    destruct (onProgress_loop_fulfilled reads onProgress fileName (length chunks)
                chunks 0 (Build_Observed SparkMD5_new [] Pending) digest eq_refl Hd) as (_ & Hacc & Hdigest).
    cbn [accumulated SparkMD5_new app] in Hacc, Hdigest. split; assumption.
  - intros Hcalls.
    apply (onProgress_loop_returns reads onProgress fileName (length chunks)
             chunks 0 _ Hcalls).
Qed.

(** A callback that throws at the second of three chunks whose reads all
    succeed: the promise is rejected with the value thrown, two chunks are
    folded and the third is never read. *)
Example singleThreadHash_callback_throws :
  singleThreadHash_onProgress readable throws_at_second
    [chunk_a; chunk_b; chunk_a] "f"
  = {| accumulated := bytes_of "ab";
       onProgressCalls := take 2 (progressCalls "f" 3);
       settled := Rejected (JsError "cb boom") |}.
Proof. vm_compute. reflexivity. Qed.

(** X10. singleThreadHash stalls at the first chunk whose read fails: the
    promise stays pending for ever, the chunks before it are folded, in
    order, and reported, and nothing after it is read. *)
Theorem singleThreadHash_stalls (reads : nat -> bool) (chunks : list Chunk)
    (fileName : string) (i : nat) :
  (i < length chunks)%nat ->
  (forall j, (j < i)%nat -> reads j = true) ->
  reads i = false ->
  singleThreadHash reads chunks fileName
  = {| accumulated := concat (data <$> take i chunks);
       onProgressCalls := take i (progressCalls fileName (length chunks));
       settled := Pending |}.
Proof.
  intros Hi Hok Hfail. unfold singleThreadHash.
  rewrite (singleThreadHash_loop_stalls reads fileName (length chunks) chunks 0 i)
    by assumption.
  cbn [accumulated onProgressCalls settled SparkMD5_new app].
  f_equal.
  - unfold progressCalls. rewrite <- fmap_take, take_seq. do 2 f_equal. lia.
  - destruct i; reflexivity.
Qed.

(** ** calculateHash: progress reports and digests *)

Lemma progressHandler_progressData (fileName : string) (k n : nat) :
  progressHandler fileName (progressData fileName k n) = progressData fileName k n.
Proof. reflexivity. Qed.

Lemma progress_prefix (fileName : string) (n k : nat) :
  (k <= n)%nat ->
  progressHandler fileName <$> ((fun j => progressData fileName j n) <$> seq 1 k)
  = take k (progressCalls fileName n).
Proof.
  intros Hk. unfold progressCalls. rewrite <- fmap_take, take_seq.
  rewrite <- list_fmap_compose. replace (k `min` n)%nat with k by lia.
  apply list_fmap_ext. intros i x Hx. reflexivity.
Qed.

Lemma multiThreadHash_nil (hc : option nat) (fileName : string) (events : list Event) :
  promise (multiThreadHash hc [] fileName events) = Pending.
Proof.
  unfold multiThreadHash, start, workerCount. cbn [length].
  rewrite Nat.min_0_r. cbn [Nat.iter nat_rect].
  rewrite run_terminated; [reflexivity|].
  unfold allTerminated. cbn [workers]. constructor.
Qed.

(** X11. Every call of onProgress that calculateHash makes carries the name
    of the file and the number of chunks as total, and the calls are
    numbered 1, 2, ... in order: they are the first reports of the sequence
    for that file, and all of it once the promise is fulfilled. *)
Theorem calculateHash_progress (hc : option nat) (file : File)
    (options : HashOptions) (env : Environment) (o : Observed) :
  calculateHash hc file options env = Some o ->
  exists (chunks : list Chunk) (k : nat),
    createChunks file (default 10485760 (chunkSize options)) = Some chunks
    /\ (k <= length chunks)%nat
    /\ onProgressCalls o = take k (progressCalls (name file) (length chunks))
    /\ (forall digest, settled o = Fulfilled digest -> k = length chunks).
Proof.
  unfold calculateHash. change (10 * 1024 * 1024) with 10485760.
  destruct (createChunks file _) as [chunks|]; [|discriminate].
  intros [= <-]. exists chunks.
  destruct (default 10485760 (useWorkerThreshold options) <=? size file).
  - destruct (multiThreadHash_invariant chunks (name file) hc (arrivals env))
      as [Hc [Hn Hi] _ Hdone].
    exists (processedChunks (multiThreadHash hc chunks (name file) (arrivals env))).
    split; [reflexivity|]. split; [lia|]. split.
    + cbn [withProgress observe onProgressCalls]. rewrite Hc.
      apply progress_prefix. lia.
    + intros digest Hd. apply (Hdone digest Hd).
  - destruct (singleThreadHash_loop_prefix (reads env) (name file) (length chunks)
                chunks 0
                {| accumulated := SparkMD5_new; onProgressCalls := []; settled := Pending |}
                eq_refl) as (k & Hk & Hc).
    cbn [length Nat.add] in Hk.
    exists k. split; [reflexivity|]. split; [lia|]. split.
    + cbn [withProgress onProgressCalls]. unfold singleThreadHash. rewrite Hc.
      apply progress_prefix. lia.
    + intros digest Hd. cbn [withProgress settled] in Hd.
      destruct (singleThreadHash_fulfilled _ _ _ _ Hd) as (_ & Hall & _).
      unfold singleThreadHash in Hall. rewrite Hc in Hall.
      apply (f_equal length) in Hall.
      rewrite length_fmap, length_seq in Hall. unfold progressCalls in Hall.
      rewrite length_fmap, length_seq in Hall. exact Hall.
Qed.

(** X12. On the sequential route, for any positive chunk size and a file
    all of whose reads succeed, calculateHash resolves with the MD5 of the
    bytes of the file: the digest does not depend on the chunk size. It has
    folded the file's bytes and made one report per chunk. *)
Theorem calculateHash_sequential_digest (hc : option nat) (file : File)
    (options : HashOptions) (env : Environment) :
  0 < default 10485760 (chunkSize options) ->
  size file < default 10485760 (useWorkerThreshold options) ->
  (forall i, reads env i = true) ->
  calculateHash hc file options env
  = Some {| accumulated := content file;
            onProgressCalls :=
              progressCalls (name file)
                (chunkCount file (default 10485760 (chunkSize options)));
            settled := Fulfilled (MD5.hex (content file)) |}.
Proof.
  intros Hpos Hlt Hr. unfold calculateHash. change (10 * 1024 * 1024) with 10485760.
  pose proof (chunk_count_le_size file _ Hpos) as Hle.
  unfold createChunks. rewrite (createChunks_fuel_enough file _ Hpos) by lia.
  rewrite (proj2 (Z.leb_gt _ _) Hlt).
  set (chunks := chunkAt file _ <$> seq 0 _).
  destruct (singleThreadHash_loop_resolves (reads env) (name file) (length chunks)
              chunks 0
              {| accumulated := SparkMD5_new; onProgressCalls := []; settled := Pending |}
              (fun m _ => Hr _)) as (digest & Hd).
  fold (singleThreadHash (reads env) chunks (name file)) in Hd.
  destruct (singleThreadHash_fulfilled _ _ _ _ Hd) as (Ha & Hc & ->).
  assert (Hcat : concat (data <$> chunks) = content file)
    by (apply concat_chunks; exact Hpos).
  assert (Hlen : length chunks = chunkCount file (default 10485760 (chunkSize options)))
    by (unfold chunks; rewrite length_fmap, length_seq; reflexivity).
  f_equal. unfold withProgress. rewrite Ha, Hc, Hd, Hcat, Hlen. f_equal.
  unfold progressCalls. rewrite <- list_fmap_compose.
  apply list_fmap_ext. intros i x Hx. reflexivity.
Qed.

(** X13. When the navigator reports a hardware concurrency of 1, every
    digest that calculateHash resolves, on either route and for every
    positive chunk size, is the MD5 of the bytes of the file. *)
Theorem calculateHash_one_core_digest (file : File) (options : HashOptions)
    (env : Environment) (o : Observed) (digest : string) :
  0 < default 10485760 (chunkSize options) ->
  calculateHash (Some 1%nat) file options env = Some o ->
  settled o = Fulfilled digest ->
  digest = MD5.hex (content file) /\ accumulated o = content file.
Proof.
  intros Hpos. unfold calculateHash. change (10 * 1024 * 1024) with 10485760.
  pose proof (chunk_count_le_size file _ Hpos) as Hle.
  unfold createChunks. rewrite (createChunks_fuel_enough file _ Hpos) by lia.
  set (chunks := chunkAt file _ <$> seq 0 _).
  assert (Hcat : concat (data <$> chunks) = content file)
    by (apply concat_chunks; exact Hpos).
  destruct (default 10485760 (useWorkerThreshold options) <=? size file);
    intros [= <-]; cbn [withProgress observe settled accumulated]; intros Hd.
  - destruct chunks as [|c chunks'] eqn:Hchunks.
    + rewrite multiThreadHash_nil in Hd. discriminate.
    + destruct (multiThreadHash_single_worker (c :: chunks') (name file)
                  (Some 1%nat) (arrivals env) digest) as [Hs Hsame];
        [unfold workerCount; cbn; lia | exact Hd |].
      rewrite singleThreadHash_readable in Hsame. cbn [settled] in Hsame.
      assert (Hdig : digest = MD5.hex (concat (data <$> c :: chunks')))
        by congruence.
      rewrite Hdig, Hs, Hcat. auto.
  - destruct (singleThreadHash_fulfilled _ _ _ _ Hd) as (Ha & _ & ->).
    rewrite Ha, Hcat. auto.
Qed.

(** X14. A file of no bytes. When useWorkerThreshold is positive (as by
    default) calculateHash resolves at once with the MD5 of the empty
    input, without any progress report; when the threshold is zero or
    negative the file goes to multiThreadHash and the promise never
    settles, whatever the environment does. Either way for every chunk
    size. *)
Theorem calculateHash_empty_file (hc : option nat) (file : File)
    (options : HashOptions) (env : Environment) :
  size file = 0 ->
  calculateHash hc file options env
  = Some {| accumulated := [];
            onProgressCalls := [];
            settled :=
              if 0 <? default 10485760 (useWorkerThreshold options)
              then Fulfilled "d41d8cd98f00b204e9800998ecf8427e"%string
              else Pending |}.
Proof.
  intros Hs. unfold calculateHash. change (10 * 1024 * 1024) with 10485760.
  assert (Hc : forall cs, createChunks file cs = Some []).
  { intros cs. unfold createChunks, createChunks_fuel. cbn [createChunks_loop].
    rewrite Hs. reflexivity. }
  rewrite Hc, Hs.
  destruct (Z.leb_spec (default 10485760 (useWorkerThreshold options)) 0) as [Hle|Hgt].
  - destruct (Z.ltb_spec 0 (default 10485760 (useWorkerThreshold options))); [lia|].
    f_equal. unfold withProgress, observe.
    pose proof (multiThreadHash_nil hc (name file) (arrivals env)) as Hp.
    pose proof (multiThreadHash_invariant [] (name file) hc (arrivals env))
      as [Hcalls [Hn Hi] _ _].
    destruct (multiThreadHash_dispatch [] (name file) hc (arrivals env)) as [_ Hord].
    destruct Hord as (order & _ & Hspark & Hlen); [rewrite Hp; discriminate|].
    cbn [length] in Hi.
    assert (Hz : processedChunks (multiThreadHash hc [] (name file) (arrivals env)) = 0%nat)
      by lia.
    rewrite Hz in Hcalls, Hlen. destruct order; [|discriminate].
    rewrite Hcalls, Hspark, Hp. reflexivity.
  - rewrite (proj2 (Z.ltb_lt _ _) Hgt).
    unfold withProgress, singleThreadHash.
    cbn [singleThreadHash_loop accumulated onProgressCalls settled fmap list_fmap].
    unfold SparkMD5_end, SparkMD5_new. rewrite md5_empty. reflexivity.
Qed.

(** ** calculateAllHashes: the limiter *)

Section Limiter.

Variable runs : nat -> option Observed.
Variable concurrency : nat.

Lemma limiter_submission (m : nat) (b : Batch) :
  submissionInvariant concurrency m b ->
  submissionInvariant concurrency (S m) (limiter concurrency b m).
Proof.
  intros (Hact & Hseq & Hle & Hfull). unfold limiter.
  destruct (Nat.ltb_spec (length (active b)) concurrency) as [Hfree|Hbusy];
    unfold submissionInvariant; cbn [queue active dispatched].
  - assert (Hq : queue b = []).
    { destruct (queue b) eqn:Hq; [reflexivity|].
      assert (concurrency <= length (active b))%nat by (apply Hfull; discriminate).
      lia. }
    rewrite Hq, app_nil_r in *. rewrite Hact, Hseq, seq_S.
    repeat split.
    + rewrite length_app, <- Hseq, <- Hact. cbn. lia.
    + intros H. congruence.
  - rewrite app_assoc, Hseq, seq_S. repeat split; auto; lia.
Qed.

Lemma tasks_submission (n : nat) :
  submissionInvariant concurrency n
    (foldl (limiter concurrency)
       {| queue := []; active := []; dispatched := []; results := [] |}
       (seq 0 n)).
Proof.
  induction n as [|n IH].
  - repeat split; cbn; [lia | congruence].
  - rewrite seq_S, foldl_app. cbn [foldl Nat.add].
    apply limiter_submission. exact IH.
Qed.

Lemma submission_admission (n : nat) (b : Batch) :
  submissionInvariant concurrency n b -> admissionInvariant concurrency n b.
Proof.
  intros (Hact & Hseq & Hle & Hfull). repeat split; auto.
  - destruct (queue b) eqn:Hq.
    + rewrite app_nil_r in Hseq. rewrite Hseq, length_seq. lia.
    + assert (concurrency <= length (active b))%nat by (apply Hfull; discriminate).
      rewrite <- Hact. lia.
  - intros i Hi. rewrite <- Hact. exact Hi.
Qed.

Lemma filter_other_length (task : nat) (l : list nat) :
  task ∈ l -> (length (filter (fun j => j ≠ task) l) < length l)%nat.
Proof.
  induction l as [|x l IH]; intros Hin.
  - apply elem_of_nil in Hin. contradiction.
  - pose proof (length_filter (fun j => j ≠ task) l) as Hle.
    destruct (decide (x = task)) as [->|Hne].
    + rewrite filter_cons_False by (intros H; apply H; reflexivity).
      cbn [length]. lia.
    + rewrite filter_cons_True by assumption. cbn [length].
      apply elem_of_cons in Hin as [->|Hin]; [congruence|].
      specialize (IH Hin). lia.
Qed.

Lemma finish_admission (n task : nat) (b : Batch) (r : TaskResult) :
  task ∈ active b ->
  admissionInvariant concurrency n b ->
  admissionInvariant concurrency n (finish b task r).
Proof.
  intros Hin (Hseq & Hle & Hmin & Hsub).
  pose proof (filter_other_length task (active b) Hin) as Hlt.
  unfold finish. destruct (queue b) as [|next queue'] eqn:Hq;
    unfold admissionInvariant; cbn [queue active dispatched].
  - repeat split; auto; [lia|].
    intros i Hi. apply list_elem_of_filter in Hi as [_ Hi]. auto.
  - repeat split.
    + rewrite <- app_assoc. exact Hseq.
    + rewrite length_app. cbn. lia.
    + rewrite length_app. lia.
    + intros i Hi. apply elem_of_app. apply elem_of_app in Hi as [Hi|Hi].
      * left. apply list_elem_of_filter in Hi as [_ Hi]. auto.
      * right. exact Hi.
Qed.

Lemma complete_admission (n : nat) (b : Batch) (task : nat) :
  admissionInvariant concurrency n b ->
  admissionInvariant concurrency n (complete runs b task).
Proof.
  intros Hinv. unfold complete.
  destruct (decide (task ∈ active b)); [|assumption].
  destruct (taskBody (runs task)); [|assumption].
  apply finish_admission; assumption.
Qed.

Lemma run_admission (n : nat) (completions : list nat) :
  admissionInvariant concurrency n
    (foldl (complete runs)
       (foldl (limiter concurrency)
          {| queue := []; active := []; dispatched := []; results := [] |}
          (seq 0 n))
       completions).
Proof.
  apply foldl_invariant.
  - intros b task. apply complete_admission.
  - apply submission_admission, tasks_submission.
Qed.

End Limiter.

(** X15. calculateAllHashes never hashes more files at once than
    min (maxConcurrency || 4, hardwareConcurrency || 4): whatever the
    input, the options and the order in which tasks return, the number of
    tasks running is within that bound. *)
Theorem calculateAllHashes_concurrency_bound (files : JsInput)
    (options : AllHashOptions) (env : BatchEnvironment) :
  (length (running (calculateAllHashes files options env))
   <= Nat.min (or_default (maxConcurrency options) 4)
              (or_default (hardwareConcurrency env) 4))%nat.
Proof.
  destruct files as [|elements]; cbn [calculateAllHashes running length]; [lia|].
  destruct (existsb _ elements); cbn [running length]; [lia|].
  apply (run_admission (processFile env options (omap asFile elements))).
Qed.


Section BatchLiveness.

Variable runs : nat -> option Observed.
Variable concurrency n : nat.
Hypothesis runs_settle : forall i, (i < n)%nat -> taskBody (runs i) <> None.

(** While tasks run, a running task can return, and that leaves fewer tasks
    waiting or running. *)
Lemma drain (k : nat) :
  forall b,
    batchInvariant runs n b -> batchProgress n b ->
    admissionInvariant concurrency n b ->
    (length (queue b) + length (active b) <= k)%nat ->
    exists more,
      active (foldl (complete runs) b more) = []
      /\ batchInvariant runs n (foldl (complete runs) b more)
      /\ batchProgress n (foldl (complete runs) b more).
Proof.
  induction k as [|k IH]; intros b Hinv Hprog Hadm Hk.
  - exists []. cbn [foldl]. destruct (active b); [auto | cbn in Hk; lia].
  - destruct (active b) as [|task rest] eqn:Hact.
    + exists []. cbn [foldl]. auto.
    + assert (Hin : task ∈ active b) by (rewrite Hact; apply elem_of_cons; auto).
      assert (Hlt : (task < n)%nat).
      { destruct Hadm as (Hseq & _ & _ & Hsub).
        specialize (Hsub task Hin).
        assert (Hs : task ∈ seq 0 n)
          by (rewrite <- Hseq; apply elem_of_app; auto).
        apply elem_of_seq in Hs. lia. }
      destruct (taskBody (runs task)) as [r|] eqn:Hr;
        [|exfalso; apply (runs_settle task Hlt); exact Hr].
      assert (Hstep : complete runs b task = finish b task r).
      { unfold complete. rewrite Hr.
        destruct (decide (task ∈ active b)); [reflexivity | contradiction]. }
      destruct (IH (complete runs b task)) as (more & Hidle & Hinv' & Hprog').
      * apply complete_invariant. exact Hinv.
      * apply (complete_progress runs n b task). auto.
      * apply complete_admission. exact Hadm.
      * rewrite Hstep. pose proof (filter_other_length task (active b) Hin) as Hf.
        assert (Hm : length (active b) = S (length rest)) by (rewrite Hact; reflexivity).
        unfold finish. destruct (queue b); cbn [queue active length] in *;
          rewrite ?length_app; cbn [length]; lia.
      * exists (task :: more). cbn [foldl]. auto.
Qed.

End BatchLiveness.


(** ** calculateAllHashes: the progress callbacks *)

(** The [k]-th report of a file's hashing is numbered [k + 1] and carries
    the file's name. *)
Lemma calculateHash_calls_lookup (hc : option nat) (file : File)
    (options : HashOptions) (env : Environment) (o : Observed) (k : nat)
    (p : ProgressData) :
  calculateHash hc file options env = Some o ->
  onProgressCalls o !! k = Some p ->
  current p = S k /\ progress_name p = Some (name file).
Proof.
  unfold calculateHash.
  destruct (createChunks file _) as [chunks|]; [|discriminate].
  intros [= <-].
  assert (H : exists m,
            onProgressCalls
              (if default (10 * 1024 * 1024) (useWorkerThreshold options) <=? size file
               then observe (multiThreadHash hc chunks (name file) (arrivals env))
               else singleThreadHash (reads env) chunks (name file))
            = (fun j => progressData (name file) j (length chunks)) <$> seq 1 m).
  { destruct (_ <=? _).
    - eexists. apply (inv_calls _ _ _ (multiThreadHash_invariant chunks (name file) hc
                                        (arrivals env))).
    - destruct (singleThreadHash_loop_prefix (reads env) (name file) (length chunks)
                  chunks 0
                  {| accumulated := SparkMD5_new; onProgressCalls := []; settled := Pending |}
                  eq_refl) as (m & _ & Hc).
      exists m. exact Hc. }
  destruct H as (m & Hm). cbn [withProgress onProgressCalls]. rewrite Hm.
  rewrite !list_lookup_fmap.
  destruct (seq 1 m !! k) as [j|] eqn:Hj; [|discriminate].
  apply lookup_seq in Hj as [-> _]. intros [= <-]. split; reflexivity.
Qed.

Section DistinctNames.

Variable files : list File.
Variable options : AllHashOptions.
Variable env : BatchEnvironment.
Hypothesis distinct_names : NoDup (name <$> files).

Lemma same_name_same_file (i j : nat) (f g : File) :
  files !! i = Some f -> files !! j = Some g -> name f = name g -> i = j.
Proof.
  intros Hi Hj Hn. apply (NoDup_lookup _ _ _ (name f) distinct_names).
  - rewrite list_lookup_fmap, Hi. reflexivity.
  - rewrite list_lookup_fmap, Hj, Hn. reflexivity.
Qed.

Lemma report_invariant (total : Z) (st : Reporting) (i : nat) :
  reportingInvariant files total st ->
  reportingInvariant files total
    (report files (processFile env options files) total st i).
Proof.
  intros (Hmap & Htot & Hcur & Htotal & Hlen & Hname). unfold report.
  destruct (files !! i) as [file|] eqn:Hf; [|repeat split; assumption].
  destruct (processFile env options files i) as [o|] eqn:Ho; [|repeat split; assumption].
  destruct (onProgressCalls o !! default 0%nat (reported st !! i)) as [p|] eqn:Hp;
    [|repeat split; assumption].
  unfold processFile in Ho. rewrite Hf in Ho.
  destruct (calculateHash_calls_lookup _ _ _ _ _ _ _ Ho Hp) as [Hc Hn].
  unfold reportingInvariant, processFile_onProgress.
  cbn [aggregate reported progressMap totalProcessedChunks onFileProgressCalls
       onTotalProgressCalls].
  rewrite (Hmap i file Hf), Hc, Htot, !length_app. cbn [length].
  repeat split.
  - intros j g Hg. destruct (decide (name file = name g)) as [Heq|Hne].
    + assert (i = j) as <- by (eapply same_name_same_file; eassumption).
      rewrite Heq, !lookup_insert_eq. reflexivity.
    + assert (i <> j) by (intros <-; congruence).
      rewrite !lookup_insert_ne by assumption. apply Hmap. exact Hg.
  - lia.
  - rewrite fmap_app, Hcur, Nat.add_1_r, seq_S, fmap_app. cbn [fmap list_fmap total_current].
    do 2 f_equal. lia.
  - apply Forall_app. split; [exact Htotal|]. repeat constructor.
  - lia.
  - apply Forall_app. split; [exact Hname|]. repeat constructor. exact Hn.
Qed.

Lemma batchReports_invariant (order : list nat) :
  reportingInvariant files (totalChunks files options)
    (batchReports files options env order).
Proof.
  unfold batchReports. apply foldl_invariant.
  - intros st i. apply report_invariant.
  - repeat split; try constructor.
Qed.

End DistinctNames.

(** X18. When the files of a batch have different names, every report of a
    file's hashing raises the global count of calculateAllHashes by one:
    the calls of onTotalProgress carry the counts 1, 2, 3, ... in order and
    the precomputed total; each is paired with a call of onFileProgress
    that carries the name of its file both as name and as file; and the
    entry of a file in the progress map is the number of its reports. *)
Theorem calculateAllHashes_total_progress (files : list File)
    (options : AllHashOptions) (env : BatchEnvironment) (order : list nat) :
  NoDup (name <$> files) ->
  let agg := aggregate (batchReports files options env order) in
  let n := length (onTotalProgressCalls agg) in
  totalProcessedChunks agg = Z.of_nat n
  /\ total_current <$> onTotalProgressCalls agg = Z.of_nat <$> seq 1 n
  /\ Forall (fun c => total_total c = totalChunks files options)
       (onTotalProgressCalls agg)
  /\ length (onFileProgressCalls agg) = n
  /\ Forall (fun c => progress_name (fst c) = Some (snd c)) (onFileProgressCalls agg)
  /\ (forall i file, files !! i = Some file ->
        default 0%nat (progressMap agg !! name file)
        = default 0%nat (reported (batchReports files options env order) !! i)).
Proof.
  intros Hnames agg n.
  destruct (batchReports_invariant files options env Hnames order)
    as (Hmap & Htot & Hcur & Htotal & Hlen & Hname).
  repeat split; assumption.
Qed.

Lemma progressSum_insert (m : gmap string nat) (k : string) (v : nat) :
  progressSum (<[k := v]> m)
  = progressSum m + (Z.of_nat v - Z.of_nat (default 0%nat (m !! k))).
Proof.
  assert (Hcomm : forall (m' : gmap string nat) (j1 j2 : string) (z1 z2 : nat) (y : Z),
            j1 <> j2 -> m' !! j1 = Some z1 -> m' !! j2 = Some z2 ->
            Z.of_nat z1 + (Z.of_nat z2 + y) = Z.of_nat z2 + (Z.of_nat z1 + y))
    by (intros; lia).
  unfold progressSum. destruct (m !! k) as [x|] eqn:Hk; cbn [default].
  - rewrite <- (insert_delete_eq m k v).
    rewrite (map_fold_insert_L _ _ _ _ _ (Hcomm _)) by apply lookup_delete_eq.
    rewrite (map_fold_delete_L _ _ _ _ _ (Hcomm _) Hk). unfold id. lia.
  - rewrite (map_fold_insert_L _ _ _ _ _ (Hcomm _) Hk). lia.
Qed.

Lemma processFile_onProgress_invariant (total : Z) (file : File)
    (progress : ProgressData) (agg : Aggregate) :
  aggregateInvariant total agg ->
  aggregateInvariant total (processFile_onProgress total file progress agg).
Proof.
  intros (Hsum & Hmap & Hcalls & Hlast). unfold processFile_onProgress.
  unfold aggregateInvariant.
  cbn [progressMap totalProcessedChunks onFileProgressCalls onTotalProgressCalls].
  repeat split.
  - rewrite progressSum_insert, Hsum. reflexivity.
  - unfold replay. rewrite foldl_app. cbn [foldl fst snd].
    fold (replay (onFileProgressCalls agg)). rewrite Hmap. reflexivity.
  - apply Forall_app. split; [exact Hcalls|]. repeat constructor.
  - intros c Hc. rewrite last_snoc in Hc. injection Hc as <-. reflexivity.
Qed.

Lemma batchReports_aggregate (files : list File) (options : AllHashOptions)
    (env : BatchEnvironment) (order : list nat) :
  aggregateInvariant (totalChunks files options)
    (aggregate (batchReports files options env order)).
Proof.
  unfold batchReports.
  apply (foldl_invariant
           (fun st => aggregateInvariant (totalChunks files options) (aggregate st))).
  - intros st i H. unfold report.
    destruct (files !! i); [|exact H].
    destruct (processFile env options files i) as [o|]; [|exact H].
    destruct (onProgressCalls o !! _); [|exact H].
    cbn [aggregate]. apply processFile_onProgress_invariant. exact H.
  - repeat split; try constructor. intros c Hc. discriminate.
Qed.

(** X19. Whatever the names of the files, the global count of
    calculateAllHashes is the sum of the entries of its progress map, and
    that map holds, under each file name, the count of the latest report
    made under that name: files that share a name share one entry. Every
    call of onTotalProgress carries the global count at that time, the
    precomputed total, and the percent computed from the two. *)
Theorem calculateAllHashes_progress_map (files : list File)
    (options : AllHashOptions) (env : BatchEnvironment) (order : list nat) :
  let agg := aggregate (batchReports files options env order) in
  totalProcessedChunks agg = progressSum (progressMap agg)
  /\ progressMap agg = replay (onFileProgressCalls agg)
  /\ 0 <= totalProcessedChunks agg
  /\ Forall (fun c => total_total c = totalChunks files options
                      /\ total_percent c = totalPercent c)
       (onTotalProgressCalls agg)
  /\ (forall c, last (onTotalProgressCalls agg) = Some c ->
        total_current c = totalProcessedChunks agg).
Proof.
  intros agg.
  destruct (batchReports_aggregate files options env order)
    as (Hsum & Hmap & Hcalls & Hlast).
  fold agg in Hsum, Hmap, Hcalls, Hlast.
  repeat split; try assumption.
  rewrite Hsum. unfold progressSum.
  apply (map_fold_weak_ind (fun sum _ => 0 <= sum)); [lia|].
  intros k v m sum _ Hs. lia.
Qed.

(** *** The global count against the precomputed total *)

Lemma Math_ceil_div_ceilDiv (a b : Z) : 0 < b -> Math_ceil_div a b = ceilDiv a b.
Proof.
  intros Hb. unfold Math_ceil_div, ceilDiv.
  pose proof (Z.div_mod (- a) b ltac:(lia)) as H1.
  pose proof (Z.mod_pos_bound (- a) b Hb) as H2.
  pose proof (Z.div_mod (a + b - 1) b ltac:(lia)) as H3.
  pose proof (Z.mod_pos_bound (a + b - 1) b Hb) as H4.
  nia.
Qed.

Lemma sum_list_snoc (l : list nat) (x : nat) :
  sum_list (l ++ [x]) = (sum_list l + x)%nat.
Proof. rewrite sum_list_with_app. cbn. unfold id. lia. Qed.

Lemma sum_list_cons (l : list nat) (x : nat) :
  sum_list (x :: l) = (x + sum_list l)%nat.
Proof. reflexivity. Qed.

Lemma sum_seq_update (f g : nat -> nat) (n i : nat) :
  (i < n)%nat -> (forall j, j <> i -> g j = f j) -> g i = S (f i) ->
  sum_list (g <$> seq 0 n) = S (sum_list (f <$> seq 0 n)).
Proof.
  intros Hi Hother Hat. induction n as [|n IH]; [lia|].
  rewrite !seq_S, !fmap_app. cbn [fmap list_fmap Nat.add]. rewrite !sum_list_snoc.
  destruct (decide (i = n)) as [->|Hne].
  - rewrite Hat.
    assert (Hsame : g <$> seq 0 n = f <$> seq 0 n).
    { apply list_fmap_ext. intros k x Hk. apply lookup_seq in Hk as [-> Hk].
      apply Hother. lia. }
    rewrite Hsame. lia.
  - rewrite IH by lia. rewrite (Hother n) by lia. lia.
Qed.

Lemma sum_seq_le (f g : nat -> nat) (n : nat) :
  (forall i, (i < n)%nat -> (f i <= g i)%nat) ->
  (sum_list (f <$> seq 0 n) <= sum_list (g <$> seq 0 n))%nat.
Proof.
  intros Hle. induction n as [|n IH]; [reflexivity|].
  rewrite !seq_S, !fmap_app. cbn [fmap list_fmap Nat.add]. rewrite !sum_list_snoc.
  specialize (Hle n ltac:(lia)) as Hn.
  assert (sum_list (f <$> seq 0 n) <= sum_list (g <$> seq 0 n))%nat
    by (apply IH; intros i Hi; apply Hle; lia).
  lia.
Qed.

Lemma chunkCountAt_seq (files : list File) (cs : Z) :
  chunkCountAt files cs <$> seq 0 (length files)
  = (fun file => chunkCount file cs) <$> files.
Proof.
  apply list_eq. intros i. rewrite !list_lookup_fmap. unfold chunkCountAt.
  destruct (files !! i) as [file|] eqn:Hf.
  - rewrite lookup_seq_lt by (apply lookup_lt_Some in Hf; exact Hf).
    cbn. rewrite Hf. reflexivity.
  - rewrite lookup_seq_ge by (apply lookup_ge_None in Hf; lia). reflexivity.
Qed.

Lemma totalChunks_sum (files : list File) (options : AllHashOptions) :
  0 < default 10485760 (chunkSize (hashOptions options)) ->
  totalChunks files options
  = Z.of_nat (sum_list ((fun file =>
                           chunkCount file
                             (default 10485760 (chunkSize (hashOptions options))))
                        <$> files)).
Proof.
  intros Hpos.
  assert (Hcs : chunkSizeOrDefault options
                = default 10485760 (chunkSize (hashOptions options))).
  { unfold chunkSizeOrDefault.
    destruct (chunkSize (hashOptions options)) as [[|p|p]|]; cbn in *;
      reflexivity || lia. }
  unfold totalChunks. rewrite Hcs.
  set (cs := default 10485760 (chunkSize (hashOptions options))) in *.
  assert (H : forall (l : list File) (a : Z),
            foldl (fun sum file => sum + Math_ceil_div (size file) cs) a l
            = a + Z.of_nat (sum_list ((fun file => chunkCount file cs) <$> l))).
  { induction l as [|file l IH]; intros a; cbn [foldl fmap list_fmap];
      [cbn; lia|].
    rewrite sum_list_cons, IH, (Math_ceil_div_ceilDiv _ _ Hpos), <- (ceilDiv_to_nat file cs Hpos).
    lia. }
  rewrite H. lia.
Qed.

(** The hashing of a file makes at most one report per chunk. *)
Lemma calculateHash_calls_length (hc : option nat) (file : File)
    (options : HashOptions) (env : Environment) (o : Observed) :
  0 < default 10485760 (chunkSize options) ->
  calculateHash hc file options env = Some o ->
  (length (onProgressCalls o)
   <= chunkCount file (default 10485760%Z (chunkSize options)))%nat.
Proof.
  intros Hpos. unfold calculateHash. change (10 * 1024 * 1024) with 10485760.
  pose proof (chunk_count_le_size file _ Hpos) as Hle.
  unfold createChunks. rewrite (createChunks_fuel_enough file _ Hpos) by lia.
  set (chunks := chunkAt file _ <$> seq 0 _).
  assert (Hlen : length chunks = chunkCount file (default 10485760 (chunkSize options)))
    by (unfold chunks; rewrite length_fmap, length_seq; reflexivity).
  intros [= <-]. cbn [withProgress onProgressCalls]. rewrite length_fmap, <- Hlen.
  destruct (_ <=? _).
  - destruct (multiThreadHash_invariant chunks (name file) hc (arrivals env))
      as [Hc [Hn Hi] _ _].
    cbn [observe onProgressCalls]. rewrite Hc, length_fmap, length_seq. lia.
  - destruct (singleThreadHash_loop_prefix (reads env) (name file) (length chunks)
                chunks 0
                {| accumulated := SparkMD5_new; onProgressCalls := []; settled := Pending |}
                eq_refl) as (m & Hm & Hc).
    unfold singleThreadHash. rewrite Hc, length_fmap, length_seq. lia.
Qed.

Section Counting.

Variable files : list File.
Variable runs : nat -> option Observed.
Variable total : Z.

Lemma report_counting (st : Reporting) (i : nat) :
  countingInvariant files runs st ->
  countingInvariant files runs (report files runs total st i).
Proof.
  intros [Hsum Hlim]. unfold report.
  destruct (files !! i) as [file|] eqn:Hf; [|split; assumption].
  destruct (runs i) as [o|] eqn:Ho; [|split; assumption].
  destruct (onProgressCalls o !! default 0%nat (reported st !! i)) as [p|] eqn:Hp;
    [|split; assumption].
  remember (default 0%nat (reported st !! i)) as k eqn:Hk.
  split; cbn [aggregate reported processFile_onProgress onTotalProgressCalls].
  - rewrite length_app, Hsum. cbn [length]. unfold reportedSum.
    rewrite Nat.add_1_r. symmetry. apply (sum_seq_update _ _ _ i).
    + apply lookup_lt_Some in Hf. exact Hf.
    + intros j Hj. rewrite lookup_insert_ne by congruence. reflexivity.
    + rewrite lookup_insert_eq, Hk. reflexivity.
  - intros j. destruct (decide (i = j)) as [<-|Hne].
    + rewrite lookup_insert_eq. unfold reportLimit. rewrite Hf, Ho.
      apply lookup_lt_Some in Hp. cbn. lia.
    + rewrite lookup_insert_ne by assumption. apply Hlim.
Qed.

End Counting.

Lemma batchReports_counting (files : list File) (options : AllHashOptions)
    (env : BatchEnvironment) (order : list nat) :
  countingInvariant files (processFile env options files)
    (batchReports files options env order).
Proof.
  unfold batchReports. apply foldl_invariant.
  - intros st i. apply report_counting.
  - split; cbn [aggregate reported onTotalProgressCalls length].
    + unfold reportedSum. induction (length files) as [|n IH]; [reflexivity|].
      rewrite seq_S, fmap_app. cbn [fmap list_fmap]. rewrite sum_list_snoc, <- IH.
      rewrite lookup_empty. reflexivity.
    + intros i. rewrite lookup_empty. cbn. lia.
Qed.

(** X20. When the files have different names and the chunk size is
    positive or left to its default, the global progress of
    calculateAllHashes stays within its total: the precomputed total is the
    number of chunks of all files, every call of onTotalProgress has a
    count between 1 and that total, and a call whose count has reached the
    total (below 2^53) reports the percent 100.0. *)
Theorem calculateAllHashes_total_within_bounds (files : list File)
    (options : AllHashOptions) (env : BatchEnvironment) (order : list nat) :
  NoDup (name <$> files) ->
  0 < default 10485760 (chunkSize (hashOptions options)) ->
  totalChunks files options < 2 ^ 53 ->
  let calls := onTotalProgressCalls (aggregate (batchReports files options env order)) in
  totalChunks files options
  = Z.of_nat (sum_list ((fun file =>
                           chunkCount file
                             (default 10485760 (chunkSize (hashOptions options))))
                        <$> files))
  /\ Z.of_nat (length calls) <= totalChunks files options
  /\ (forall i c, calls !! i = Some c ->
        total_current c = Z.of_nat (S i)
        /\ 0 < total_current c <= total_total c
        /\ (total_current c = total_total c ->
            total_percent c = Some "100.0"%string)).
Proof.
  intros Hnames Hpos Hbig calls.
  pose proof (totalChunks_sum files options Hpos) as Htotal.
  destruct (batchReports_counting files options env order) as [Hsum Hlim].
  destruct (batchReports_invariant files options env Hnames order)
    as (_ & _ & Hcur & _ & _ & _).
  destruct (batchReports_aggregate files options env order) as (_ & _ & Hcalls & _).
  fold calls in Hsum, Hcur, Hcalls.
  assert (Hbound : Z.of_nat (length calls) <= totalChunks files options).
  { rewrite Htotal, Hsum, <- chunkCountAt_seq. apply inj_le. unfold reportedSum.
    apply sum_seq_le. intros i Hi. etransitivity; [apply Hlim|].
    unfold reportLimit, chunkCountAt, processFile.
    destruct (files !! i) as [file|]; [|lia].
    destruct (calculateHash _ file _ _) as [o|] eqn:Ho; [|lia].
    apply (calculateHash_calls_length _ _ _ _ _ Hpos Ho). }
  split; [exact Htotal|]. split; [exact Hbound|].
  intros i c Hc.
  assert (Hi : (i < length calls)%nat) by (apply lookup_lt_Some in Hc; exact Hc).
  assert (Hcurrent : total_current c = Z.of_nat (S i)).
  { apply (f_equal (fun l => l !! i)) in Hcur.
    rewrite !list_lookup_fmap, Hc, lookup_seq_lt in Hcur by exact Hi.
    cbn in Hcur. injection Hcur as ->. reflexivity. }
  destruct (proj1 (Forall_lookup _ _) Hcalls i c Hc) as [Htot Hpct].
  split; [exact Hcurrent|]. split; [lia|].
  intros Heq. rewrite Hpct. unfold totalPercent. rewrite <- Heq, Hcurrent.
  apply (percentOf_complete (S i)); lia.
Qed.

(** ** calculateAllHashes for any number given as maxConcurrency *)

(** A concurrency that pLimit accepts gives the limiter a slot. *)
Lemma slots_positive (concurrency : spec_float) (tasks : nat) :
  validateConcurrency concurrency = true -> (0 < slots concurrency tasks)%nat.
Proof.
  unfold validateConcurrency, slots.
  destruct concurrency as [s|s| |s m e]; cbn [Number_isInteger Number_toZ].
  - intros H. apply andb_true_iff in H as [_ H]. discriminate H.
  - intros _. lia.
  - intros H. discriminate H.
  - intros H. apply andb_true_iff in H as [Hint Hpos].
    destruct s; [discriminate Hpos|].
    apply orb_true_iff in Hint as [Hint|Hint]; [|discriminate Hint].
    destruct (Z.leb_spec 0 e) as [He|He].
    + assert (0 < 2 ^ e) by (apply Z.pow_pos_nonneg; lia). nia.
    + cbn [orb] in Hint. apply Z.eqb_eq in Hint.
      assert (Hp : 0 < 2 ^ (- e)) by (apply Z.pow_pos_nonneg; lia).
      pose proof (Z.div_mod (Z.pos m) (2 ^ (- e)) ltac:(lia)) as Hdm.
      rewrite Hint in Hdm.
      assert (0 < Z.pos m / 2 ^ (- e)) by nia. lia.
Qed.

Section BatchRun.

Variable runs : nat -> option Observed.
Variable concurrency n : nat.
Hypothesis concurrency_positive : (0 < concurrency)%nat.

(** What holds of the tasks of a batch after any returns. *)
Lemma run_invariants (returns : list nat) :
  let b :=
    foldl (complete runs)
      (foldl (limiter concurrency)
         {| queue := []; active := []; dispatched := []; results := [] |}
         (seq 0 n))
      returns in
  batchInvariant runs n b /\ batchProgress n b.
Proof.
  intros b. unfold b.
  apply (foldl_invariant
           (fun b => batchInvariant runs n b /\ batchProgress n b)).
  - intros b' task. apply complete_progress.
  - split; [apply tasks_invariant|]. apply tasks_progress. exact concurrency_positive.
Qed.

End BatchRun.

(** The entries of a resolved batch: each is made from the outcome of the
    hashing of its own file. *)
Lemma resolved_entries (files : list File) (runs : nat -> option Observed)
    (b : Batch) (trs : list TaskResult) :
  batchInvariant runs (length files) b ->
  mapM id (results b) = Some trs ->
  forall i file, files !! i = Some file ->
    entryOf file (runs i) (zip_with toHashResult files trs !! i).
Proof.
  intros Hinv Hall i file Hi.
  destruct (all_settled runs _ b trs Hinv Hall) as [Hlen Hres].
  destruct (trs !! i) as [r|] eqn:Hr;
    [|apply lookup_ge_None in Hr; apply lookup_lt_Some in Hi; lia].
  specialize (Hres i r Hr). rewrite lookup_zip_with, Hi, Hr. cbn.
  unfold entryOf. unfold taskBody in Hres.
  destruct (runs i) as [o|]; [|discriminate Hres].
  destruct (settled o); [discriminate Hres| |]; injection Hres as <-; reflexivity.
Qed.

(** C5. calculateAllHashes rejects with a TypeError, before the hashing of
    any file is started, exactly when its argument is not an array of files
    or the concurrency min (maxConcurrency || 4, hardwareConcurrency || 4)
    is not a positive integer, which pLimit refuses. Otherwise it never
    rejects; once no task is running it has resolved; in the resolved list
    the entry of each file is made from the outcome of that file's own
    hashing alone, its digest and no error when the hashing resolved, hash
    null and the error when it rejected; and when the hashing of every file
    settles, resolved or rejected, the batch can be brought to that end
    from whatever has returned so far. *)
Theorem calculateAllHashes_failures (files : JsInput) (options : HashOptions)
    (maxConcurrencyNumber : option spec_float) (env : BatchEnvironment) :
  let batch := calculateAllHashes_anyNumber files options maxConcurrencyNumber in
  let hashing := fun (i : nat) (file : File) =>
    calculateHash (hardwareConcurrency env) file options (fileEnvironment env i) in
  let accepted :=
    validFiles files
    && validateConcurrency (concurrencyOf maxConcurrencyNumber env) in
  (accepted = false ->
     started (batch env) = [] /\ running (batch env) = []
     /\ exists message, returned (batch env) = Rejected (TypeError message))
  /\ (accepted = true ->
        (forall reason, returned (batch env) <> Rejected reason)
        /\ (running (batch env) = [] -> exists rs, returned (batch env) = Fulfilled rs)
        /\ (forall elements rs,
              files = JsArray elements -> returned (batch env) = Fulfilled rs ->
              forall i file, elements !! i = Some (JsFile file) ->
                entryOf file (hashing i file) (rs !! i))
        /\ (forall elements,
              files = JsArray elements ->
              (forall i file, elements !! i = Some (JsFile file) ->
                 exists o, hashing i file = Some o /\ settled o <> Pending) ->
              exists more rs,
                returned (batch (thenReturn env more)) = Fulfilled rs
                /\ forall i file, elements !! i = Some (JsFile file) ->
                     entryOf file (hashing i file) (rs !! i))).
Proof.
  intros batch hashing accepted. split.
  - intros Hbad. unfold batch. destruct files as [|elements]; cbn.
    + eauto.
    + unfold accepted in Hbad. cbn [validFiles] in Hbad.
      rewrite validFiles_some in Hbad.
      destruct (existsb _ elements); [cbn; eauto|].
      cbn [negb andb] in Hbad. rewrite Hbad. cbn. eauto.
  - intros Hok. unfold accepted in Hok. apply andb_true_iff in Hok as [Hfiles Hc].
    destruct files as [|elements]; [discriminate Hfiles|].
    cbn [validFiles] in Hfiles. rewrite validFiles_some in Hfiles.
    assert (Hsome : existsb (fun f => negb (isFile f)) elements = false)
      by (destruct (existsb _ elements); [discriminate | reflexivity]).
    pose proof (all_files elements Hsome) as Helements.
    set (fs := omap asFile elements) in *.
    set (opts := {| hashOptions := options; maxConcurrency := None |}).
    set (c := slots (concurrencyOf maxConcurrencyNumber env) (length fs)).
    assert (Hpos : (0 < c)%nat) by (apply slots_positive; exact Hc).
    assert (Hbatch : forall env',
              hardwareConcurrency env' = hardwareConcurrency env ->
              batch env'
              = let b :=
                  foldl (complete (processFile env' opts fs))
                    (foldl (limiter c)
                       {| queue := []; active := []; dispatched := []; results := [] |}
                       (seq 0 (length fs)))
                    (completions env') in
                {| started := dispatched b;
                   running := active b;
                   returned :=
                     match mapM id (results b) with
                     | Some results => Fulfilled (zip_with toHashResult fs results)
                     | None => Pending
                     end |}).
    { intros env' Hhc. unfold batch. cbn [calculateAllHashes_anyNumber].
      rewrite Hsome. unfold concurrencyOf in *. rewrite Hhc, Hc. reflexivity. }
    assert (Hfile : forall i file, elements !! i = Some (JsFile file) ->
              fs !! i = Some file).
    { intros i file Hi. rewrite Helements, list_lookup_fmap in Hi.
      destruct (fs !! i); [injection Hi as ->; reflexivity | discriminate]. }
    assert (Hrun : forall env' i file,
              hardwareConcurrency env' = hardwareConcurrency env ->
              fileEnvironment env' = fileEnvironment env ->
              fs !! i = Some file ->
              processFile env' opts fs i = hashing i file).
    { intros env' i file Hhc Hfe Hi. unfold processFile, hashing.
      rewrite Hi, Hhc, Hfe. reflexivity. }
    split; [|split; [|split]].
    + intros reason. rewrite (Hbatch env eq_refl). cbn [returned].
      destruct (mapM id _); discriminate.
    + rewrite (Hbatch env eq_refl). cbn [running returned]. intros Hidle.
      destruct (run_invariants (processFile env opts fs) c (length fs) Hpos
                  (completions env)) as [Hinv Hprog].
      destruct (idle_all_settled _ _ _ Hinv Hprog Hidle) as (rs & ->). eauto.
    + intros elements' rs [= <-]. rewrite (Hbatch env eq_refl). cbn [returned].
      destruct (run_invariants (processFile env opts fs) c (length fs) Hpos
                  (completions env)) as [Hinv _].
      destruct (mapM id _) as [trs|] eqn:Hall; [|discriminate].
      intros [= <-] i file Hi. apply Hfile in Hi.
      rewrite <- (Hrun env i file eq_refl eq_refl Hi).
      apply (resolved_entries fs _ _ trs Hinv Hall i file Hi).
    + intros elements' [= <-] Hsettle.
      set (runs := processFile env opts fs).
      assert (Hruns : forall i, (i < length fs)%nat -> taskBody (runs i) <> None).
      { intros i Hi.
        destruct (fs !! i) as [file|] eqn:Hf; [|apply lookup_ge_None in Hf; lia].
        unfold runs. rewrite (Hrun env i file eq_refl eq_refl Hf).
        destruct (Hsettle i file) as (o & -> & Hp).
        { rewrite Helements, list_lookup_fmap, Hf. reflexivity. }
        cbn [taskBody]. destruct (settled o); [contradiction|discriminate|discriminate]. }
      destruct (run_invariants runs c (length fs) Hpos (completions env))
        as [Hinv Hprog].
      pose proof (run_admission runs c (length fs) (completions env)) as Hadm.
      set (b := foldl (complete runs) _ (completions env)) in *.
      destruct (drain runs c (length fs) Hruns _ b Hinv Hprog Hadm (Nat.le_refl _))
        as (more & Hidle & Hinv' & Hprog').
      destruct (idle_all_settled runs _ _ Hinv' Hprog' Hidle) as (trs & Htrs).
      exists more, (zip_with toHashResult fs trs).
      split.
      * rewrite (Hbatch (thenReturn env more) eq_refl).
        cbn [returned thenReturn completions]. rewrite foldl_app.
        change (processFile _ opts fs) with runs.
        fold b. rewrite Htrs. reflexivity.
      * intros i file Hi. apply Hfile in Hi.
        rewrite <- (Hrun env i file eq_refl eq_refl Hi).
        apply (resolved_entries fs runs _ trs Hinv' Htrs i file Hi).
Qed.

(** A concurrency of -1, or of 1.5, on an array of files: pLimit throws,
    the batch is rejected with its TypeError and no hashing is started. *)
Lemma invalid_concurrency_rejects :
  validFiles batch_files = true
  /\ calculateAllHashes_anyNumber batch_files (hashOptions batch_options)
       (Some minus_one) batch_environment
     = {| started := [];
          running := [];
          returned :=
            Rejected
              (TypeError "Expected `concurrency` to be a number from 1 and up") |}
  /\ returned (calculateAllHashes_anyNumber batch_files (hashOptions batch_options)
                 (Some one_and_a_half) batch_environment)
     = Rejected (TypeError "Expected `concurrency` to be a number from 1 and up").
Proof. vm_compute. repeat split; reflexivity. Qed.

(** With a count as maxConcurrency, or none, the batch is the one of
    [calculateAllHashes]; 5.5 is cut to the hardware concurrency. *)
Example count_concurrency_accepted :
  calculateAllHashes_anyNumber batch_files (hashOptions batch_options) None
    batch_environment
  = calculateAllHashes batch_files batch_options batch_environment
  /\ calculateAllHashes_anyNumber batch_files (hashOptions batch_options)
       (Some (Number.of_nat 2)) batch_environment
     = calculateAllHashes batch_files
         {| hashOptions := hashOptions batch_options; maxConcurrency := Some 2%nat |}
         batch_environment
  /\ slots (concurrencyOf (Some (Number.div (Number.of_nat 11) (Number.of_nat 2)))
              batch_environment) 3
     = 4%nat.
Proof. vm_compute. repeat split; reflexivity. Qed.

(** ** A count given as maxConcurrency *)

Lemma digits2_pos_upper (p : positive) :
  Z.pos p < 2 ^ Z.pos (digits2_pos p).
Proof.
  induction p as [p IH|p IH|]; cbn [digits2_pos]; rewrite ?Pos2Z.inj_succ;
    rewrite ?Z.pow_succ_r by lia; lia.
Qed.

Lemma iter_xO_value (p k : positive) :
  Z.pos (Pos.iter xO p k) = Z.pos p * 2 ^ Z.pos k.
Proof.
  induction k as [|k IH] using Pos.peano_ind.
  - cbn. lia.
  - rewrite Pos.iter_succ, Pos2Z.inj_xO, IH, Pos2Z.inj_succ, Z.pow_succ_r by lia. lia.
Qed.

(** The double of a positive count below 2^53: a mantissa of 53 bits that
    holds the count shifted left. *)
Lemma of_nat_canonical (n : nat) :
  (0 < n)%nat -> Z.of_nat n < 2 ^ 53 ->
  exists m e,
    Number.of_nat n = S754_finite false m e
    /\ e <= 0
    /\ Z.pos m = Z.of_nat n * 2 ^ (- e)
    /\ 2 ^ 52 <= Z.pos m < 2 ^ 53.
Proof.
  intros Hn Hlt. unfold Number.of_nat, Number.prec, Number.emax.
  destruct (Z.of_nat n) as [|p|p] eqn:Hp; try lia.
  pose proof (digits2_pos_lower p) as Hlow.
  pose proof (digits2_pos_upper p) as Hup.
  assert (Hd : Z.pos (digits2_pos p) <= 53).
  { destruct (Z_le_gt_dec (Z.pos (digits2_pos p)) 53) as [|Hgt]; [assumption|].
    assert (2 ^ 53 <= 2 ^ (Z.pos (digits2_pos p) - 1))
      by (apply Z.pow_le_mono_r; lia).
    lia. }
  unfold binary_normalize, binary_round, shl_align, fexp, emin.
  replace (Z.max (Z.pos (digits2_pos p) + 0 - 53) (3 - 1024 - 53) - 0)
    with (Z.pos (digits2_pos p) - 53) by lia.
  replace (Z.max (Z.pos (digits2_pos p) + 0 - 53) (3 - 1024 - 53))
    with (Z.pos (digits2_pos p) - 53) by lia.
  destruct (Z.pos (digits2_pos p) - 53) as [|k|k] eqn:Hk; try lia.
  - exists p, 0. split; [apply binary_round_aux_canonical; lia|].
    replace (Z.pos (digits2_pos p)) with 53 in * by lia.
    change (53 - 1) with 52 in Hlow. cbn [Z.opp]. rewrite Z.pow_0_r. lia.
  - exists (Pos.iter xO p k), (Z.neg k).
    assert (Hdk : digits2_pos (Pos.iter xO p k) = 53%positive)
      by (rewrite digits2_pos_iter; lia).
    split; [apply binary_round_aux_canonical; [exact Hdk | lia]|].
    pose proof (digits2_pos_lower (Pos.iter xO p k)) as Hlow'.
    pose proof (digits2_pos_upper (Pos.iter xO p k)) as Hup'.
    rewrite Hdk in Hlow', Hup'. change (53 - 1) with 52 in Hlow'.
    cbn [Z.opp]. split; [lia|]. split; [apply iter_xO_value|]. split; assumption.
Qed.

(** Doubles of counts below 2^53 compare as the counts do. *)
Lemma of_nat_compare (a b : nat) :
  (0 < a)%nat -> (0 < b)%nat -> Z.of_nat a < 2 ^ 53 -> Z.of_nat b < 2 ^ 53 ->
  SFcompare (Number.of_nat a) (Number.of_nat b) = Some (Nat.compare a b).
Proof.
  intros Ha Hb Hla Hlb.
  destruct (of_nat_canonical a Ha Hla) as (ma & ea & -> & Hea & Hma & Hra).
  destruct (of_nat_canonical b Hb Hlb) as (mb & eb & -> & Heb & Hmb & Hrb).
  cbn [SFcompare]. f_equal. rewrite <- Nat2Z.inj_compare.
  assert (Hpa : 0 < 2 ^ (- ea)) by (apply Z.pow_pos_nonneg; lia).
  assert (Hpb : 0 < 2 ^ (- eb)) by (apply Z.pow_pos_nonneg; lia).
  destruct (Z.compare_spec ea eb) as [Heq|Hlt|Hgt].
  - subst eb. change (Pos.compare_cont Eq ma mb) with (Z.compare (Z.pos ma) (Z.pos mb)).
    rewrite Hma, Hmb.
    destruct (Z.compare_spec (Z.of_nat a * 2 ^ (- ea)) (Z.of_nat b * 2 ^ (- ea))),
      (Z.compare_spec (Z.of_nat a) (Z.of_nat b)); try reflexivity; nia.
  - symmetry. apply Z.compare_lt_iff.
    assert (Hsplit : 2 ^ (- ea) = 2 ^ (- eb) * 2 ^ (eb - ea))
      by (rewrite <- Z.pow_add_r by lia; f_equal; lia).
    assert (Htwo : 2 <= 2 ^ (eb - ea)).
    { change 2 with (2 ^ 1) at 1. apply Z.pow_le_mono_r; lia. }
    rewrite Hsplit in Hma. nia.
  - symmetry. apply Z.compare_gt_iff.
    assert (Hsplit : 2 ^ (- eb) = 2 ^ (- ea) * 2 ^ (ea - eb))
      by (rewrite <- Z.pow_add_r by lia; f_equal; lia).
    assert (Htwo : 2 <= 2 ^ (ea - eb)).
    { change 2 with (2 ^ 1) at 1. apply Z.pow_le_mono_r; lia. }
    rewrite Hsplit in Hmb. nia.
Qed.

Lemma Math_min_of_nat (a b : nat) :
  (0 < a)%nat -> (0 < b)%nat -> Z.of_nat a < 2 ^ 53 -> Z.of_nat b < 2 ^ 53 ->
  Math_min (Number.of_nat a) (Number.of_nat b) = Number.of_nat (Nat.min a b).
Proof.
  intros Ha Hb Hla Hlb. unfold Math_min.
  rewrite (of_nat_compare a b Ha Hb Hla Hlb).
  destruct (Nat.compare_spec a b) as [Heq|Hlt|Hgt].
  - subst b. rewrite Nat.min_id.
    destruct (of_nat_finite a Ha Hla) as (m & e & ->). reflexivity.
  - rewrite Nat.min_l by lia. reflexivity.
  - rewrite Nat.min_r by lia. reflexivity.
Qed.

(** pLimit accepts a positive count below 2^53 and gives it that many
    slots. *)
Lemma count_accepted (n tasks : nat) :
  (0 < n)%nat -> Z.of_nat n < 2 ^ 53 ->
  validateConcurrency (Number.of_nat n) = true /\ slots (Number.of_nat n) tasks = n.
Proof.
  intros Hn Hlt.
  destruct (of_nat_canonical n Hn Hlt) as (m & e & -> & He & Hm & _).
  unfold validateConcurrency, slots. cbn [Number_isInteger Number_toZ].
  assert (Hp : 0 < 2 ^ (- e)) by (apply Z.pow_pos_nonneg; lia).
  destruct (Z.leb_spec 0 e) as [He0|He0].
  - split; [reflexivity|]. replace e with 0 in * by lia.
    cbn [Z.opp] in Hm. rewrite Z.pow_0_r in *. lia.
  - rewrite Hm, Z.mod_mul, Z.div_mul by lia. split; [reflexivity | lia].
Qed.

Lemma number_or_of_nat (count : option nat) :
  Z.of_nat (or_default count 4) < 2 ^ 53 ->
  number_or (Number.of_nat <$> count) (Number.of_nat 4)
  = Number.of_nat (or_default count 4).
Proof.
  intros Hlt. destruct count as [[|n]|]; try reflexivity.
  cbn [fmap option_fmap option_map or_default] in *.
  destruct (of_nat_finite (S n) ltac:(lia) Hlt) as (m & e & ->). reflexivity.
Qed.

(** Where maxConcurrency is a count, or absent, and the counts are below
    2^53, the batch is the one of [calculateAllHashes]. *)
Lemma calculateAllHashes_anyNumber_count (files : JsInput) (options : AllHashOptions)
    (env : BatchEnvironment) :
  Z.of_nat (or_default (maxConcurrency options) 4) < 2 ^ 53 ->
  Z.of_nat (or_default (hardwareConcurrency env) 4) < 2 ^ 53 ->
  calculateAllHashes_anyNumber files (hashOptions options)
    (Number.of_nat <$> maxConcurrency options) env
  = calculateAllHashes files options env.
Proof.
  intros Hm Hh. destruct files as [|elements]; [reflexivity|].
  cbn [calculateAllHashes_anyNumber calculateAllHashes].
  destruct (existsb _ elements); [reflexivity|].
  assert (Hpos : forall x, (0 < or_default x 4)%nat)
    by (intros [[|x]|]; cbn [or_default]; lia).
  unfold concurrencyOf.
  rewrite (number_or_of_nat _ Hm), (Math_min_of_nat _ _ (Hpos _) (Hpos _) Hm Hh).
  set (c := Nat.min _ _).
  assert (Hc : (0 < c)%nat /\ Z.of_nat c < 2 ^ 53).
  { unfold c. pose proof (Hpos (maxConcurrency options)).
    pose proof (Hpos (hardwareConcurrency env)). lia. }
  destruct (count_accepted c (length (omap asFile elements)) (proj1 Hc) (proj2 Hc))
    as [-> ->].
  reflexivity.
Qed.

(** A file that is read sequentially and cannot be read: its hashing never
    settles, its task never returns and the batch stays pending. *)
Example unreadable_file_blocks_batch :
  calculateAllHashes_anyNumber batch_files
    {| chunkSize := Some 2; useWorkerThreshold := None |} None unreadable_second
  = {| started := [0; 1; 2]%nat; running := [1]%nat; returned := Pending |}.
Proof. vm_compute. reflexivity. Qed.

(** ** The further theorems at concrete inputs *)

Lemma multiThreadHash_folds_every_chunk_once_witness :
  exists arrived : list Chunk,
    arrived ≡ₚ [chunk_a; chunk_b]
    /\ spark (multiThreadHash None [chunk_a; chunk_b] "f" second_first)
       = concat (data <$> arrived)
    /\ "07159c47ee1b19ae4fb9c40d480856c4"%string = MD5.hex (concat (data <$> arrived))
    /\ length (spark (multiThreadHash None [chunk_a; chunk_b] "f" second_first))
       = length (concat (data <$> [chunk_a; chunk_b])).
Proof.
  apply (multiThreadHash_folds_every_chunk_once None [chunk_a; chunk_b] "f" second_first
           "07159c47ee1b19ae4fb9c40d480856c4").
  vm_compute. reflexivity.
Defined.

Lemma multiThreadHash_never_stuck_witness :
  [chunk_a; chunk_b] <> []
  /\ (promise (multiThreadHash None [chunk_a; chunk_b] "f" []) = Pending ->
      (processedChunks (multiThreadHash None [chunk_a; chunk_b] "f" []) < 2)%nat).
Proof.
  split; [discriminate|]. intros Hp.
  apply (proj1 (multiThreadHash_never_stuck None [chunk_a; chunk_b] "f" []
                  ltac:(discriminate))).
  exact Hp.
Defined.

Lemma multiThreadHash_can_complete_witness :
  exists later,
    length later = 2%nat
    /\ forallb isSuccess later = true
    /\ exists digest,
         promise (multiThreadHash None [chunk_a; chunk_b] "f" ([] ++ later))
         = Fulfilled digest.
Proof.
  apply (multiThreadHash_can_complete None [chunk_a; chunk_b] "f" []).
  - discriminate.
  - vm_compute. reflexivity.
Defined.

Lemma multiThreadHash_settles_once_witness :
  multiThreadHash None [chunk_a; chunk_b] "f" (second_first ++ [Arrival 0 FetchOk])
  = multiThreadHash None [chunk_a; chunk_b] "f" second_first
  /\ allTerminated (multiThreadHash None [chunk_a; chunk_b] "f" second_first).
Proof.
  apply (multiThreadHash_settles_once None [chunk_a; chunk_b] "f" second_first
           [Arrival 0 FetchOk]).
  vm_compute. discriminate.
Defined.

Lemma multiThreadHash_worker_error_witness :
  promise (multiThreadHash None [chunk_a; chunk_b] "f" ([] ++ [Fault 0 "boom"]))
  = Rejected (JsError ("Worker错误: " +:+ "boom"))
  /\ allTerminated (multiThreadHash None [chunk_a; chunk_b] "f" ([] ++ [Fault 0 "boom"]))
  /\ spark (multiThreadHash None [chunk_a; chunk_b] "f" ([] ++ [Fault 0 "boom"]))
     = spark (multiThreadHash None [chunk_a; chunk_b] "f" [])
  /\ calls (multiThreadHash None [chunk_a; chunk_b] "f" ([] ++ [Fault 0 "boom"]))
     = calls (multiThreadHash None [chunk_a; chunk_b] "f" []).
Proof.
  apply (multiThreadHash_worker_error None [chunk_a; chunk_b] "f" [] [] 0
           {| task_index := 0; task_chunk := chunk_a |} "boom").
  vm_compute. reflexivity.
Defined.

Lemma createChunks_chunk_sizes_witness :
  fileId chunk_a = name file_ab
  /\ 0 < Z.of_nat (length (data chunk_a)) <= 1
  /\ ((0 + 1 < length [chunk_a; chunk_b])%nat -> Z.of_nat (length (data chunk_a)) = 1).
Proof.
  apply (createChunks_chunk_sizes file_ab 1 [chunk_a; chunk_b]).
  - lia.
  - vm_compute. reflexivity.
  - reflexivity.
Defined.

Lemma createChunks_edge_cases_witness :
  createChunks file_empty 0 = Some []
  /\ (forall fuel, createChunks_fuel fuel file_ab 0 = None)
  /\ calculateHash None file_ab
       {| chunkSize := Some 0; useWorkerThreshold := None |}
       {| reads := readable; arrivals := [] |}
     = None.
Proof.
  split.
  - apply (proj1 (createChunks_edge_cases file_empty 0)). reflexivity.
  - destruct (proj2 (createChunks_edge_cases file_ab 0)
                ltac:(lia) ltac:(vm_compute; reflexivity)) as [Hloop Hcalc].
    split; [exact Hloop|]. apply Hcalc. reflexivity.
Defined.

Lemma singleThreadHash_stalls_witness :
  singleThreadHash first_only [chunk_a; chunk_b] "f"
  = {| accumulated := concat (data <$> take 1 [chunk_a; chunk_b]);
       onProgressCalls := take 1 (progressCalls "f" (length [chunk_a; chunk_b]));
       settled := Pending |}.
Proof.
  apply (singleThreadHash_stalls first_only [chunk_a; chunk_b] "f" 1).
  - simpl. lia.
  - intros j Hj. destruct j as [|j]; [reflexivity|lia].
  - reflexivity.
Defined.

Lemma calculateHash_progress_witness :
  exists (o : Observed) (chunks : list Chunk) (k : nat),
    calculateHash None file_ab options_workers
      {| reads := readable; arrivals := second_first |} = Some o
    /\ createChunks file_ab (default 10485760 (chunkSize options_workers)) = Some chunks
    /\ (k <= length chunks)%nat
    /\ onProgressCalls o = take k (progressCalls (name file_ab) (length chunks)).
Proof.
  destruct (calculateHash None file_ab options_workers
              {| reads := readable; arrivals := second_first |}) as [o|] eqn:Ho;
    [|vm_compute in Ho; discriminate Ho].
  destruct (calculateHash_progress None file_ab options_workers
              {| reads := readable; arrivals := second_first |} o Ho)
    as (chunks & k & Hc & Hk & Hcalls & _).
  exists o, chunks, k. repeat split; assumption.
Defined.

Lemma calculateHash_sequential_digest_witness :
  calculateHash None file_ab options_sequential
    {| reads := readable; arrivals := [] |}
  = Some {| accumulated := content file_ab;
            onProgressCalls :=
              progressCalls (name file_ab)
                (chunkCount file_ab (default 10485760 (chunkSize options_sequential)));
            settled := Fulfilled (MD5.hex (content file_ab)) |}.
Proof.
  apply (calculateHash_sequential_digest None file_ab options_sequential
           {| reads := readable; arrivals := [] |}).
  - vm_compute. reflexivity.
  - vm_compute. reflexivity.
  - intros i. reflexivity.
Defined.

Lemma calculateHash_one_core_digest_witness :
  exists o : Observed,
    calculateHash (Some 1%nat) file_ab options_workers
      {| reads := readable; arrivals := [Arrival 0 FetchOk; Arrival 0 FetchOk] |}
    = Some o
    /\ settled o = Fulfilled "187ef4436122d1cc2f40dc2b92f0eba0"%string
    /\ "187ef4436122d1cc2f40dc2b92f0eba0"%string = MD5.hex (content file_ab)
    /\ accumulated o = content file_ab.
Proof.
  destruct (calculateHash (Some 1%nat) file_ab options_workers
              {| reads := readable; arrivals := [Arrival 0 FetchOk; Arrival 0 FetchOk] |})
    as [o|] eqn:Ho; [|vm_compute in Ho; discriminate Ho].
  assert (Hs : settled o = Fulfilled "187ef4436122d1cc2f40dc2b92f0eba0"%string).
  { vm_compute in Ho. injection Ho as <-. reflexivity. }
  exists o. split; [reflexivity|]. split; [exact Hs|].
  apply (calculateHash_one_core_digest file_ab options_workers
           {| reads := readable; arrivals := [Arrival 0 FetchOk; Arrival 0 FetchOk] |}
           o "187ef4436122d1cc2f40dc2b92f0eba0").
  - vm_compute. reflexivity.
  - exact Ho.
  - exact Hs.
Defined.

Lemma calculateHash_empty_file_witness :
  size file_empty = 0
  /\ calculateHash None file_empty
       {| chunkSize := None; useWorkerThreshold := None |}
       {| reads := readable; arrivals := [] |}
     = Some {| accumulated := [];
               onProgressCalls := [];
               settled := Fulfilled "d41d8cd98f00b204e9800998ecf8427e"%string |}
  /\ calculateHash None file_empty
       {| chunkSize := None; useWorkerThreshold := Some 0 |}
       {| reads := readable; arrivals := [] |}
     = Some {| accumulated := []; onProgressCalls := []; settled := Pending |}.
Proof.
  split; [reflexivity|]. split.
  - apply (calculateHash_empty_file None file_empty
             {| chunkSize := None; useWorkerThreshold := None |}
             {| reads := readable; arrivals := [] |}).
    reflexivity.
  - apply (calculateHash_empty_file None file_empty
             {| chunkSize := None; useWorkerThreshold := Some 0 |}
             {| reads := readable; arrivals := [] |}).
    reflexivity.
Defined.



Lemma calculateAllHashes_total_progress_witness :
  NoDup (name <$> three_files)
  /\ total_current
       <$> onTotalProgressCalls
             (aggregate (batchReports three_files batch_options batch_environment
                           report_order))
     = [1; 2]
  /\ totalProcessedChunks
       (aggregate (batchReports three_files batch_options batch_environment
                     report_order))
     = 2.
Proof.
  assert (Hnd : NoDup (name <$> three_files))
    by (apply (bool_decide_unpack _); vm_compute; exact I).
  split; [exact Hnd|].
  destruct (calculateAllHashes_total_progress three_files batch_options
              batch_environment report_order Hnd)
    as (Hcount & Hcurrent & _).
  split.
  - rewrite Hcurrent. vm_compute. reflexivity.
  - rewrite Hcount. vm_compute. reflexivity.
Defined.

Lemma calculateAllHashes_total_within_bounds_witness :
  totalChunks three_files batch_options = 4
  /\ Z.of_nat
       (length (onTotalProgressCalls
                  (aggregate (batchReports three_files batch_options batch_environment
                                report_order))))
     <= totalChunks three_files batch_options.
Proof.
  assert (Hnd : NoDup (name <$> three_files))
    by (apply (bool_decide_unpack _); vm_compute; exact I).
  destruct (calculateAllHashes_total_within_bounds three_files batch_options
              batch_environment report_order Hnd
              ltac:(vm_compute; reflexivity) ltac:(vm_compute; reflexivity))
    as (Htotal & Hle & _).
  split; [|exact Hle].
  rewrite Htotal. vm_compute. reflexivity.
Defined.

Lemma calculateAllHashes_failures_witness :
  (exists more rs,
     returned (calculateAllHashes_anyNumber batch_files (hashOptions batch_options)
                 None (thenReturn batch_begun more))
     = Fulfilled rs
     /\ rs !! 1%nat = Some {| result_name := "two";
                              hash := None;
                              result_error := Some (JsError "分块处理错误: boom") |})
  /\ (exists message,
        returned (calculateAllHashes_anyNumber (JsArray [JsOther])
                    (hashOptions batch_options) None batch_begun)
        = Rejected (TypeError message))
  /\ (exists message,
        returned (calculateAllHashes_anyNumber batch_files (hashOptions batch_options)
                    (Some minus_one) batch_begun)
        = Rejected (TypeError message)).
Proof.
  split; [|split].
  - destruct (proj2 (calculateAllHashes_failures batch_files (hashOptions batch_options)
                       None batch_begun) ltac:(vm_compute; reflexivity))
      as (_ & _ & _ & Hcomplete).
    destruct (Hcomplete batch_elements eq_refl) as (more & rs & Hrs & Hentries).
    + intros i file Hi.
      destruct i as [|[|[|i]]]; cbn in Hi; try discriminate Hi;
        injection Hi as <-; eexists; (split; [vm_compute; reflexivity|discriminate]).
    + exists more, rs. split; [exact Hrs|].
      specialize (Hentries 1%nat _ eq_refl).
      set (run := calculateHash _ _ _ _) in Hentries. vm_compute in run.
      subst run. exact Hentries.
  - apply (proj1 (calculateAllHashes_failures (JsArray [JsOther])
                    (hashOptions batch_options) None batch_begun)).
    reflexivity.
  - apply (proj1 (calculateAllHashes_failures batch_files (hashOptions batch_options)
                    (Some minus_one) batch_begun)).
    vm_compute. reflexivity.
Defined.
